(** * agent-fix: the similarity index and the repair loop

    A shallow embedding of the two API routes of the repository,

    - [src/app/api/tokenize/route.ts]: chunking, the embedding client with
      its retry loop, the cosine similarity and the index/query handler;
    - [src/app/api/code-fix/route.ts]: the sandbox runner, the dependency
      installer and the generator [streamFixProcess] that drives the repair
      loop.

    JavaScript numbers are IEEE-754 binary64 values: they are modelled by
    Rocq's primitive floats, which are the same format.  Everything outside
    the process (the tokenizer library, the embedding service, the reasoning
    service, the Python child processes, the file system calls that can fail)
    is an explicit input of the definitions. *)

From Stdlib Require Import ZArith List String Ascii Bool Lia.
From Stdlib Require Import Floats Uint63.
From Stdlib Require Import DecimalString.
From Stdlib Require Import Permutation Sorted.
From stdpp Require Import base option list gmap strings.

Import ListNotations.
Local Open Scope string_scope.
Local Open Scope list_scope.
Local Open Scope nat_scope.

(* ===================================================================== *)
(** * Part I: definitions                                                  *)
(* ===================================================================== *)

(** ** What an awaited call can do *)

(** An awaited JavaScript call either returns a value, throws (rejects) with
    an error message, or never comes back.  [Diverged] is what a loop of the
    model answers when it is cut by its fuel; the theorems show where it
    cannot happen. *)
Inductive Outcome (A : Type) : Type :=
  | Returned (a : A)
  | Thrown (message : string)
  | Diverged.
Arguments Returned {A} a.
Arguments Thrown {A} message.
Arguments Diverged {A}.

Definition is_thrown {A} (o : Outcome A) : bool :=
  match o with Thrown _ => true | _ => false end.

(** The characters that cannot be written inside a string literal here. *)
Definition dquote : ascii := ascii_of_nat 34.
Definition squote : ascii := ascii_of_nat 39.
Definition newline : string := String (ascii_of_nat 10) EmptyString.

(** JavaScript's [a || b] on strings: the empty string is falsy. *)
Definition str_or (a b : string) : string :=
  match a with EmptyString => b | _ => a end.

(** [s.includes(p)]. *)
Fixpoint includes (p s : string) : bool :=
  if String.prefix p s then true
  else match s with
       | EmptyString => false
       | String _ s' => includes p s'
       end.

(** ** Binary64 numbers *)

(** The operations on numbers are those of IEEE-754 binary64, which the
    library specifies on [spec_float] with a precision of 53 bits.  These
    are the notions used to reason about their rounding. *)
Module Binary64.

Local Open Scope Z_scope.

(** The least exponent of a binary64 number. *)
Abbreviation emin64 := (-1074).

(** A record [(m, r, s)] is the mantissa [m], the bit that was shifted out
    last and whether a one was shifted out before: twice [m] plus [r] is
    the mantissa with one more bit. *)
Definition shr_double (mrs : shr_record) : Z := 2 * shr_m mrs + Z.b2z (shr_r mrs).

(** [y] is [x] shifted right by [k] bits. *)
Definition shifted (k : Z) (x y : shr_record) : Prop :=
  0 <= shr_m y /\
  shr_double y = shr_double x / 2 ^ k /\
  shr_s y = shr_s x || negb (shr_double x mod 2 ^ k =? 0).

(** The sign of a number that is neither a zero nor NaN. *)
Definition SFpositive (x : spec_float) : bool :=
  match x with
  | S754_finite false _ _ | S754_infinity false => true
  | _ => false
  end.

Definition SFnegative (x : spec_float) : bool :=
  match x with
  | S754_finite true _ _ | S754_infinity true => true
  | _ => false
  end.

End Binary64.

Module Tokenize.

(** ** The tokenizer (js-tiktoken) *)

(** [encodingForModel("text-embedding-ada-002")] is a library object; the
    chunker only calls its [encode] and [decode].  [encode] is called with
    its default arguments, under which no special token is allowed: it
    throws when the text contains one, and [inl] is the message of that
    error.  [decode] does not throw. *)
Record Encoder : Type := {
  encode : string -> string + list nat;
  decode : list nat -> string
}.

(** ** chunkText *)

(** [tokens.slice(i, j)] for [0 <= i <= j]. *)
Definition slice {A} (l : list A) (i j : nat) : list A :=
  take (j - i) (drop i l).

(** The [for (let i = 0; i < tokens.length; i += maxTokens)] loop.  It is not
    structural in [i]; [fuel] bounds the number of iterations and [None]
    means the bound was hit. *)
Fixpoint chunk_loop (encoder : Encoder) (fuel : nat) (tokens : list nat)
    (maxTokens i : nat) (chunks : list string) : option (list string) :=
  if i <? length tokens then
    match fuel with
    | O => None
    | S fuel' =>
        let chunkTokens := slice tokens i (i + maxTokens) in
        let chunk := decode encoder chunkTokens in
        chunk_loop encoder fuel' tokens maxTokens (i + maxTokens) (chunks ++ [chunk])
    end
  else Some chunks.

(** An error thrown by [encoder.encode] leaves [chunkText] as it is. *)
Definition chunkText (encoder : Encoder) (text : string) (maxTokens : nat)
    : Outcome (list string) :=
  match encode encoder text with
  | inl message => Thrown message
  | inr tokens =>
      if length tokens <=? maxTokens then Returned [text]
      else match chunk_loop encoder (length tokens) tokens maxTokens 0 [] with
           | Some chunks => Returned chunks
           | None => Diverged
           end
  end.

(** The token windows the loop cuts, without decoding them. *)
Fixpoint windows (fuel : nat) (tokens : list nat) (maxTokens i : nat)
    : list (list nat) :=
  if i <? length tokens then
    match fuel with
    | O => []
    | S fuel' =>
        slice tokens i (i + maxTokens) :: windows fuel' tokens maxTokens (i + maxTokens)
    end
  else [].

(** ** Sentinel stripping: [text.replace(/<\|endoftext\|>/g, '')] *)

Definition sentinel : string := "<|endoftext|>".

(** A global replace scans left to right and never looks again at what it has
    already passed: [skip] counts the characters of the current occurrence
    that remain to be dropped. *)
Fixpoint remove_all (pat : string) (skip : nat) (s : string) : string :=
  match s with
  | EmptyString => EmptyString
  | String c s' =>
      match skip with
      | S k => remove_all pat k s'
      | O =>
          if String.prefix pat s
          then remove_all pat (String.length pat - 1) s'
          else String c (remove_all pat 0 s')
      end
  end.

Definition stripSentinel (text : string) : string := remove_all sentinel 0 text.

(** ** fetchEmbedding *)

(** What one [fetch] to the embedding endpoint can do: reject, or resolve to
    a response with a status, a status text and a body.  The body is what
    [data.data[0].embedding] evaluates to after [response.json()]; [inl] is
    the message of the error thrown when the body is not of that shape. *)
Inductive FetchOutcome : Type :=
  | NetworkError (message : string)
  | HttpResponse (status : Z) (statusText : string) (body : string + list float).

(** [response.ok]. *)
Definition response_ok (status : Z) : bool :=
  ((200 <=? status) && (status <=? 299))%Z.

Definition maxRetries : nat := 5.
Definition initialWaitTime : Z := 500.

(** What a call of [fetchEmbedding] leaves behind besides its result: the
    delays it slept ([setTimeout]), in order, and the number of requests it
    sent. *)
Record FetchTrace : Type := {
  waits : list Z;
  requests : nat
}.

(** The [catch] block of the loop: retry after a sleep, or rethrow. *)
Definition on_error {A} (retryCount : nat) (message : string)
    (retry : A) (rethrow : string -> A) : A :=
  if retryCount <? maxRetries then retry else rethrow message.

(** The [while (true)] loop.  [service k] is the outcome of the [k]-th
    request of this call. *)
Fixpoint fetch_loop (fuel : nat) (service : nat -> FetchOutcome)
    (retryCount : nat) (waitTime : Z) (tr : FetchTrace)
    : Outcome (list float) * FetchTrace :=
  match fuel with
  | O => (Diverged, tr)
  | S fuel' =>
      let sent := {| waits := waits tr; requests := S (requests tr) |} in
      let slept := {| waits := waits tr ++ [waitTime]; requests := S (requests tr) |} in
      let again := fetch_loop fuel' service (S retryCount) (waitTime * 2)%Z slept in
      let caught message :=
        on_error retryCount message again (fun m => (Thrown m, sent)) in
      match service (requests tr) with
      | NetworkError message => caught message
      | HttpResponse status statusText body =>
          if (status =? 429)%Z && (retryCount <? maxRetries) then again
          else if negb (response_ok status)
          then caught ("Error fetching embedding: " +:+ statusText)
          else match body with
               | inl message => caught message
               | inr embedding => (Returned embedding, sent)
               end
      end
  end.

(** Six requests are all the loop can send: the first and five retries. *)
Definition fetchEmbedding (service : nat -> FetchOutcome)
    : Outcome (list float) * FetchTrace :=
  fetch_loop (S maxRetries) service 0 initialWaitTime {| waits := []; requests := 0 |}.

(** An outcome is an error of the request when the loop does not return on it.
    429 is one of them ([response.ok] is false for it). *)
Definition failed_request (o : FetchOutcome) : bool :=
  match o with
  | NetworkError _ => true
  | HttpResponse status _ body =>
      negb (response_ok status) || match body with inl _ => true | inr _ => false end
  end.

Definition rate_limited (o : FetchOutcome) : bool :=
  match o with
  | HttpResponse status _ _ => (status =? 429)%Z
  | NetworkError _ => false
  end.

(** The message the loop rethrows for a failed request. *)
Definition error_message (o : FetchOutcome) : string :=
  match o with
  | NetworkError message => message
  | HttpResponse status statusText body =>
      if negb (response_ok status) then "Error fetching embedding: " +:+ statusText
      else match body with inl message => message | inr _ => EmptyString end
  end.

Definition backoff_schedule : list Z := [500; 1000; 2000; 4000; 8000]%Z.

(** What the loop returns on a request that did not fail. *)
Definition returned_body (o : FetchOutcome) : list float :=
  match o with
  | HttpResponse _ _ (inr embedding) => embedding
  | _ => []
  end.

Definition trace (ws : list Z) (n : nat) : FetchTrace :=
  {| waits := ws; requests := n |}.

(** ** averageEmbeddings *)

(** [v[i]] on a number array: reading past the end gives [undefined], which
    arithmetic turns into NaN. *)
Definition at_index (v : list float) (i : nat) : float := nth i v nan.

(** An array length as a JavaScript number. *)
Definition number_of_nat (n : nat) : float :=
  PrimFloat.of_uint63 (Uint63.of_Z (Z.of_nat n)).

(** [for (let i = 0; i < embeddingLength; i++) result[i] += embedding[i]]. *)
Definition add_into (result embedding : list float) : list float :=
  imap (fun i r => (r + at_index embedding i)%float) result.

Definition averageEmbeddings (embeddings : list (list float)) : list float :=
  match embeddings with
  | [] => []
  | first :: _ =>
      let embeddingLength := length first in
      let result := fold_left add_into embeddings (repeat 0%float embeddingLength) in
      map (fun val => (val / number_of_nat (length embeddings))%float) result
  end.

(** ** getEmbedding *)

Definition MAX_TOKENS_PER_CHUNK : nat := 2048.

(** The embedding service as [getEmbedding] sees it: for the text of a chunk,
    the outcomes of the successive requests [fetchEmbedding] sends for it. *)
Definition Service : Type := string -> nat -> FetchOutcome.

(** [Promise.all]: the values in input order, or the first rejection. *)
Fixpoint promise_all {A} (ps : list (Outcome A)) : Outcome (list A) :=
  match ps with
  | [] => Returned []
  | p :: ps' =>
      match p with
      | Returned a =>
          match promise_all ps' with
          | Returned l => Returned (a :: l)
          | Thrown m => Thrown m
          | Diverged => Diverged
          end
      | Thrown m => Thrown m
      | Diverged => Diverged
      end
  end.

Definition getEmbedding (encoder : Encoder) (service : Service) (text : string)
    : Outcome (list float) :=
  let text := stripSentinel text in
  match chunkText encoder text MAX_TOKENS_PER_CHUNK with
  | Diverged => Diverged
  | Thrown message => Thrown message
  | Returned chunks =>
      match chunks with
      | [chunk] => fst (fetchEmbedding (service chunk))
      | _ =>
          match promise_all (map (fun chunk => fst (fetchEmbedding (service chunk))) chunks) with
          | Returned embeddings => Returned (averageEmbeddings embeddings)
          | Thrown m => Thrown m
          | Diverged => Diverged
          end
      end
  end.

(** ** cosineSimilarity *)

(** The three accumulators of the loop, after the iterations [i], [i+1], ...
    ([n] of them). *)
Fixpoint cosine_loop (n i : nat) (vecA vecB : list float)
    (dotProduct normA normB : float) : float * float * float :=
  match n with
  | O => (dotProduct, normA, normB)
  | S n' =>
      cosine_loop n' (S i) vecA vecB
        (dotProduct + at_index vecA i * at_index vecB i)%float
        (normA + at_index vecA i * at_index vecA i)%float
        (normB + at_index vecB i * at_index vecB i)%float
  end.

Definition cosineSimilarity (vecA vecB : list float) : float :=
  let '(dotProduct, normA, normB) := cosine_loop (length vecA) 0 vecA vecB 0 0 0 in
  if (normA =? 0)%float || (normB =? 0)%float then 0%float
  else (dotProduct / (PrimFloat.sqrt normA * PrimFloat.sqrt normB))%float.

(** The squared norm as the loop accumulates it, from index [i] on. *)
Fixpoint squared_norm_from (n i : nat) (v : list float) (acc : float) : float :=
  match n with
  | O => acc
  | S n' => squared_norm_from n' (S i) v (acc + at_index v i * at_index v i)%float
  end.

Definition squared_norm (v : list float) : float :=
  squared_norm_from (length v) 0 v 0.

(** The dot product as the loop accumulates it. *)
Fixpoint dot_from (n i : nat) (vecA vecB : list float) (acc : float) : float :=
  match n with
  | O => acc
  | S n' => dot_from n' (S i) vecA vecB (acc + at_index vecA i * at_index vecB i)%float
  end.


(** A number that [=== 0] accepts: [+0] or [-0]. *)
Definition is_zero (x : float) : bool := (x =? 0)%float.

(** ** The index and the route handler *)

Record SourceFile : Type := {
  filePath : string;
  content : string
}.

Record CodeIndexRecord : Type := {
  rec_filePath : string;
  rec_content : string;
  embedding : list float
}.

(** [{ ...file, score }]: every field of the record, and the score. *)
Record ScoredFile : Type := {
  sf_filePath : string;
  sf_content : string;
  sf_embedding : list float;
  score : float
}.

Definition score_file (queryEmbedding : list float) (file : CodeIndexRecord)
    : ScoredFile :=
  {| sf_filePath := rec_filePath file;
     sf_content := rec_content file;
     sf_embedding := embedding file;
     score := cosineSimilarity queryEmbedding (embedding file) |}.

(** *** Array.prototype.sort *)

(** The comparator of the handler, [(a, b) => b.score - a.score]. *)
Definition by_score_desc (a b : ScoredFile) : float := (score b - score a)%float.

(** How [sort] reads a comparator's answer: negative puts [a] first, positive
    puts [b] first, and zero or NaN leaves the two as they are. *)
Definition sort_compare {A} (comparefn : A -> A -> float) (a b : A) : comparison :=
  let v := comparefn a b in
  if (v <? 0)%float then Lt else if (0 <? v)%float then Gt else Eq.

(** [sort] is stable (ECMAScript 2019).  For a comparator that is consistent
    on the elements every conforming implementation returns the list that
    this insertion sort returns.  For a comparator that is not, the order is
    left to the implementation and the result is only known to be a
    permutation: what is stated below without the consistency of the
    comparator holds of every permutation. *)
Fixpoint sort_insert {A} (comparefn : A -> A -> float) (x : A) (l : list A) : list A :=
  match l with
  | [] => [x]
  | y :: l' =>
      match sort_compare comparefn x y with
      | Gt => y :: sort_insert comparefn x l'
      | _ => x :: l
      end
  end.

Fixpoint Array_sort {A} (comparefn : A -> A -> float) (l : list A) : list A :=
  match l with
  | [] => []
  | x :: l' => sort_insert comparefn x (Array_sort comparefn l')
  end.

(** The comparator orders [a] and [b] the way their scores compare: it puts
    the larger score first and ties on equal scores. *)
Definition orders_pair (a b : ScoredFile) : bool :=
  match (score a ?= score b)%float, sort_compare by_score_desc a b with
  | FEq, Eq | FLt, Gt | FGt, Lt => true
  | _, _ => false
  end.

(** [a] may come before [b] in a descending list. *)
Definition score_ge (a b : ScoredFile) : Prop := (score b <=? score a)%float = true.

(** The entries whose score equals [s]. *)
Definition tied_at (s : float) (l : list ScoredFile) : list ScoredFile :=
  List.filter (fun f => (score f =? s)%float) l.

(** *** POST *)

(** The destructured request body [{ action, files, query }].  [files] is
    [None] when it is not an array and [query] is [None] when it is not a
    string. *)
Record Request : Type := {
  action : string;
  files : option (list SourceFile);
  query : option string
}.

Inductive Body : Type :=
  | ErrorBody (error : string)
  | IndexBuilt (message : string) (fileCount : nat)
  | Results (results : list ScoredFile).

Record Response : Type := {
  status : nat;
  body : Body
}.

Definition json (b : Body) : Response := {| status := 200; body := b |}.
Definition json_status (b : Body) (s : nat) : Response := {| status := s; body := b |}.

Definition NotIndexed : Response :=
  json_status
    (ErrorBody "Embedding index not built yet. Please index the files first.") 400.

(** The body of the [files.map(async (file) => ...)] callback. *)
Definition index_file (encoder : Encoder) (service : Service) (file : SourceFile)
    : Outcome CodeIndexRecord :=
  match getEmbedding encoder service (content file) with
  | Returned e =>
      Returned {| rec_filePath := filePath file; rec_content := content file; embedding := e |}
  | Thrown m => Thrown m
  | Diverged => Diverged
  end.

Definition topK : nat := 3.

(** The handler, as a function of the module-level [codeIndex]: the response
    and the new value of [codeIndex].  An error thrown inside the [try] is
    answered with status 500; a call that does not come back gives no
    response. *)
Definition POST (encoder : Encoder) (service : Service) (request : Request)
    (codeIndex : list CodeIndexRecord) : option Response * list CodeIndexRecord :=
  if String.eqb (action request) "index" then
    match files request with
    | None =>
        (Some (json_status (ErrorBody "Files array is required for indexing.") 400),
         codeIndex)
    | Some files =>
        match promise_all (map (index_file encoder service) files) with
        | Returned newIndex =>
            (Some (json (IndexBuilt "Embedding index built successfully." (length newIndex))),
             newIndex)
        | Thrown m => (Some (json_status (ErrorBody m) 500), codeIndex)
        | Diverged => (None, codeIndex)
        end
    end
  else if String.eqb (action request) "query" then
    match query request with
    | None =>
        (Some (json_status (ErrorBody "A query string is required for searching.") 400),
         codeIndex)
    | Some query =>
        if (length codeIndex =? 0)%nat then (Some NotIndexed, codeIndex)
        else
          match getEmbedding encoder service query with
          | Returned queryEmbedding =>
              let scoredFiles := map (score_file queryEmbedding) codeIndex in
              let sorted := Array_sort by_score_desc scoredFiles in
              (Some (json (Results (slice sorted 0 topK))), codeIndex)
          | Thrown m => (Some (json_status (ErrorBody m) 500), codeIndex)
          | Diverged => (None, codeIndex)
          end
    end
  else
    (Some (json_status (ErrorBody "Invalid action. Use 'index' or 'query'.") 400),
     codeIndex).

(** The module variable starts as [[]]; requests are served one after the
    other. *)
Definition initial_codeIndex : list CodeIndexRecord := [].

Fixpoint serve (encoder : Encoder) (service : Service) (requests : list Request)
    (codeIndex : list CodeIndexRecord) : list (option Response) * list CodeIndexRecord :=
  match requests with
  | [] => ([], codeIndex)
  | r :: rs =>
      let '(resp, codeIndex') := POST encoder service r codeIndex in
      let '(resps, final) := serve encoder service rs codeIndex' in
      (resp :: resps, final)
  end.

(** An index request that was answered with the success message. *)
Definition index_succeeded (resp : option Response) : bool :=
  match resp with
  | Some {| status := _; body := IndexBuilt _ _ |} => true
  | _ => false
  end.

(** An index request that was answered with a positive file count. *)
Definition index_filled (resp : option Response) : bool :=
  match resp with
  | Some {| status := _; body := IndexBuilt _ (S _) |} => true
  | _ => false
  end.

Definition query_request (q : string) : Request :=
  {| action := "query"; files := None; query := Some q |}.

Definition index_request (fs : list SourceFile) : Request :=
  {| action := "index"; files := Some fs; query := None |}.

(** ** Observations used by the further properties *)

(** The time a call of [fetchEmbedding] has slept, in ms. *)
Definition total_wait (tr : FetchTrace) : Z := fold_right Z.add 0%Z (waits tr).

(** A decoder that decodes token by token, and undoes the encoder on the
    texts the encoder accepts. *)
Definition tokenwise (encoder : Encoder) : Prop :=
  (forall ts1 ts2, decode encoder (ts1 ++ ts2) = decode encoder ts1 +:+ decode encoder ts2) /\
  (forall text tokens, encode encoder text = inr tokens -> decode encoder tokens = text).

(** What stripping the sentinel means: [stripped] is [raw] without its
    occurrences of the sentinel, found from left to right. *)
Inductive without_sentinel : string -> string -> Prop :=
  | no_occurrence (text : string) :
      includes sentinel text = false -> without_sentinel text text
  | occurrence (before after stripped : string) :
      includes sentinel before = false ->
      without_sentinel after stripped ->
      without_sentinel (before +:+ sentinel +:+ after) (before +:+ stripped).

(** [chunks.join("")]. *)
Definition join_chunks (chunks : list string) : string :=
  fold_right String.append EmptyString chunks.

End Tokenize.

Module CodeFix.

(** ** What the sandbox calls return *)

(** [{ success, output }]. *)
Record ExecResult : Type := {
  success : bool;
  output : string
}.

(** What [execAsync] does: it resolves with the two captured streams when the
    process exits with code 0 and rejects otherwise (non-zero exit code,
    timeout, failure to start) with an error that carries [stderr] and a
    [message]. *)
Inductive ExecOutcome : Type :=
  | Exited (stdout stderr : string)
  | ExecFailed (stderr message : string).

(** The disk maps a path to the content of the file there. *)
Abbreviation Disk := (gmap string string).

(** What [fs.writeFile] does: it resolves when the file is written, and
    rejects otherwise.  A write that fails may have created or truncated the
    file already: [leftover] is what it leaves at the path, if it leaves
    anything that was not there. *)
Inductive WriteOutcome : Type :=
  | Written
  | WriteFailed (message : string) (leftover : option string).

(** [fs.unlink(filePath).catch(() => {})] is not awaited: the removal runs
    while the call returns.  When the caller resumes, it has succeeded, or
    it has failed (and the failure is swallowed by the empty handler), or it
    is still under way. *)
Inductive Removal : Type :=
  | Removed
  | RemovalFailed (message : string)
  | RemovalPending.

(** ** runPythonCode *)

(** [s.split(sep)] for a one-character separator. *)
Fixpoint split_on (sep : ascii) (s : string) : list string :=
  match s with
  | EmptyString => [EmptyString]
  | String c s' =>
      if Ascii.eqb c sep then EmptyString :: split_on sep s'
      else match split_on sep s' with
           | l :: ls => String c l :: ls
           | [] => [String c EmptyString]
           end
  end.

Definition indent_test_case (tc : string) : string :=
  String.concat newline
    (map (fun line => "        " +:+ line) (split_on (ascii_of_nat 10) tc)).

Definition quoted (s : string) : string :=
  String dquote (s +:+ String dquote EmptyString).

Definition assemble (code : string) (testCases : list string) : string :=
  let indentedTestCases := String.concat newline (map indent_test_case testCases) in
  String.concat newline
    [ EmptyString;
      code;
      EmptyString;
      "if __name__ == " +:+ quoted "__main__" +:+ ":";
      "    import sys";
      "    try:";
      indentedTestCases;
      "    except Exception as e:";
      "        print(" +:+ quoted "TEST_FAILED" +:+ ", e)";
      "        sys.exit(1)";
      "    else:";
      "        print(" +:+ quoted "TEST_PASSED" +:+ ")";
      "  " ].

(** The world of one call: whether [fs.writeFile] succeeds, how the Python
    process ends and what it does to the files meanwhile (it runs generated
    code, which can write and remove what it likes, its own script
    included), and how far the removal has got when the caller resumes. *)
Record RunWorld : Type := {
  write : WriteOutcome;
  python : ExecOutcome;
  python_files : Disk -> Disk;
  removal : Removal
}.


(** What the caller has when it resumes: the result, the disk, and the
    removals that are still under way. *)
Record RunReturn : Type := {
  result : ExecResult;
  disk : Disk;
  unlinking : list string
}.

(** [filePath] is [path.join(os.tmpdir(), `fix_${Date.now()}.py`)], a value
    of the clock and of the host. *)
Definition runPythonCode (world : RunWorld) (filePath : string)
    (code : string) (testCases : list string) (disk0 : Disk)
    : RunReturn :=
  let fileContent := assemble code testCases in
  let finally r d :=
    match removal world with
    | Removed => {| result := r; disk := delete filePath d; unlinking := [] |}
    | RemovalFailed _ => {| result := r; disk := d; unlinking := [] |}
    | RemovalPending => {| result := r; disk := d; unlinking := [filePath] |}
    end in
  match write world with
  | WriteFailed message leftover =>
      finally {| success := false; output := message |}
        match leftover with
        | Some partial => <[filePath := partial]> disk0
        | None => disk0
        end
  | Written =>
      let disk1 := python_files world (<[filePath := fileContent]> disk0) in
      match python world with
      | Exited stdout stderr =>
          if includes "TEST_PASSED" stdout
          then finally {| success := true; output := stdout |} disk1
          else finally {| success := false; output := str_or stdout stderr |} disk1
      | ExecFailed stderr message =>
          finally {| success := false; output := str_or stderr message |} disk1
      end
  end.

(** ** downloadDependency *)

(** [strip p s] is what follows [p] in [s] when [s] starts with [p]. *)
Fixpoint strip (p s : string) : option string :=
  match p with
  | EmptyString => Some s
  | String c p' =>
      match s with
      | String d s' => if Ascii.eqb c d then strip p' s' else None
      | EmptyString => None
      end
  end.

(** The UTF-8 encoding of a code point of the basic multilingual plane. *)
Definition utf8 (cp : N) : string :=
  let byte n := String (ascii_of_N n) EmptyString in
  if (cp <? 0x80)%N then byte cp
  else if (cp <? 0x800)%N then
    byte (0xC0 + cp / 0x40)%N +:+ byte (0x80 + cp mod 0x40)%N
  else
    byte (0xE0 + cp / 0x1000)%N +:+ byte (0x80 + (cp / 0x40) mod 0x40)%N
      +:+ byte (0x80 + cp mod 0x40)%N.

(** The code points that [String.prototype.trim] removes: the white space
    of ECMAScript (tab, vertical tab, form feed, the byte order mark and the
    space separators of Unicode) and its line terminators. *)
Definition WhiteSpace : list N :=
  [ 0x0009; 0x000B; 0x000C; 0xFEFF;
    0x0020; 0x00A0; 0x1680; 0x2000; 0x2001; 0x2002; 0x2003; 0x2004; 0x2005;
    0x2006; 0x2007; 0x2008; 0x2009; 0x200A; 0x202F; 0x205F; 0x3000 ]%N.
Definition LineTerminator : list N := [ 0x000A; 0x000D; 0x2028; 0x2029 ]%N.

Definition white_space : list string := map utf8 (WhiteSpace ++ LineTerminator).

(** What follows the white space character at the head of [s], when there
    is one. *)
Fixpoint skip_space (ws : list string) (s : string) : option string :=
  match ws with
  | [] => None
  | w :: ws' =>
      match strip w s with
      | Some rest => Some rest
      | None => skip_space ws' s
      end
  end.

(** [!s.trim()]: the string is made of white space only.  Every character
    skipped takes at least one byte, so the length of the string bounds the
    number of steps. *)
Fixpoint blank_loop (fuel : nat) (s : string) : bool :=
  match s with
  | EmptyString => true
  | String _ _ =>
      match fuel with
      | O => false
      | S fuel' =>
          match skip_space white_space s with
          | Some rest => blank_loop fuel' rest
          | None => false
          end
      end
  end.

Definition blank (s : string) : bool := blank_loop (String.length s) s.

Definition downloadDependency (pip : ExecOutcome) : ExecResult :=
  match pip with
  | Exited stdout stderr =>
      if negb (blank stderr) then {| success := false; output := stderr |}
      else {| success := true; output := stdout |}
  | ExecFailed stderr message =>
      {| success := false; output := str_or stderr message |}
  end.

(** ** The missing-dependency diagnostic *)

(** The regular expression of the source: the literal
    [ModuleNotFoundError: No module named ], a single or double quote, a
    group of one or more characters that are not quotes, and a quote. *)
Definition is_quote (c : ascii) : bool :=
  Ascii.eqb c squote || Ascii.eqb c dquote.

Definition diagnostic_prefix : string := "ModuleNotFoundError: No module named ".

(** The longest run of characters that are not quotes, and what follows. *)
Fixpoint span_name (s : string) : string * string :=
  match s with
  | EmptyString => (EmptyString, EmptyString)
  | String c s' =>
      if is_quote c then (EmptyString, s)
      else let '(name, rest) := span_name s' in (String c name, rest)
  end.

(** A match that starts at the head of [s]: the prefix, a quote, a non-empty
    run without quotes, a quote.  The run is greedy, and a shorter run would
    be followed by a character that is not a quote, so the group is the
    whole run. *)
Definition match_here (s : string) : option string :=
  match strip diagnostic_prefix s with
  | Some (String q after) =>
      if is_quote q then
        match span_name after with
        | (String c name, String _ _) => Some (String c name)
        | _ => None
        end
      else None
  | _ => None
  end.

(** [result.output.match(...)]: the leftmost match; the value is the capture
    group [missingDepMatch[1]]. *)
Fixpoint missingDepMatch (s : string) : option string :=
  match match_here s with
  | Some dep => Some dep
  | None =>
      match s with
      | EmptyString => None
      | String _ s' => missingDepMatch s'
      end
  end.

(** ** The conversation *)

Inductive Role : Type := user | assistant | tool.

Definition Role_eqb (a b : Role) : bool :=
  match a, b with
  | user, user | assistant, assistant | tool, tool => true
  | _, _ => false
  end.

(** The content of a message: a text, or the [JSON.stringify] of a sandbox
    result or of an [{ error }] object. *)
Inductive Content : Type :=
  | Text (text : string)
  | JsonResult (r : ExecResult)
  | JsonError (error : string).

(** A chat message.  [tool_call_id] is set on tool messages; [tool_calls]
    lists the ids of the action requests that an assistant message carries. *)
Record Message : Type := {
  role : Role;
  content : Content;
  tool_call_id : option string;
  tool_calls : list string
}.

Definition user_message (text : string) : Message :=
  {| role := user; content := Text text; tool_call_id := None; tool_calls := [] |}.

Definition tool_message (c : Content) (toolCallId : string) : Message :=
  {| role := tool; content := c; tool_call_id := Some toolCallId; tool_calls := [] |}.

(** ** What the reasoning service answers *)

(** [JSON.parse(toolCall.function.arguments)]: it throws, or gives [null]
    (reading a property of it throws a TypeError), or gives an object. *)
Inductive Parsed (A : Type) : Type :=
  | SyntaxError
  | Null
  | Object (a : A).
Arguments SyntaxError {A}.
Arguments Null {A}.
Arguments Object {A} a.

(** The properties the loop reads from the parsed arguments.  When
    [testCases] is not an array, [testCases.map] throws a TypeError; [inl]
    holds its message. *)
Record Params : Type := {
  code : string;
  testCases : string + list string;
  dependency : string
}.

(** [message.tool_calls[0]].  [id] is the empty string when the call carries
    no id (a falsy [toolCall.id]); [arguments] is what parsing the argument
    string gives. *)
Record ToolCall : Type := {
  id : string;
  name : string;
  arguments : Parsed Params
}.

Inductive Completion : Type :=
  | ApiThrows (message : string)
  | ApiMessage (tool_call : option ToolCall).

(** What happens outside the loop during one iteration: the answer of
    [openai.chat.completions.create], and what [runPythonCode] and
    [downloadDependency] return if the iteration calls them (it calls each
    at most once). *)
Record Iteration : Type := {
  completion : Completion;
  sandbox : ExecResult;
  install : ExecResult
}.

(** ** The progress stream and the calls *)

(** One constructor per [yield] of the generator. *)
Inductive Event : Type :=
  | AttemptStarted (n : nat)
  | DependencyArgumentsUnparsed
  | Downloading (dep : string)
  | Installed (dep : string)
  | InstallFailed (dep out : string)
  | RunArgumentsUnparsed
  | RunningTests
  | TestsPassed (n : nat)
  | MissingDependency (dep : string)
  | InstallationOutput (out : string)
  | TestsFailed (n : nat) (out : string)
  | UnknownToolCall
  | NoFunctionCall
  | GenerationError (message : string)
  | FailedAfter (n : nat)
  | FinalFix (code tests : string).

(** The calls that leave the process, in the order they are made. *)
Inductive Call : Type :=
  | CreateCompletion (reasoning_effort : string) (messages : list Message)
  | RunTests (code : string) (testCases : list string)
  | Install (dep : string).

Definition is_completion (c : Call) : bool :=
  match c with CreateCompletion _ _ => true | _ => false end.

(** ** streamFixProcess *)

Definition maxAttempts : nat := 5.

Record State : Type := {
  attempt : nat;
  successfulCode : option string;
  successfulTestCases : option (list string);
  chatMessages : list Message;
  yielded : list Event;
  calls : list Call
}.

Definition initial (prompt : string) : State :=
  {| attempt := 0;
     successfulCode := None;
     successfulTestCases := None;
     chatMessages := [user_message prompt];
     yielded := [];
     calls := [] |}.

Definition yield (e : Event) (st : State) : State :=
  {| attempt := attempt st;
     successfulCode := successfulCode st;
     successfulTestCases := successfulTestCases st;
     chatMessages := chatMessages st;
     yielded := yielded st ++ [e];
     calls := calls st |}.

Definition push (m : Message) (st : State) : State :=
  {| attempt := attempt st;
     successfulCode := successfulCode st;
     successfulTestCases := successfulTestCases st;
     chatMessages := chatMessages st ++ [m];
     yielded := yielded st;
     calls := calls st |}.

Definition call (c : Call) (st : State) : State :=
  {| attempt := attempt st;
     successfulCode := successfulCode st;
     successfulTestCases := successfulTestCases st;
     chatMessages := chatMessages st;
     yielded := yielded st;
     calls := calls st ++ [c] |}.

(** [attempt++]. *)
Definition increment (st : State) : State :=
  {| attempt := S (attempt st);
     successfulCode := successfulCode st;
     successfulTestCases := successfulTestCases st;
     chatMessages := chatMessages st;
     yielded := yielded st;
     calls := calls st |}.

Definition succeed (code : string) (tests : list string) (st : State) : State :=
  {| attempt := attempt st;
     successfulCode := Some code;
     successfulTestCases := Some tests;
     chatMessages := chatMessages st;
     yielded := yielded st;
     calls := calls st |}.

(** [if (toolCallId) chatMessages.push({ role: "tool", ... })]. *)
Definition push_tool (c : Content) (toolCallId : string) (st : State) : State :=
  match toolCallId with
  | EmptyString => st
  | _ => push (tool_message c toolCallId) st
  end.

(** Truthiness of [successfulCode]: [null] and the empty string are falsy. *)
Definition truthy (c : option string) : bool :=
  match c with
  | Some (String _ _) => true
  | _ => false
  end.

Inductive Control : Type := Continue | Break.

(** The outer [catch]. *)
Definition caught (message : string) (st : State) : Control * State :=
  (Continue, increment (yield (GenerationError message) st)).

(** The messages of the TypeErrors raised on [null], as V8 words them. *)
Definition null_property (prop : string) : string :=
  "Cannot read properties of null (reading '" +:+ prop +:+ "')".

Definition not_destructurable : string :=
  "Cannot destructure property 'code' of 'object null' as it is null.".

(** The branch of a [download_dependency] request. *)
Definition download_branch (w : Iteration) (toolCall : ToolCall) (st : State)
    : Control * State :=
  let toolCallId := id toolCall in
  match arguments toolCall with
  | SyntaxError =>
      let st := push_tool
        (JsonError "Error parsing function arguments for download_dependency")
        toolCallId st in
      let st := yield DependencyArgumentsUnparsed st in
      let st := increment st in
      let st := push (user_message
        "Function call arguments for download_dependency could not be parsed. Please ensure proper JSON formatting.") st in
      (Continue, st)
  | Null => caught (null_property "dependency") st
  | Object params =>
      let dep := dependency params in
      let st := yield (Downloading dep) st in
      let st := call (Install dep) st in
      let depResult := install w in
      let st := push_tool (JsonResult depResult) toolCallId st in
      if success depResult then
        let st := yield (Installed dep) st in
        let st := push (user_message
          ("Successfully installed dependency " +:+ dep +:+
           ". Please regenerate the code fix if necessary.")) st in
        (Continue, st)
      else
        let st := yield (InstallFailed dep (output depResult)) st in
        let st := push (user_message
          ("Failed to install dependency " +:+ dep +:+ ": " +:+ output depResult +:+
           ". Please correct the installation and try again.")) st in
        let st := increment st in
        (Continue, st)
  end.

(** What follows a failed test run. *)
Definition after_failure (prompt : string) (w : Iteration) (code : string)
    (result : ExecResult) (st : State) : Control * State :=
  match missingDepMatch (output result) with
  | Some missingDependency =>
      let st := yield (MissingDependency missingDependency) st in
      let st := call (Install missingDependency) st in
      let depResult := install w in
      let st := yield (InstallationOutput (output depResult)) st in
      if success depResult then
        let st := push (user_message
          ("Dependency " +:+ missingDependency +:+
           " installed successfully. Please retry generating the code fix.")) st in
        (Continue, st)
      else
        let st := push (user_message
          ("Failed to install dependency " +:+ missingDependency +:+ ": " +:+
           output depResult +:+ ". Please check the installation.")) st in
        let st := increment st in
        (Continue, st)
  | None =>
      let st := yield (TestsFailed (attempt st + 1) (output result)) st in
      let st := push (user_message
        ("The tests failed with the error: " +:+ output result +:+ ". The code: " +:+
         code +:+ ". The original issue: " +:+ prompt +:+
         ". Please improve the code fix accordingly.")) st in
      let st := increment st in
      (Continue, st)
  end.

(** The branch of a [run_python_code] request. *)
Definition run_branch (prompt : string) (w : Iteration) (toolCall : ToolCall)
    (st : State) : Control * State :=
  let toolCallId := id toolCall in
  match arguments toolCall with
  | SyntaxError =>
      let st := push_tool
        (JsonError "Error parsing function arguments for run_python_code")
        toolCallId st in
      let st := yield RunArgumentsUnparsed st in
      let st := increment st in
      let st := push (user_message
        "Function call arguments for run_python_code could not be parsed. Please ensure proper JSON formatting.") st in
      (Continue, st)
  | Null => caught not_destructurable (yield RunningTests st)
  | Object params =>
      let st := yield RunningTests st in
      match testCases params with
      | inl message => caught message st
      | inr tests =>
          let st := call (RunTests (code params) tests) st in
          let result := sandbox w in
          let st := push_tool (JsonResult result) toolCallId st in
          if success result then
            let st := succeed (code params) tests st in
            let st := yield (TestsPassed (attempt st + 1)) st in
            (Break, st)
          else after_failure prompt w (code params) result st
      end
  end.

(** One execution of the body of the [while] loop. *)
Definition loop_body (prompt reasoningEffort : string) (w : Iteration) (st : State)
    : Control * State :=
  let st := yield (AttemptStarted (attempt st + 1)) st in
  let conversation :=
    List.filter (fun msg => negb (Role_eqb (role msg) tool)) (chatMessages st) in
  let st := call (CreateCompletion (str_or reasoningEffort "medium") conversation) st in
  match completion w with
  | ApiThrows message => caught message st
  | ApiMessage None =>
      (Continue, increment (yield NoFunctionCall st))
  | ApiMessage (Some toolCall) =>
      if String.eqb (name toolCall) "download_dependency" then
        download_branch w toolCall st
      else if String.eqb (name toolCall) "run_python_code" then
        run_branch prompt w toolCall st
      else
        (Continue, increment (yield UnknownToolCall st))
  end.

(** [attempt < maxAttempts && !successfulCode]. *)
Definition guard (st : State) : bool :=
  (attempt st <? maxAttempts) && negb (truthy (successfulCode st)).

(** Where a run of the generator stands once the world has said all it had
    to say: it has finished, leaving some iterations of the world unused, or
    it is waiting at the head of the loop for the service to answer. *)
Inductive Run : Type :=
  | Finished (st : State) (unused : list Iteration)
  | Waiting (st : State).

Fixpoint loop (prompt reasoningEffort : string) (world : list Iteration)
    (st : State) : Run :=
  if guard st then
    match world with
    | [] => Waiting st
    | w :: world' =>
        match loop_body prompt reasoningEffort w st with
        | (Break, st') => Finished st' world'
        | (Continue, st') => loop prompt reasoningEffort world' st'
        end
    end
  else Finished st world.

(** The last [yield]. *)
Definition conclude (st : State) : State :=
  if negb (truthy (successfulCode st)) then yield (FailedAfter maxAttempts) st
  else
    yield (FinalFix (default EmptyString (successfulCode st))
             (String.concat newline (default [] (successfulTestCases st)))) st.

Definition conclude_run (r : Run) : Run :=
  match r with
  | Finished st unused => Finished (conclude st) unused
  | Waiting st => Waiting st
  end.

Definition streamFixProcess_from (prompt reasoningEffort : string)
    (world : list Iteration) (st : State) : Run :=
  conclude_run (loop prompt reasoningEffort world st).

Definition streamFixProcess (prompt reasoningEffort : string)
    (world : list Iteration) : Run :=
  streamFixProcess_from prompt reasoningEffort world (initial prompt).

Definition state_of (r : Run) : State :=
  match r with Finished st _ => st | Waiting st => st end.

(** ** Outcomes and observations *)

Inductive RepairOutcome : Type :=
  | Success (code : string) (tests : list string)
  | Failure.

(** The terminal outcome is read off the last event. *)
Definition outcome_of (st : State) : option RepairOutcome :=
  match last (yielded st) with
  | Some (FailedAfter _) => Some Failure
  | Some (FinalFix _ _) =>
      Some (Success (default EmptyString (successfulCode st))
                    (default [] (successfulTestCases st)))
  | _ => None
  end.

Definition completions (st : State) : nat :=
  length (List.filter is_completion (calls st)).

Definition is_tool (m : Message) : bool := Role_eqb (role m) tool.
Definition is_assistant (m : Message) : bool := Role_eqb (role m) assistant.

(** The result turns for the request [toolCallId] among [msgs]. *)
Definition results_for (toolCallId : string) (msgs : list Message) : list Message :=
  List.filter
    (fun m => is_tool m &&
              match tool_call_id m with
              | Some i => String.eqb i toolCallId
              | None => false
              end)
    msgs.

(** Every tool turn carries the id of an action request of an assistant turn
    that comes before it in the list.  [seen] collects the ids requested so
    far. *)
Fixpoint answers_requests (seen : list string) (msgs : list Message) : bool :=
  match msgs with
  | [] => true
  | m :: ms =>
      match role m with
      | assistant => answers_requests (tool_calls m ++ seen) ms
      | user => answers_requests seen ms
      | tool =>
          match tool_call_id m with
          | Some i => existsb (String.eqb i) seen && answers_requests seen ms
          | None => false
          end
      end
  end.

(** What [push_tool] appends. *)
Definition result_turn (c : Content) (toolCallId : string) : list Message :=
  match toolCallId with
  | EmptyString => []
  | _ => [tool_message c toolCallId]
  end.

(** The requests for which the loop reaches a [push] of a tool turn: the
    request carries an id, names one of the two tools, and its arguments
    either fail to parse or parse to a value the call goes through with. *)
Definition gets_result (toolCall : ToolCall) : bool :=
  match id toolCall with
  | EmptyString => false
  | _ =>
      if String.eqb (name toolCall) "download_dependency" then
        match arguments toolCall with
        | Null => false
        | _ => true
        end
      else if String.eqb (name toolCall) "run_python_code" then
        match arguments toolCall with
        | SyntaxError => true
        | Null => false
        | Object params =>
            match testCases params with inr _ => true | inl _ => false end
        end
      else false
  end.

(** A request to the service that holds user turns only. *)
Definition users_only (c : Call) : Prop :=
  match c with
  | CreateCompletion _ messages => Forall (fun m => role m = user) messages
  | _ => True
  end.

(** The request that an iteration sends to the service: the conversation
    without its tool turns. *)
Definition sent (reasoningEffort : string) (st : State) : Call :=
  CreateCompletion (str_or reasoningEffort "medium")
    (List.filter (fun msg => negb (Role_eqb (role msg) tool)) (chatMessages st)).

(** Where the loop stands: while it waits the counter is below the ceiling
    and no fix has been recorded; when it has finished at the ceiling no fix
    has been recorded either. *)
Definition in_budget (r : Run) : Prop :=
  match r with
  | Waiting st => attempt st < maxAttempts /\ successfulCode st = None
  | Finished st _ =>
      attempt st <= maxAttempts /\ (attempt st = maxAttempts -> successfulCode st = None)
  end.

(** No state of a run holds an assistant turn, and every request that was
    sent held user turns only. *)
Definition threaded (st : State) : Prop :=
  Forall (fun m => is_assistant m = false) (chatMessages st) /\
  Forall users_only (calls st).

(** A failed test run whose output carries no missing-dependency diagnostic. *)
Definition plain_test_failure (w : Iteration) : bool :=
  match completion w with
  | ApiMessage (Some toolCall) =>
      String.eqb (name toolCall) "run_python_code" &&
      match arguments toolCall with
      | Object params =>
          match testCases params with
          | inr _ =>
              negb (success (sandbox w)) &&
              match missingDepMatch (output (sandbox w)) with
              | None => true
              | Some _ => false
              end
          | inl _ => false
          end
      | _ => false
      end
  | _ => false
  end.

(** ** Observations used by the further properties *)

(** [s.includes(c)] for a character. *)
Fixpoint has_char (c : ascii) (s : string) : bool :=
  match s with
  | EmptyString => false
  | String d s' => Ascii.eqb d c || has_char c s'
  end.

(** The characters of [ws], one after the other. *)
Definition spelled (ws : list string) : string :=
  fold_right String.append EmptyString ws.

(** A printable ASCII character other than the space. *)
Definition visible (c : ascii) : bool :=
  let n := nat_of_ascii c in (33 <=? n) && (n <=? 126).

(** No character of [s] is a quote. *)
Fixpoint quote_free (s : string) : bool :=
  match s with
  | EmptyString => true
  | String c s' => negb (is_quote c) && quote_free s'
  end.

Definition indentation : string := "        ".

(** The iteration ends the loop: the service asks for a test run, with
    arguments the call goes through with, and the run succeeds. *)
Definition passes (w : Iteration) : bool :=
  match completion w with
  | ApiMessage (Some toolCall) =>
      negb (String.eqb (name toolCall) "download_dependency") &&
      String.eqb (name toolCall) "run_python_code" &&
      match arguments toolCall with
      | Object params =>
          match testCases params with
          | inr _ => success (sandbox w)
          | inl _ => false
          end
      | _ => false
      end
  | _ => false
  end.

(** The iteration goes back to the head of the loop without [attempt++]: an
    installation, asked for by the service or started after a missing
    module, that succeeds. *)
Definition recovers (w : Iteration) : bool :=
  match completion w with
  | ApiMessage (Some toolCall) =>
      if String.eqb (name toolCall) "download_dependency" then
        match arguments toolCall with
        | Object _ => success (install w)
        | _ => false
        end
      else if String.eqb (name toolCall) "run_python_code" then
        match arguments toolCall with
        | Object params =>
            match testCases params with
            | inr _ =>
                negb (success (sandbox w)) &&
                match missingDepMatch (output (sandbox w)) with
                | Some _ => success (install w)
                | None => false
                end
            | inl _ => false
            end
        | _ => false
        end
      else false
  | _ => false
  end.

(** The number of [AttemptStarted] events. *)
Definition attempts_started (st : State) : nat :=
  length (List.filter (fun e => match e with AttemptStarted _ => true | _ => false end)
            (yielded st)).

(** A request to the service that opens with the prompt and carries the
    effort the generator was given, [medium] when it was given none. *)
Definition opens_with (prompt reasoningEffort : string) (c : Call) : Prop :=
  match c with
  | CreateCompletion effort messages =>
      effort = str_or reasoningEffort "medium" /\
      exists more, messages = user_message prompt :: more
  | _ => True
  end.

(** The conversation, the calls and the progress stream of [st'] extend
    those of [st]. *)
Definition grows (st st' : State) : Prop :=
  chatMessages st `prefix_of` chatMessages st' /\
  calls st `prefix_of` calls st' /\
  yielded st `prefix_of` yielded st'.

(** The conversation opens with the prompt, and so did every request. *)
Definition opened (prompt reasoningEffort : string) (st : State) : Prop :=
  (exists turns, chatMessages st = user_message prompt :: turns) /\
  Forall (opens_with prompt reasoningEffort) (calls st).

(** The iteration ends with [attempt++]. *)
Definition costs (w : Iteration) : bool := negb (passes w || recovers w).

(** The answers of the world that a run has not looked at. *)
Definition unused_of (r : Run) : list Iteration :=
  match r with
  | Finished _ unused => unused
  | Waiting _ => []
  end.

End CodeFix.

Module FixRoute.

Import CodeFix.

(** ** The handler of the code-fix route *)

(** [`${x}`] in a template literal: a missing property reads as the text
    [undefined]. *)
Definition interpolate (x : option string) : string := default "undefined" x.

(** The destructured request body.  A property is [None] when the caller did
    not send it. *)
Record FixRequest : Type := {
  issueName : option string;
  issueDescription : option string;
  currentCode : option string;
  reasoningEffort : option string
}.

(** The body of the request that the handler sends to the tokenize route. *)
Definition tokenize_query (req : FixRequest) : Tokenize.Request :=
  {| Tokenize.action := "query";
     Tokenize.files := None;
     Tokenize.query :=
       Some (interpolate (issueName req) +:+ newline +:+ interpolate (issueDescription req)) |}.

(** What [await fetch(...)] gives the handler: a rejection, or a response
    with its status, its status text and, when the JSON body has one, its
    [results] property. *)
Inductive Fetched : Type :=
  | FetchRejected (message : string)
  | Answered (status : nat) (statusText : string)
      (results : option (list Tokenize.ScoredFile)).

(** The response of the tokenize handler as the fetch sees it.  [reason]
    gives the status text that the server sends with a status. *)
Definition answer_of (reason : nat -> string) (r : Tokenize.Response) : Fetched :=
  Answered (Tokenize.status r) (reason (Tokenize.status r))
    match Tokenize.body r with
    | Tokenize.Results l => Some l
    | _ => None
    end.

(** [response.ok]. *)
Definition ok (status : nat) : bool := (200 <=? status) && (status <=? 299).

(** [relevantDocuments.map((doc) => doc.content).join("\n\n")]. *)
Definition additional_context (relevantDocuments : list Tokenize.ScoredFile) : string :=
  String.concat (newline +:+ newline) (map Tokenize.sf_content relevantDocuments).

Definition full_context (currentCode : option string) (additionalContext : string) : string :=
  interpolate currentCode +:+ newline +:+ newline +:+ "Relevant Code Excerpts:" +:+ newline +:+
  additionalContext.

(** The lines of the prompt template. *)
Definition build_prompt (issueName issueDescription : option string)
    (fullContext : string) : string :=
  String.concat newline
    [ EmptyString;
      "You're a senior software engineer. You're tasked with generating a Python code fix for the following issue.";
      "Issue Title: " +:+ interpolate issueName;
      "Issue Description: " +:+ interpolate issueDescription;
      EmptyString;
      "The current code context is provided below, along with relevant code excerpts:";
      fullContext;
      EmptyString;
      "Generate a Python code fix that resolves the issue. Additionally, generate a set of Python test cases to validate that the fix works correctly. Your response should be a function call to " +:+
        quoted "run_python_code" +:+ " with the parameters " +:+ quoted "code" +:+ " and " +:+
        quoted "testCases" +:+ ". ";
      "- " +:+ quoted "code" +:+ " should contain only the Python code fix.";
      "- " +:+ quoted "testCases" +:+
        " should be an array of Python code strings, each representing a test case.";
      "If the tests fail, you should try again based on the error message, up to a maximum of 5 attempts.";
      "Do not include any additional text.";
      "    " ].

(** The prompt for a request and the documents that the query returned. *)
Definition prompt_for (req : FixRequest) (relevantDocuments : list Tokenize.ScoredFile)
    : string :=
  build_prompt (issueName req) (issueDescription req)
    (full_context (currentCode req) (additional_context relevantDocuments)).

(** [reasoningEffort || "medium"]. *)
Definition effort_of (req : FixRequest) : string :=
  str_or (default EmptyString (reasoningEffort req)) "medium".

(** The response of the handler: the stream of a run of the generator, or a
    JSON error. *)
Inductive FixResponse : Type :=
  | Streamed (run : Run)
  | Refused (status : nat) (error : string).

(** [fetched] is what the fetch of the tokenize route gives and [world] what
    the outside answers to the generator. *)
Definition POST (fetched : Fetched) (req : FixRequest) (world : list Iteration)
    : FixResponse :=
  match fetched with
  | FetchRejected message => Refused 500 message
  | Answered status statusText results =>
      if negb (ok status) then Refused 500 ("Tokenize endpoint error: " +:+ statusText)
      else
        let relevantDocuments := default [] results in
        Streamed (streamFixProcess (prompt_for req relevantDocuments) (effort_of req) world)
  end.

End FixRoute.

Module AgentBox.

Import CodeFix.

(** ** The progress stream as text, and the status shown to the user *)

(** A number in a template literal. *)
Definition decimal (n : nat) : string := NilEmpty.string_of_uint (Nat.to_uint n).

Definition paragraph : string := newline +:+ newline.

(** The text of each [yield] of the generator. *)
Definition render (e : Event) : string :=
  match e with
  | AttemptStarted n =>
      "Attempt " +:+ decimal n +:+
      ": Generating Python code fix and test cases..." +:+ paragraph
  | DependencyArgumentsUnparsed =>
      "Error parsing download_dependency function call arguments. Please retry." +:+ paragraph
  | Downloading dep => "Downloading dependency " +:+ dep +:+ "..." +:+ paragraph
  | Installed dep => "Dependency " +:+ dep +:+ " installed successfully." +:+ paragraph
  | InstallFailed dep out =>
      "Failed to install dependency " +:+ dep +:+ ": " +:+ out +:+ paragraph
  | RunArgumentsUnparsed =>
      "Error parsing function call arguments for run_python_code. Please retry." +:+ paragraph
  | RunningTests => "Generated code fix. Running test cases..." +:+ paragraph
  | TestsPassed n =>
      "Test cases passed! Fix successful on attempt " +:+ decimal n +:+ "." +:+ paragraph
  | MissingDependency dep =>
      "Missing dependency detected: " +:+ dep +:+ ". Attempting to install..." +:+ paragraph
  | InstallationOutput out => "Dependency installation output: " +:+ out +:+ paragraph
  | TestsFailed n out =>
      "Test cases failed on attempt " +:+ decimal n +:+ ": " +:+ out +:+ paragraph
  | UnknownToolCall => "Unknown tool call received. Retrying..." +:+ paragraph
  | NoFunctionCall => "No function call received. Retrying..." +:+ paragraph
  | GenerationError message => "Error during generation: " +:+ message +:+ paragraph
  | FailedAfter n =>
      "Failed to generate a working fix after " +:+ decimal n +:+ " attempts." +:+ paragraph
  | FinalFix code tests =>
      "Final working fix:" +:+ paragraph +:+ "Code Fix:" +:+ newline +:+ code +:+ paragraph +:+
      "Test Cases:" +:+ newline +:+ tests +:+ paragraph
  end.

(** The status shown after a chunk of the stream has been read: the first
    keyword found in the chunk decides, and a chunk without keyword leaves
    the status as it was. *)
Definition status_after (chunk status : string) : string :=
  if includes "Generated code fix" chunk then "Code generated. Running test cases..."
  else if includes "Test cases passed!" chunk then "Test cases passed! Fix successful."
  else if includes "Test cases failed" chunk then "Test cases failed. Retrying..."
  else if includes "Final working fix" chunk then "Final fix generated."
  else status.

(** The characters of a rendered number. *)
Definition is_digit (c : ascii) : bool :=
  let n := nat_of_ascii c in (48 <=? n) && (n <=? 57).

End AgentBox.

(** ** Sample inputs *)

Module Samples.

Import Tokenize CodeFix.

(** The special tokens of the encoding of text-embedding-ada-002. *)
Definition special_tokens : list string :=
  [ "<|endoftext|>"; "<|fim_prefix|>"; "<|fim_middle|>"; "<|fim_suffix|>";
    "<|endofprompt|>" ].

(** The leftmost special token in a text. *)
Fixpoint special_match (text : string) : option string :=
  match List.find (fun t => String.prefix t text) special_tokens with
  | Some t => Some t
  | None =>
      match text with
      | EmptyString => None
      | String _ text' => special_match text'
      end
  end.

(** A tokenizer with one token per character, which rejects a special token
    in the text the way js-tiktoken does. *)
Definition char_encoder : Encoder :=
  {| encode := fun s =>
       match special_match s with
       | Some t => inl ("The text contains a special token that is not allowed: " +:+ t)
       | None => inr (map nat_of_ascii (list_ascii_of_string s))
       end;
     decode := fun ts => string_of_list_ascii (map ascii_of_nat ts) |}.

(** A service that answers every request with 429. *)
Definition always_429 : nat -> FetchOutcome :=
  fun _ => HttpResponse 429 "Too Many Requests" (inl "unused").

(** A service that fails twice, in two different ways, and then answers. *)
Definition flaky : nat -> FetchOutcome :=
  fun k =>
    match k with
    | 0 => HttpResponse 500 "Internal Server Error" (inl "unused")
    | 1 => NetworkError "fetch failed"
    | _ => HttpResponse 200 "OK" (inr [1; 0]%float)
    end.

(** A service that answers at once, with a vector that depends on the first
    character of the text only. *)
Definition toy_embedding (text : string) : list float :=
  match text with
  | String "a" _ => [1; 0]%float
  | String "b" _ => [0; 1]%float
  | _ => [1; 1]%float
  end.

Definition toy_service : Service :=
  fun text _ => HttpResponse 200 "OK" (inr (toy_embedding text)).

Definition record (path : string) (e : list float) : CodeIndexRecord :=
  {| rec_filePath := path; rec_content := "pass"; embedding := e |}.

(** Four records; the first and the third score the same against (1, 0). *)
Definition toy_index : list CodeIndexRecord :=
  [ record "one.py" [1; 0]%float;
    record "two.py" [0; 1]%float;
    record "three.py" [2; 0]%float;
    record "four.py" [3; 4]%float ].


(** A run that is killed by the timeout. *)
Definition timeout_world : RunWorld :=
  {| write := Written;
     python := ExecFailed EmptyString "Command failed: python /tmp/fix_1.py";
     python_files := fun d => d;
     removal := RemovalFailed "EBUSY: resource busy or locked, unlink '/tmp/fix_1.py'" |}.

Definition ok_result : ExecResult := {| success := true; output := "ok" |}.
Definition failed_result (out : string) : ExecResult :=
  {| success := false; output := out |}.

Definition request (i n : string) (args : Parsed Params) : Completion :=
  ApiMessage (Some {| id := i; name := n; arguments := args |}).

Definition fix_params : Params :=
  {| code := "x = 1"; testCases := inr ["assert x == 2"]; dependency := EmptyString |}.

(** The tests fail for a reason that is not a missing module. *)
Definition failing_tests : Iteration :=
  {| completion := request "call_1" "run_python_code" (Object fix_params);
     sandbox := failed_result "TEST_FAILED";
     install := ok_result |}.

(** The tests fail because the module foo is missing; the installation that
    follows succeeds or fails. *)
Definition missing_foo (installed : bool) : Iteration :=
  {| completion := request "call_2" "run_python_code" (Object fix_params);
     sandbox := failed_result "ModuleNotFoundError: No module named 'foo'";
     install := if installed then ok_result else failed_result "no network" |}.

(** The service asks for a dependency and the installation succeeds. *)
Definition asks_install : Iteration :=
  {| completion := request "call_3" "download_dependency"
       (Object {| code := EmptyString; testCases := inl "Cannot read properties of undefined (reading 'map')"; dependency := "requests" |});
     sandbox := ok_result;
     install := ok_result |}.

(** The service asks for a tool that does not exist. *)
Definition asks_unknown : Iteration :=
  {| completion := request "call_4" "search_web" SyntaxError;
     sandbox := ok_result;
     install := ok_result |}.

End Samples.

(* ===================================================================== *)
(** * Part II: properties                                                  *)
(* ===================================================================== *)

(** ** Strings *)

Section Strings.

Lemma append_cons (c : ascii) (s t : string) :
  String c s +:+ t = String c (s +:+ t).
Proof. reflexivity. Qed.

Lemma string_length_append (s1 s2 : string) :
  String.length (s1 +:+ s2) = String.length s1 + String.length s2.
Proof. induction s1 as [|c s1 IH]; simpl; [reflexivity|now rewrite IH]. Qed.

Lemma prefix_append (p s : string) : String.prefix p (p +:+ s) = true.
Proof.
  induction p as [|c p IH]; [now destruct s|].
  rewrite append_cons. simpl. destruct (ascii_dec c c); [exact IH|congruence].
Qed.

Lemma prefix_append_r (p s t : string) :
  String.prefix p s = true -> String.prefix p (s +:+ t) = true.
Proof.
  revert s. induction p as [|c p IH]; intros s.
  - intros _. now destruct (s +:+ t).
  - destruct s as [|d s]; [discriminate|].
    rewrite append_cons. simpl.
    destruct (ascii_dec c d); [apply IH|discriminate].
Qed.

Lemma includes_unfold (p s : string) :
  includes p s =
  if String.prefix p s then true
  else match s with
       | EmptyString => false
       | String _ s' => includes p s'
       end.
Proof. destruct s; reflexivity. Qed.

(** What starts with [p] is [p] followed by something. *)
Lemma prefix_split (p s : string) :
  String.prefix p s = true -> exists r, s = p +:+ r.
Proof.
  revert s. induction p as [|c p IH]; intros s.
  - intros _. now exists s.
  - destruct s as [|d s]; [discriminate|]. simpl.
    destruct (ascii_dec c d) as [<-|]; [|discriminate].
    intros H. destruct (IH s H) as [r ->]. now exists r.
Qed.

(** The leftmost occurrence of a pattern. *)
Lemma includes_leftmost (p s : string) :
  p <> EmptyString ->
  includes p s = true ->
  exists a b, s = a +:+ p +:+ b /\ includes p a = false.
Proof.
  intros Hne.
  assert (Hnil : includes p EmptyString = false) by (destruct p; [congruence|reflexivity]).
  induction s as [|c s IH]; [congruence|].
  rewrite includes_unfold.
  destruct (String.prefix p (String c s)) eqn:Hp.
  - intros _. destruct (prefix_split _ _ Hp) as [r Hr].
    exists EmptyString, r. split; [exact Hr|exact Hnil].
  - intros H. destruct (IH H) as (a & b & -> & Ha).
    exists (String c a), b. split; [reflexivity|].
    rewrite includes_unfold, Ha.
    destruct (String.prefix p (String c a)) eqn:Hpa; [|reflexivity].
    apply (prefix_append_r _ _ (p +:+ b)) in Hpa.
    rewrite append_cons in Hpa. congruence.
Qed.

Lemma strip_Some (p s r : string) : CodeFix.strip p s = Some r -> s = p +:+ r.
Proof.
  revert s. induction p as [|c p IH]; intros s; simpl.
  - now intros [= <-].
  - destruct s as [|d s]; [discriminate|].
    destruct (Ascii.eqb c d) eqn:Hc; [|discriminate].
    apply Ascii.eqb_eq in Hc. subst d. intros H.
    rewrite append_cons. f_equal. now apply IH.
Qed.

Lemma has_char_append (c : ascii) (s t : string) :
  CodeFix.has_char c (s +:+ t) = CodeFix.has_char c s || CodeFix.has_char c t.
Proof.
  induction s as [|d s IH]; [reflexivity|].
  rewrite append_cons. simpl. now rewrite IH, orb_assoc.
Qed.

End Strings.

(** ** The sentinel *)

Section SentinelFacts.

Import Tokenize.

Lemma remove_all_no_occurrence (pat s : string) :
  includes pat s = false -> remove_all pat 0 s = s.
Proof.
  induction s as [|c s IH]; [reflexivity|].
  cbn [includes remove_all].
  destruct (String.prefix pat (String c s)); [discriminate|].
  intros H. now rewrite IH.
Qed.

(** The sentinel does not overlap itself: an occurrence that starts before
    another one ends before it. *)
Lemma sentinel_no_overlap (t b : string) :
  t <> EmptyString ->
  String.prefix sentinel (t +:+ sentinel +:+ b) = true ->
  String.prefix sentinel t = true.
Proof.
  intros Hne. unfold sentinel.
  destruct t as [|c t]; [congruence|]. clear Hne.
  rewrite append_cons. cbn [String.prefix].
  destruct (ascii_dec _ c) as [<-|]; [|discriminate].
  do 12 (destruct t as [|c t];
         [discriminate|
          rewrite append_cons; cbn [String.prefix];
          destruct (ascii_dec _ c) as [<-|]; [|discriminate]]).
  intros _. now destruct t.
Qed.

Lemma remove_all_occurrence (a b : string) :
  includes sentinel a = false ->
  remove_all sentinel 0 (a +:+ sentinel +:+ b) = a +:+ remove_all sentinel 0 b.
Proof.
  induction a as [|c a IH].
  - intros _. destruct b; reflexivity.
  - rewrite includes_unfold.
    destruct (String.prefix sentinel (String c a)) eqn:Hp; [discriminate|].
    intros Ha. rewrite !append_cons. cbn [remove_all].
    destruct (String.prefix sentinel (String c (a +:+ sentinel +:+ b))) eqn:Hq.
    + rewrite <- append_cons in Hq. apply sentinel_no_overlap in Hq; congruence.
    + now rewrite IH.
Qed.

Lemma without_sentinel_stripSentinel (raw stripped : string) :
  without_sentinel raw stripped <-> stripped = stripSentinel raw.
Proof.
  split.
  - induction 1 as [text H|before after stripped Hb _ ->].
    + symmetry. now apply remove_all_no_occurrence.
    + symmetry. now apply remove_all_occurrence.
  - intros ->. unfold stripSentinel.
    remember (String.length raw) as n eqn:Hn.
    revert raw Hn. induction n as [n IH] using lt_wf_ind. intros raw ->.
    destruct (includes sentinel raw) eqn:Hinc.
    + apply includes_leftmost in Hinc; [|discriminate].
      destruct Hinc as (a & b & -> & Ha).
      rewrite remove_all_occurrence by exact Ha.
      apply occurrence; [exact Ha|].
      eapply IH; [|reflexivity].
      rewrite !string_length_append. simpl. lia.
    + rewrite remove_all_no_occurrence by exact Hinc. now apply no_occurrence.
Qed.

End SentinelFacts.

(** ** The chunker *)

Section Chunker.

Import Tokenize.

Variable encoder : Encoder.

Lemma windows_concat (tokens : list nat) (maxTokens fuel i : nat) :
  0 < maxTokens ->
  length tokens <= i + fuel * maxTokens ->
  concat (windows fuel tokens maxTokens i) = drop i tokens.
Proof.
  intros Hmax. revert i.
  induction fuel as [|fuel IH]; intros i Hfuel; simpl.
  - destruct (Nat.ltb_spec i (length tokens)); [lia|].
    now rewrite drop_ge by lia.
  - destruct (Nat.ltb_spec i (length tokens)) as [Hlt|Hge].
    + simpl. rewrite IH by lia. unfold slice.
      replace (i + maxTokens - i) with maxTokens by lia.
      rewrite <- (take_drop maxTokens (drop i tokens)) at 2.
      rewrite drop_drop. reflexivity.
    + now rewrite drop_ge by lia.
Qed.

Lemma windows_nonempty (tokens : list nat) (maxTokens fuel i : nat) :
  0 < maxTokens ->
  Forall (fun w => 0 < length w <= maxTokens) (windows fuel tokens maxTokens i).
Proof.
  intros Hmax. revert i.
  induction fuel as [|fuel IH]; intros i; simpl;
    destruct (Nat.ltb_spec i (length tokens)) as [Hlt|Hge]; try constructor.
  - unfold slice. rewrite length_take, length_drop. lia.
  - apply IH.
Qed.

Lemma windows_full (tokens : list nat) (maxTokens fuel i j : nat) (w : list nat) :
  windows fuel tokens maxTokens i !! j = Some w ->
  S j < length (windows fuel tokens maxTokens i) ->
  length w = maxTokens.
Proof.
  revert i j.
  induction fuel as [|fuel IH]; intros i j; simpl;
    destruct (Nat.ltb_spec i (length tokens)) as [Hlt|Hge]; try discriminate.
  destruct j as [|j]; simpl.
  - intros [= <-] Hlen.
    destruct fuel as [|fuel']; simpl in Hlen;
      destruct (Nat.ltb_spec (i + maxTokens) (length tokens)); simpl in Hlen; try lia.
    unfold slice. rewrite length_take, length_drop. lia.
  - intros Hw Hlen. eapply IH; [exact Hw|lia].
Qed.

Lemma chunk_loop_windows (tokens : list nat) (maxTokens fuel i : nat) (chunks : list string) :
  0 < maxTokens ->
  length tokens <= i + fuel * maxTokens ->
  chunk_loop encoder fuel tokens maxTokens i chunks =
  Some (chunks ++ map (decode encoder) (windows fuel tokens maxTokens i)).
Proof.
  intros Hmax. revert i chunks.
  induction fuel as [|fuel IH]; intros i chunks Hfuel; simpl;
    destruct (Nat.ltb_spec i (length tokens)) as [Hlt|Hge];
    try lia; try (now rewrite app_nil_r).
  rewrite IH by lia. simpl. now rewrite <- app_assoc.
Qed.

(** With a window of no token the loop never advances: whatever the bound on
    its iterations, it is still running when the bound is reached. *)
Lemma chunk_loop_stuck (tokens : list nat) (fuel i : nat) (chunks : list string) :
  i < length tokens ->
  chunk_loop encoder fuel tokens 0 i chunks = None.
Proof.
  intros Hi. revert chunks.
  induction fuel as [|fuel IH]; intros chunks; simpl;
    destruct (Nat.ltb_spec i (length tokens)); try lia; try reflexivity.
  rewrite Nat.add_0_r. apply IH.
Qed.

(** Fuel beyond what the loop needs changes nothing. *)
Lemma windows_fuel (tokens : list nat) (maxTokens f1 f2 i : nat) :
  0 < maxTokens ->
  length tokens <= i + f1 * maxTokens ->
  length tokens <= i + f2 * maxTokens ->
  windows f1 tokens maxTokens i = windows f2 tokens maxTokens i.
Proof.
  intros Hmax. revert f2 i.
  induction f1 as [|f1 IH]; intros [|f2] i H1 H2; simpl;
    destruct (Nat.ltb_spec i (length tokens)); try lia; try reflexivity.
  f_equal. apply IH; lia.
Qed.

Lemma chunk_loop_fuel (tokens : list nat) (maxTokens fuel : nat) :
  0 < maxTokens ->
  length tokens <= fuel ->
  chunk_loop encoder fuel tokens maxTokens 0 [] =
  chunk_loop encoder (length tokens) tokens maxTokens 0 [].
Proof.
  intros Hmax Hfuel.
  rewrite !chunk_loop_windows by nia.
  now rewrite (windows_fuel tokens maxTokens fuel (length tokens) 0) by nia.
Qed.

(** C8: when the tokenizer accepts a text, a text of at most [maxTokens]
    tokens comes back as the one segment it is; a longer text is cut into
    decoded windows of exactly [maxTokens] tokens, the last one possibly
    shorter and none empty, and the windows put end to end are the token
    sequence of the text.  [getEmbedding] chunks the text it has stripped of
    the sentinel, with a budget of 2048 tokens: when what remains of the raw
    text without its occurrences of the sentinel fits, that is the one
    segment it embeds. *)
Theorem chunkText_segments (maxTokens : nat) :
  0 < maxTokens ->
  (forall (text : string) (tokens : list nat),
     encode encoder text = inr tokens ->
     length tokens <= maxTokens ->
     chunkText encoder text maxTokens = Returned [text]) /\
  (forall (text : string) (tokens : list nat),
     encode encoder text = inr tokens ->
     maxTokens < length tokens ->
     exists ws : list (list nat),
       chunkText encoder text maxTokens = Returned (map (decode encoder) ws) /\
       concat ws = tokens /\
       Forall (fun w => 0 < length w <= maxTokens) ws /\
       (forall (j : nat) (w : list nat),
          ws !! j = Some w -> S j < length ws -> length w = maxTokens)) /\
  (forall (service : Service) (raw : string),
     exists stripped : string,
       without_sentinel raw stripped /\
       forall tokens : list nat,
         encode encoder stripped = inr tokens ->
         length tokens <= MAX_TOKENS_PER_CHUNK ->
         chunkText encoder stripped MAX_TOKENS_PER_CHUNK = Returned [stripped] /\
         getEmbedding encoder service raw = fst (fetchEmbedding (service stripped))).
Proof.
  intros Hmax.
  assert (Hone : forall text tokens n,
            encode encoder text = inr tokens -> length tokens <= n ->
            chunkText encoder text n = Returned [text]).
  { intros text tokens n Henc Hle. unfold chunkText. rewrite Henc.
    now destruct (Nat.leb_spec (length tokens) n); [|lia]. }
  split; [|split].
  - intros text tokens. apply Hone.
  - intros text tokens Henc Hgt.
    exists (windows (length tokens) tokens maxTokens 0).
    repeat split.
    + unfold chunkText. rewrite Henc.
      destruct (Nat.leb_spec (length tokens) maxTokens); [lia|].
      now rewrite chunk_loop_windows by nia.
    + rewrite windows_concat by nia. apply drop_0.
    + now apply windows_nonempty.
    + intros j w. apply windows_full.
  - intros service raw. exists (stripSentinel raw).
    split; [now apply without_sentinel_stripSentinel|].
    intros tokens Henc Hle.
    pose proof (Hone _ _ _ Henc Hle) as Hchunk.
    split; [exact Hchunk|].
    unfold getEmbedding. cbv zeta. now rewrite Hchunk.
Qed.

End Chunker.

Lemma chunkText_segments_witness :
  Tokenize.chunkText Samples.char_encoder "abcdefg" 7 = Returned ["abcdefg"] /\
  (exists ws : list (list nat),
     Tokenize.chunkText Samples.char_encoder "abcdefg" 3
       = Returned (map (Tokenize.decode Samples.char_encoder) ws) /\
     concat ws = [97; 98; 99; 100; 101; 102; 103] /\
     Forall (fun w => 0 < length w <= 3) ws /\
     (forall (j : nat) (w : list nat),
        ws !! j = Some w -> S j < length ws -> length w = 3)) /\
  (exists stripped : string,
     Tokenize.without_sentinel "ab<|endoftext|>cd" stripped /\
     forall tokens : list nat,
       Tokenize.encode Samples.char_encoder stripped = inr tokens ->
       length tokens <= Tokenize.MAX_TOKENS_PER_CHUNK ->
       Tokenize.chunkText Samples.char_encoder stripped Tokenize.MAX_TOKENS_PER_CHUNK
         = Returned [stripped] /\
       Tokenize.getEmbedding Samples.char_encoder Samples.toy_service "ab<|endoftext|>cd"
         = fst (Tokenize.fetchEmbedding (Samples.toy_service stripped))).
Proof.
  split; [|split].
  - apply (proj1 (chunkText_segments Samples.char_encoder 7 ltac:(lia))
             "abcdefg" [97; 98; 99; 100; 101; 102; 103]); [reflexivity|simpl; lia].
  - apply (proj1 (proj2 (chunkText_segments Samples.char_encoder 3 ltac:(lia)))
             "abcdefg" [97; 98; 99; 100; 101; 102; 103]); [reflexivity|simpl; lia].
  - apply (proj2 (proj2 (chunkText_segments Samples.char_encoder 3 ltac:(lia)))
             Samples.toy_service "ab<|endoftext|>cd").
Defined.

(** The replacement is one pass from left to right: what it removes can
    bring the two halves of another occurrence together. *)
Example stripSentinel_sample :
  Tokenize.stripSentinel "ab<|endoftext|>cd" = "abcd" /\
  Tokenize.stripSentinel "<|endo<|endoftext|>ftext|>" = "<|endoftext|>".
Proof. split; reflexivity. Qed.

Example chunkText_sample :
  Tokenize.chunkText Samples.char_encoder "abcdefg" 3 = Returned ["abc"; "def"; "g"].
Proof. reflexivity. Qed.

(** ** The embedding client *)

Section EmbeddingClient.

Import Tokenize.

Variable service : nat -> FetchOutcome.

(** One turn of the loop while a retry is left: a failed request, of any
    kind, is followed by a sleep and another request. *)
Lemma fetch_loop_retry (fuel retryCount : nat) (waitTime : Z) (tr : FetchTrace) :
  retryCount < maxRetries ->
  fetch_loop (S fuel) service retryCount waitTime tr =
  if failed_request (service (requests tr))
  then fetch_loop fuel service (S retryCount) (waitTime * 2)%Z
         (trace (waits tr ++ [waitTime]) (S (requests tr)))
  else (Returned (returned_body (service (requests tr))),
        trace (waits tr) (S (requests tr))).
Proof.
  intros Hlt. simpl. unfold on_error, trace.
  destruct (Nat.ltb_spec retryCount maxRetries); [|lia].
  destruct (service (requests tr)) as [m|st txt [m|e]]; simpl; try reflexivity;
    rewrite andb_true_r; unfold response_ok;
    destruct (Z.eqb_spec st 429); subst; simpl; try reflexivity;
    destruct ((200 <=? st)%Z && (st <=? 299)%Z); reflexivity.
Qed.

(** The turn after the last retry: a failed request is rethrown. *)
Lemma fetch_loop_last (fuel retryCount : nat) (waitTime : Z) (tr : FetchTrace) :
  maxRetries <= retryCount ->
  fetch_loop (S fuel) service retryCount waitTime tr =
  if failed_request (service (requests tr))
  then (Thrown (error_message (service (requests tr))),
        trace (waits tr) (S (requests tr)))
  else (Returned (returned_body (service (requests tr))),
        trace (waits tr) (S (requests tr))).
Proof.
  intros Hge. simpl. unfold on_error, trace.
  destruct (Nat.ltb_spec retryCount maxRetries); [lia|].
  destruct (service (requests tr)) as [m|st txt [m|e]]; simpl; try reflexivity;
    rewrite andb_false_r; destruct (response_ok st); reflexivity.
Qed.

(** The six turns written out. *)
Lemma fetch_loop_six (fuel : nat) :
  fetch_loop (6 + fuel) service 0 initialWaitTime (trace [] 0) =
  if negb (failed_request (service 0)) then
    (Returned (returned_body (service 0)), trace [] 1)
  else if negb (failed_request (service 1)) then
    (Returned (returned_body (service 1)), trace [500]%Z 2)
  else if negb (failed_request (service 2)) then
    (Returned (returned_body (service 2)), trace [500; 1000]%Z 3)
  else if negb (failed_request (service 3)) then
    (Returned (returned_body (service 3)), trace [500; 1000; 2000]%Z 4)
  else if negb (failed_request (service 4)) then
    (Returned (returned_body (service 4)), trace [500; 1000; 2000; 4000]%Z 5)
  else if negb (failed_request (service 5)) then
    (Returned (returned_body (service 5)), trace backoff_schedule 6)
  else (Thrown (error_message (service 5)), trace backoff_schedule 6).
Proof.
  change (6 + fuel) with (S (S (S (S (S (S fuel)))))).
  rewrite fetch_loop_retry by (unfold maxRetries; lia). simpl requests.
  destruct (failed_request (service 0)); [|reflexivity].
  rewrite fetch_loop_retry by (unfold maxRetries; lia). simpl requests.
  destruct (failed_request (service 1)); [|reflexivity].
  rewrite fetch_loop_retry by (unfold maxRetries; lia). simpl requests.
  destruct (failed_request (service 2)); [|reflexivity].
  rewrite fetch_loop_retry by (unfold maxRetries; lia). simpl requests.
  destruct (failed_request (service 3)); [|reflexivity].
  rewrite fetch_loop_retry by (unfold maxRetries; lia). simpl requests.
  destruct (failed_request (service 4)); [|reflexivity].
  rewrite fetch_loop_last by (unfold maxRetries; lia). simpl requests.
  destruct (failed_request (service 5)); reflexivity.
Qed.

Lemma rate_limited_failed (o : FetchOutcome) :
  rate_limited o = true -> failed_request o = true.
Proof.
  destruct o as [m|st txt b]; simpl; [discriminate|].
  intros H. apply Z.eqb_eq in H. subst. reflexivity.
Qed.

(** C5: the retry policy of [fetchEmbedding].  Requests that fail, whether
    by a 429 response, by another response that is not ok, by a body of the
    wrong shape or by a network error, are retried after sleeping 500, 1000,
    2000, 4000 and 8000 ms; the first request that does not fail gives the
    result; the error is thrown only by the sixth request, after the five
    retries.  The loop never needs more than six turns. *)
Theorem fetchEmbedding_retry_policy :
  (forall n : nat, n <= maxRetries ->
     (forall k, k < n -> failed_request (service k) = true) ->
     failed_request (service n) = false ->
     fetchEmbedding service =
       (Returned (returned_body (service n)), trace (take n backoff_schedule) (S n))) /\
  ((forall k, k <= maxRetries -> failed_request (service k) = true) ->
     fetchEmbedding service =
       (Thrown (error_message (service maxRetries)), trace backoff_schedule (S maxRetries))) /\
  ((forall k, k <= maxRetries -> rate_limited (service k) = true) ->
     fetchEmbedding service =
       (Thrown (error_message (service maxRetries)), trace backoff_schedule (S maxRetries))) /\
  (is_thrown (fst (fetchEmbedding service)) = true ->
     (forall k, k <= maxRetries -> failed_request (service k) = true) /\
     snd (fetchEmbedding service) = trace backoff_schedule (S maxRetries)) /\
  fst (fetchEmbedding service) <> Diverged /\
  (forall fuel : nat, S maxRetries <= fuel ->
     fetch_loop fuel service 0 initialWaitTime (trace [] 0) = fetchEmbedding service).
Proof.
  assert (Hsix := fetch_loop_six 0).
  change (fetch_loop (6 + 0) service 0 initialWaitTime (trace [] 0))
    with (fetchEmbedding service) in Hsix.
  assert (Hall : (forall k, k <= maxRetries -> failed_request (service k) = true) ->
            fetchEmbedding service =
            (Thrown (error_message (service maxRetries)), trace backoff_schedule (S maxRetries))).
  { intros Hf. rewrite Hsix.
    rewrite !Hf by (unfold maxRetries; lia). reflexivity. }
  split; [|split; [|split; [|split; [|split]]]].
  - intros n Hn Hbefore Hok. rewrite Hsix. unfold maxRetries in Hn.
    do 6 (destruct n as [|n];
          [ rewrite ?Hbefore by lia; rewrite Hok; reflexivity | ]).
    lia.
  - exact Hall.
  - intros Hr. apply Hall. intros k Hk. apply rate_limited_failed, Hr, Hk.
  - rewrite Hsix. unfold maxRetries.
    destruct (failed_request (service 0)) eqn:H0; [|discriminate].
    destruct (failed_request (service 1)) eqn:H1; [|discriminate].
    destruct (failed_request (service 2)) eqn:H2; [|discriminate].
    destruct (failed_request (service 3)) eqn:H3; [|discriminate].
    destruct (failed_request (service 4)) eqn:H4; [|discriminate].
    destruct (failed_request (service 5)) eqn:H5; [|discriminate].
    simpl. intros _. split; [|reflexivity].
    intros k Hk. do 6 (destruct k as [|k]; [assumption|]). lia.
  - rewrite Hsix.
    repeat match goal with |- context [failed_request ?o] => destruct (failed_request o) end;
      discriminate.
  - intros fuel Hfuel. unfold maxRetries in Hfuel.
    replace fuel with (6 + (fuel - 6)) by lia.
    rewrite fetch_loop_six. symmetry. exact Hsix.
Qed.

End EmbeddingClient.

Lemma fetchEmbedding_retry_policy_witness :
  Tokenize.fetchEmbedding Samples.always_429 =
    (Thrown "Error fetching embedding: Too Many Requests",
     Tokenize.trace [500; 1000; 2000; 4000; 8000]%Z 6) /\
  Tokenize.fetchEmbedding Samples.flaky =
    (Returned [1; 0]%float, Tokenize.trace [500; 1000]%Z 3).
Proof.
  split.
  - apply (proj1 (proj2 (proj2 (fetchEmbedding_retry_policy Samples.always_429)))).
    intros k _. reflexivity.
  - apply (proj1 (fetchEmbedding_retry_policy Samples.flaky) 2).
    + unfold Tokenize.maxRetries. lia.
    + intros k Hk. destruct k as [|[|k]]; [reflexivity|reflexivity|lia].
    + reflexivity.
Defined.

(** ** Numbers *)

Section Numbers.




(** *** The order of binary64 numbers *)

Lemma SFcompare_le_trans_finite s1 m1 e1 s2 m2 e2 s3 m3 e3 (c1 c2 : comparison) :
  SFcompare (S754_finite s1 m1 e1) (S754_finite s2 m2 e2) = Some c1 -> c1 <> Gt ->
  SFcompare (S754_finite s2 m2 e2) (S754_finite s3 m3 e3) = Some c2 -> c2 <> Gt ->
  SFcompare (S754_finite s1 m1 e1) (S754_finite s3 m3 e3) <> Some Gt /\
  SFcompare (S754_finite s1 m1 e1) (S754_finite s3 m3 e3) <> None.
Proof.
  simpl. intros H1 Hc1 H2 Hc2. split; [|discriminate].
  injection H1 as H1; injection H2 as H2; subst c1 c2. intros H3; injection H3 as H3.
  revert Hc1 Hc2 H3.
  destruct s1, s2, s3; simpl; try congruence;
    destruct (Z.compare_spec e1 e2), (Z.compare_spec e2 e3), (Z.compare_spec e1 e3); subst;
    try congruence; try lia;
    fold (Pos.compare m1 m2); fold (Pos.compare m2 m3); fold (Pos.compare m1 m3);
    destruct (Pos.compare_spec m1 m2), (Pos.compare_spec m2 m3), (Pos.compare_spec m1 m3);
    subst; simpl; try congruence; try lia.
Qed.

Lemma SFleb_trans (x y z : spec_float) :
  SFleb x y = true -> SFleb y z = true -> SFleb x z = true.
Proof.
  unfold SFleb.
  destruct (SFcompare x y) as [c1|] eqn:H1; [|discriminate].
  destruct (SFcompare y z) as [c2|] eqn:H2; [|destruct c1; discriminate].
  intros Hc1 Hc2.
  assert (Hn1 : c1 <> Gt) by (destruct c1; congruence).
  assert (Hn2 : c2 <> Gt) by (destruct c2; congruence).
  clear Hc1 Hc2.
  assert (H : SFcompare x z <> Some Gt /\ SFcompare x z <> None).
  { destruct x as [sx|sx| |sx mx ex], y as [sy|sy| |sy my ey], z as [sz|sz| |sz mz ez];
      try (eapply SFcompare_le_trans_finite; eassumption);
      simpl in *;
      repeat match goal with b : bool |- _ => destruct b end;
      simpl in *; split; congruence. }
  destruct (SFcompare x z) as [[| |]|]; try reflexivity; destruct H; congruence.
Qed.

Lemma SFcompare_tie_finite s1 m1 e1 s2 m2 e2 s3 m3 e3 :
  SFcompare (S754_finite s1 m1 e1) (S754_finite s3 m3 e3) = Some Eq ->
  SFcompare (S754_finite s2 m2 e2) (S754_finite s3 m3 e3) = Some Eq ->
  SFcompare (S754_finite s1 m1 e1) (S754_finite s2 m2 e2) = Some Lt -> False.
Proof.
  simpl.
  destruct s1, s2, s3; simpl; intros H1 H2 H3; try discriminate;
    injection H1 as H1; injection H2 as H2; injection H3 as H3; revert H1 H2 H3;
    destruct (Z.compare_spec e1 e3), (Z.compare_spec e2 e3), (Z.compare_spec e1 e2); subst;
    try discriminate; try lia;
    fold (Pos.compare m1 m3); fold (Pos.compare m2 m3); fold (Pos.compare m1 m2);
    destruct (Pos.compare_spec m1 m3), (Pos.compare_spec m2 m3), (Pos.compare_spec m1 m2);
    subst; simpl; try discriminate; try lia.
Qed.

Lemma SFcompare_tie (x y s : spec_float) :
  SFcompare x s = Some Eq -> SFcompare y s = Some Eq -> SFcompare x y = Some Lt -> False.
Proof.
  destruct x as [sx|sx| |sx mx ex], y as [sy|sy| |sy my ey], s as [sz|sz| |sz mz ez];
    try (apply SFcompare_tie_finite);
    simpl;
    try destruct sx; try destruct sy; try destruct sz; simpl;
    intros H1 H2 H3; discriminate.
Qed.

Lemma float_leb_trans (x y z : float) :
  (x <=? y)%float = true -> (y <=? z)%float = true -> (x <=? z)%float = true.
Proof. rewrite !FloatAxioms.leb_spec. apply SFleb_trans. Qed.

Lemma float_compare_Lt (x y : float) :
  (x ?= y)%float = FLt -> SFcompare (Prim2SF x) (Prim2SF y) = Some Lt.
Proof.
  rewrite FloatAxioms.compare_spec.
  destruct (SFcompare (Prim2SF x) (Prim2SF y)) as [[| |]|]; simpl; congruence.
Qed.

Lemma float_compare_Eq (x y : float) :
  (x ?= y)%float = FEq -> SFcompare (Prim2SF x) (Prim2SF y) = Some Eq.
Proof.
  rewrite FloatAxioms.compare_spec.
  destruct (SFcompare (Prim2SF x) (Prim2SF y)) as [[| |]|]; simpl; congruence.
Qed.

Lemma float_compare_Gt (x y : float) :
  (x ?= y)%float = FGt -> SFcompare (Prim2SF x) (Prim2SF y) = Some Gt.
Proof.
  rewrite FloatAxioms.compare_spec.
  destruct (SFcompare (Prim2SF x) (Prim2SF y)) as [[| |]|]; simpl; congruence.
Qed.

Lemma SFcompare_Gt_Lt (x y : spec_float) :
  SFcompare x y = Some Gt -> SFcompare y x = Some Lt.
Proof.
  destruct x as [sx|sx| |sx mx ex], y as [sy|sy| |sy my ey]; simpl;
    try destruct sx; try destruct sy; simpl; try congruence;
    intros H; injection H as H; revert H;
    destruct (Z.compare_spec ex ey), (Z.compare_spec ey ex); subst;
    try congruence; try lia;
    fold (Pos.compare mx my); fold (Pos.compare my mx);
    destruct (Pos.compare_spec mx my), (Pos.compare_spec my mx); subst; simpl;
    try congruence; try lia.
Qed.

Lemma SFcompare_Eq_sym (x y : spec_float) :
  SFcompare x y = Some Eq -> SFcompare y x = Some Eq.
Proof.
  destruct x as [sx|sx| |sx mx ex], y as [sy|sy| |sy my ey]; simpl;
    try destruct sx; try destruct sy; simpl; try congruence;
    intros H; injection H as H; revert H;
    destruct (Z.compare_spec ex ey), (Z.compare_spec ey ex); subst;
    try congruence; try lia;
    fold (Pos.compare mx my); fold (Pos.compare my mx);
    destruct (Pos.compare_spec mx my), (Pos.compare_spec my mx); subst; simpl;
    try congruence; try lia.
Qed.

End Numbers.

(** *** Rounding *)

Section Rounding.

Import Binary64.
Local Open Scope Z_scope.

(** The bit length of a mantissa. *)
Lemma digits2_bounds (m : positive) :
  2 ^ (Zpos (digits2_pos m) - 1) <= Zpos m < 2 ^ Zpos (digits2_pos m).
Proof.
  induction m as [m IH|m IH|]; cbn [digits2_pos]; [| |simpl; lia];
    rewrite Pos2Z.inj_succ;
    replace (Z.succ (Zpos (digits2_pos m)) - 1) with (Zpos (digits2_pos m)) by lia;
    replace (Zpos (digits2_pos m)) with (Z.succ (Zpos (digits2_pos m) - 1)) at 1 by lia;
    rewrite !Z.pow_succ_r by lia; lia.
Qed.

Lemma iter_xO (m d : positive) : Zpos (Pos.iter xO m d) = Zpos m * 2 ^ Zpos d.
Proof.
  apply (Pos.iter_ind _ xO m (fun p a => Zpos a = Zpos m * 2 ^ Zpos p)).
  - simpl. lia.
  - intros p a Ha. rewrite Pos2Z.inj_succ, Z.pow_succ_r by lia.
    rewrite Pos2Z.inj_xO, Ha. lia.
Qed.

(** [shl_align] keeps the value and lowers the exponent to [e'] if it is
    above. *)
Lemma shl_align_spec (m : positive) (e e' : Z) :
  let '(m', e'') := shl_align m e e' in
  e'' = Z.min e e' /\ Zpos m' = Zpos m * 2 ^ (e - e'').
Proof.
  unfold shl_align.
  destruct (e' - e) as [|d|d] eqn:Hd.
  - split; [lia|]. replace (e - e) with 0 by lia. simpl. lia.
  - split; [lia|]. replace (e - e) with 0 by lia. simpl. lia.
  - split; [lia|]. rewrite iter_xO. f_equal. f_equal. lia.
Qed.


(** *** Shifting a mantissa to the right *)

Lemma shifted_1 (x : shr_record) : 0 <= shr_m x -> shifted 1 x (shr_1 x).
Proof.
  destruct x as [m r s]. unfold shifted, shr_double. cbn [shr_m shr_r shr_s].
  intros Hm. change (2 ^ 1) with 2.
  assert (Hr : (2 * m + Z.b2z r) mod 2 = Z.b2z r).
  { rewrite Z.add_comm, Z.mul_comm, Z.mod_add by lia. now destruct r. }
  assert (Hq : (2 * m + Z.b2z r) / 2 = m).
  { rewrite Z.add_comm, Z.mul_comm, Z.div_add by lia.
    destruct r; [change (Z.b2z true / 2) with 0|change (Z.b2z false / 2) with 0]; lia. }
  rewrite Hr, Hq.
  destruct m as [|[p|p|]|p]; try lia; cbn [shr_1 shr_m shr_r shr_s Z.b2z];
    (split; [lia|split; [lia|destruct r, s; reflexivity]]).
Qed.

Lemma shifted_trans (a b : Z) (x y z : shr_record) :
  0 <= a -> 0 <= b -> shifted a x y -> shifted b y z -> shifted (a + b) x z.
Proof.
  intros Ha Hb (Hy & Hdy & Hsy) (Hz & Hdz & Hsz).
  split; [exact Hz|]. rewrite Z.pow_add_r by lia.
  assert (H2a : 0 < 2 ^ a) by (apply Z.pow_pos_nonneg; lia).
  assert (H2b : 0 < 2 ^ b) by (apply Z.pow_pos_nonneg; lia).
  split.
  - rewrite Hdz, Hdy. now rewrite Z.div_div by lia.
  - rewrite Hsz, Hsy, Hdy, <- orb_assoc. f_equal.
    rewrite Z.rem_mul_r by lia.
    pose proof (Z.mod_pos_bound (shr_double x) (2 ^ a) H2a).
    pose proof (Z.mod_pos_bound (shr_double x / 2 ^ a) (2 ^ b) H2b).
    destruct (Z.eqb_spec (shr_double x mod 2 ^ a) 0) as [E1|E1];
      destruct (Z.eqb_spec ((shr_double x / 2 ^ a) mod 2 ^ b) 0) as [E2|E2];
      destruct (Z.eqb_spec (shr_double x mod 2 ^ a +
                            2 ^ a * ((shr_double x / 2 ^ a) mod 2 ^ b)) 0) as [E3|E3];
      try reflexivity; exfalso; nia.
Qed.

Lemma shifted_iter (p : positive) (x : shr_record) :
  0 <= shr_m x -> shifted (Zpos p) x (SpecFloat.iter_pos shr_1 p x).
Proof.
  revert x. induction p as [p IH|p IH|]; intros x Hx; cbn [SpecFloat.iter_pos].
  - pose proof (shifted_1 x Hx) as H1.
    pose proof (IH _ (proj1 H1)) as H2.
    pose proof (IH _ (proj1 H2)) as H3.
    replace (Zpos p~1) with (1 + Zpos p + Zpos p) by lia.
    eapply shifted_trans; [lia|lia| |exact H3].
    eapply shifted_trans; [lia|lia|exact H1|exact H2].
  - pose proof (IH _ Hx) as H2.
    pose proof (IH _ (proj1 H2)) as H3.
    replace (Zpos p~0) with (Zpos p + Zpos p) by lia.
    eapply shifted_trans; [lia|lia|exact H2|exact H3].
  - now apply shifted_1.
Qed.

(** [shr] by any count: no shift when the count is not positive. *)
Lemma shr_spec (x : shr_record) (e n : Z) :
  0 <= shr_m x ->
  shifted (Z.max n 0) x (fst (shr x e n)) /\ snd (shr x e n) = e + Z.max n 0.
Proof.
  intros Hx. unfold shr. destruct n as [|p|p]; cbn [fst snd].
  - split; [|simpl; lia]. unfold shifted. change (2 ^ Z.max 0 0) with 1.
    rewrite Z.div_1_r, Z.mod_1_r. simpl. rewrite orb_false_r. auto.
  - replace (Z.max (Zpos p) 0) with (Zpos p) by lia.
    split; [now apply shifted_iter|reflexivity].
  - split; [|simpl; lia]. unfold shifted. change (2 ^ Z.max (Zneg p) 0) with 1.
    rewrite Z.div_1_r, Z.mod_1_r. simpl. rewrite orb_false_r. auto.
Qed.


Lemma shr_m_shifted (k : Z) (x y : shr_record) :
  0 <= k -> shifted k x y -> shr_m y = shr_m x / 2 ^ k.
Proof.
  intros Hk (Hy & Hd & _).
  assert (H2k : 0 < 2 ^ k) by (apply Z.pow_pos_nonneg; lia).
  assert (Hhalf : forall r, shr_m r = shr_double r / 2).
  { intros r. unfold shr_double. rewrite Z.add_comm, Z.mul_comm, Z.div_add by lia.
    destruct (shr_r r);
      [change (Z.b2z true / 2) with 0|change (Z.b2z false / 2) with 0]; lia. }
  rewrite (Hhalf y), Hd, Z.div_div by lia.
  rewrite (Z.mul_comm (2 ^ k) 2), <- Z.div_div by lia. now rewrite <- Hhalf.
Qed.

Lemma Zdigits2_bounds (m : Z) :
  0 < m -> 2 ^ (Zdigits2 m - 1) <= m < 2 ^ Zdigits2 m.
Proof. destruct m as [|p|p]; try lia. intros _. apply digits2_bounds. Qed.

Lemma Zdigits2_pos (m : Z) : 0 < m -> 0 < Zdigits2 m.
Proof. destruct m; simpl; lia. Qed.

Lemma Zdigits2_gt (m j : Z) : 0 <= j -> 2 ^ j <= m -> j < Zdigits2 m.
Proof.
  intros Hj Hm.
  assert (0 < m) by (pose proof (Z.pow_pos_nonneg 2 j); lia).
  pose proof (Zdigits2_bounds m H) as [_ Hlt].
  apply (Z.pow_lt_mono_r_iff 2); [lia|pose proof (Zdigits2_pos m H); lia|lia].
Qed.

Lemma Zdigits2_le (m j : Z) : 0 < m -> 0 <= j -> m < 2 ^ j -> Zdigits2 m <= j.
Proof.
  intros Hm Hj Hlt.
  pose proof (Zdigits2_bounds m Hm) as [Hle _].
  pose proof (Zdigits2_pos m Hm).
  destruct (Z.le_gt_cases (Zdigits2 m) j) as [|Hgt]; [assumption|].
  exfalso. assert (2 ^ j <= 2 ^ (Zdigits2 m - 1)) by (apply Z.pow_le_mono_r; lia). lia.
Qed.

(** *** Rounding keeps the sign *)

Lemma fexp64 (e : Z) : fexp prec emax e = Z.max (e - 53) emin64.
Proof. reflexivity. Qed.

Lemma round_nearest_even_bounds (m : Z) (l : location) :
  m <= round_nearest_even m l <= m + 1.
Proof. destruct l as [|[| |]]; simpl; try destruct (Z.even m); lia. Qed.

Lemma shr_record_of_loc_m (m : Z) (l : location) : shr_m (shr_record_of_loc m l) = m.
Proof. now destruct l as [|[| |]]. Qed.

(** The mantissa that [shr_fexp] leaves is positive as soon as the number is
    above the least exponent. *)
Lemma shr_fexp_pos (m e : Z) (l : location) :
  0 < m -> emin64 < Zdigits2 m + e ->
  let '(mrs, e') := shr_fexp prec emax m e l in
  0 < shr_m mrs /\ Zdigits2 m + e <= Zdigits2 (shr_m mrs) + e'.
Proof.
  intros Hm He. unfold shr_fexp.
  set (k := fexp prec emax (Zdigits2 m + e) - e).
  pose proof (shr_spec (shr_record_of_loc m l) e k) as Hshr.
  rewrite shr_record_of_loc_m in Hshr. specialize (Hshr ltac:(lia)).
  destruct (shr (shr_record_of_loc m l) e k) as [mrs e']. cbn [fst snd] in Hshr.
  destruct Hshr as [Hs ->].
  apply shr_m_shifted in Hs; [|lia]. rewrite shr_record_of_loc_m in Hs.
  pose proof (Zdigits2_bounds m Hm) as [Hlo _].
  pose proof (Zdigits2_pos m Hm) as Hd.
  assert (Hk : Z.max k 0 <= Zdigits2 m - 1).
  { unfold k. rewrite fexp64. lia. }
  assert (Hk0 : 0 <= Z.max k 0) by lia.
  generalize dependent (Z.max k 0). intros kk Hs Hk Hk0.
  assert (Hpow : 2 ^ (Zdigits2 m - 1) = 2 ^ (Zdigits2 m - 1 - kk) * 2 ^ kk).
  { rewrite <- Z.pow_add_r by lia. f_equal. lia. }
  assert (H2k : 0 < 2 ^ kk) by (apply Z.pow_pos_nonneg; lia).
  assert (Hge : 2 ^ (Zdigits2 m - 1 - kk) <= shr_m mrs).
  { rewrite Hs. apply Z.div_le_lower_bound; [lia|]. rewrite Z.mul_comm. lia. }
  assert (0 < 2 ^ (Zdigits2 m - 1 - kk)) by (apply Z.pow_pos_nonneg; lia).
  split; [lia|].
  pose proof (Zdigits2_gt (shr_m mrs) (Zdigits2 m - 1 - kk) ltac:(lia) Hge). lia.
Qed.

Lemma Zdigits2_mono (a b : Z) : 0 < a -> a <= b -> Zdigits2 a <= Zdigits2 b.
Proof.
  intros Ha Hab.
  pose proof (Zdigits2_bounds a Ha) as [Hlo _].
  pose proof (Zdigits2_pos a Ha).
  pose proof (Zdigits2_gt b (Zdigits2 a - 1) ltac:(lia) ltac:(lia)). lia.
Qed.

Lemma binary_round_aux_sign (sx : bool) (mx ex : Z) (lx : location) :
  0 < mx -> emin64 < Zdigits2 mx + ex ->
  (exists m e, binary_round_aux prec emax sx mx ex lx = S754_finite sx m e) \/
  binary_round_aux prec emax sx mx ex lx = S754_infinity sx.
Proof.
  intros Hm He. unfold binary_round_aux.
  pose proof (shr_fexp_pos mx ex lx Hm He) as H1.
  destruct (shr_fexp prec emax mx ex lx) as [mrs' e'].
  destruct H1 as [Hpos Hd].
  pose proof (round_nearest_even_bounds (shr_m mrs') (loc_of_shr_record mrs')) as Hr.
  set (m'' := round_nearest_even (shr_m mrs') (loc_of_shr_record mrs')) in *.
  assert (Hd2 : emin64 < Zdigits2 m'' + e').
  { pose proof (Zdigits2_mono (shr_m mrs') m'' Hpos ltac:(lia)). lia. }
  pose proof (shr_fexp_pos m'' e' loc_Exact ltac:(lia) Hd2) as H2.
  destruct (shr_fexp prec emax m'' e' loc_Exact) as [mrs'' e''].
  destruct H2 as [Hpos2 _].
  destruct (shr_m mrs'') as [|p|p]; try lia.
  destruct (e'' <=? emax - prec); [left; eauto|now right].
Qed.

Lemma binary_round_sign (sx : bool) (m : positive) (e : Z) :
  emin64 <= e ->
  (exists m' e', binary_round prec emax sx m e = S754_finite sx m' e') \/
  binary_round prec emax sx m e = S754_infinity sx.
Proof.
  intros He. unfold binary_round.
  pose proof (shl_align_spec m e (fexp prec emax (Zpos (digits2_pos m) + e))) as Hal.
  destruct (shl_align m e (fexp prec emax (Zpos (digits2_pos m) + e))) as [mz ez].
  destruct Hal as [Hez Hmz].
  apply binary_round_aux_sign; [lia|].
  pose proof (digits2_bounds m) as [Hlo _].
  assert (Hge : 2 ^ (Zpos (digits2_pos m) - 1 + (e - ez)) <= Zpos mz).
  { rewrite Hmz, Z.pow_add_r by lia.
    apply Z.mul_le_mono_nonneg_r; [apply Z.pow_nonneg; lia|exact Hlo]. }
  pose proof (Zdigits2_gt (Zpos mz) (Zpos (digits2_pos m) - 1 + (e - ez)) ltac:(lia) Hge).
  change (Zdigits2 (Zpos mz)) with (Zpos (digits2_pos mz)) in *. lia.
Qed.


(** *** The sign of a difference *)

(** A valid number has a mantissa of at most 53 bits, of exactly 53 above
    the least exponent. *)
Lemma bounded_digits (m : positive) (e : Z) :
  bounded prec emax m e = true ->
  emin64 <= e /\ Zpos (digits2_pos m) <= 53 /\ (emin64 < e -> Zpos (digits2_pos m) = 53).
Proof.
  unfold bounded, canonical_mantissa. rewrite andb_true_iff, fexp64.
  intros [H _]. apply Z.eqb_eq in H. lia.
Qed.

(** Of two valid positive numbers, the one with the smaller exponent is the
    smaller. *)
Lemma bounded_lt (mx my : positive) (ex ey : Z) :
  bounded prec emax mx ex = true -> bounded prec emax my ey = true ->
  ex < ey -> Zpos mx < Zpos my * 2 ^ (ey - ex).
Proof.
  intros Hx Hy Hlt.
  apply bounded_digits in Hx, Hy.
  destruct Hx as (Hex & Hdx & _), Hy as (_ & _ & Hdy). specialize (Hdy ltac:(lia)).
  pose proof (digits2_bounds mx) as [_ Hmx].
  pose proof (digits2_bounds my) as [Hmy _]. rewrite Hdy in Hmy.
  assert (Zpos mx < 2 ^ 53).
  { eapply Z.lt_le_trans; [exact Hmx|]. apply Z.pow_le_mono_r; lia. }
  assert (2 ^ 1 <= 2 ^ (ey - ex)) by (apply Z.pow_le_mono_r; lia).
  change (2 ^ 1) with 2 in *. change (2 ^ (53 - 1)) with (2 ^ 52) in *.
  change (2 ^ 53) with (2 * 2 ^ 52) in *. nia.
Qed.

Lemma binary_normalize_sign (d e : Z) :
  emin64 <= e ->
  match d with
  | Z0 => binary_normalize prec emax d e false = S754_zero false
  | Zpos _ => SFpositive (binary_normalize prec emax d e false) = true
  | Zneg _ => SFnegative (binary_normalize prec emax d e false) = true
  end.
Proof.
  intros He. destruct d as [|p|p]; [reflexivity| |]; cbn [binary_normalize].
  - destruct (binary_round_sign false p e He) as [(m' & e' & ->)| ->]; reflexivity.
  - destruct (binary_round_sign true p e He) as [(m' & e' & ->)| ->]; reflexivity.
Qed.

Lemma SFsub_finite_sign (sx sy : bool) (mx my : positive) (ex ey : Z) :
  bounded prec emax mx ex = true -> bounded prec emax my ey = true ->
  let d := SFsub prec emax (S754_finite sy my ey) (S754_finite sx mx ex) in
  match SFcompare (S754_finite sx mx ex) (S754_finite sy my ey) with
  | Some Lt => SFpositive d = true
  | Some Gt => SFnegative d = true
  | Some Eq => d = S754_zero false
  | None => True
  end.
Proof.
  intros Hx Hy. cbv zeta. cbn [SFsub SFcompare].
  pose proof (bounded_digits _ _ Hx) as (Hex & _ & _).
  pose proof (bounded_digits _ _ Hy) as (Hey & _ & _).
  pose proof (shl_align_spec mx ex (Z.min ey ex)) as Hax.
  pose proof (shl_align_spec my ey (Z.min ey ex)) as Hay.
  destruct (shl_align mx ex (Z.min ey ex)) as [mx' ex'].
  destruct (shl_align my ey (Z.min ey ex)) as [my' ey'].
  cbn [fst]. destruct Hax as [-> Hmx'], Hay as [-> Hmy'].
  pose proof (binary_normalize_sign
                (cond_Zopp sy (Zpos my') - cond_Zopp sx (Zpos mx')) (Z.min ey ex)
                ltac:(lia)) as Hsign.
  assert (Hlt : ex < ey -> Zpos mx' < Zpos my').
  { intros H. pose proof (bounded_lt _ _ _ _ Hx Hy H).
    replace (ex - Z.min ex (Z.min ey ex)) with 0 in Hmx' by lia.
    replace (ey - Z.min ey (Z.min ey ex)) with (ey - ex) in Hmy' by lia.
    simpl in Hmx'. lia. }
  assert (Hgt : ey < ex -> Zpos my' < Zpos mx').
  { intros H. pose proof (bounded_lt _ _ _ _ Hy Hx H).
    replace (ey - Z.min ey (Z.min ey ex)) with 0 in Hmy' by lia.
    replace (ex - Z.min ex (Z.min ey ex)) with (ex - ey) in Hmx' by lia.
    simpl in Hmy'. lia. }
  assert (Heq : ex = ey -> Zpos mx' = Zpos mx /\ Zpos my' = Zpos my).
  { intros ->.
    replace (ey - Z.min ey (Z.min ey ey)) with 0 in * by lia.
    simpl in *. lia. }
  fold (Pos.compare mx my).
  destruct sx, sy; cbn [cond_Zopp] in Hsign |- *;
    destruct (Z.compare_spec ex ey) as [He|He|He];
    try (destruct (Heq He) as [E1 E2]);
    try (specialize (Hlt He)); try (specialize (Hgt He));
    try destruct (Pos.compare_spec mx my) as [Hm|Hm|Hm]; cbn [CompOpp];
    match type of Hsign with
    | match ?d with _ => _ end =>
        destruct d eqn:Hd; try exact Hsign; exfalso; lia
    end.
Qed.


Lemma SFsub_sign (x y : spec_float) :
  SpecFloat.valid_binary prec emax x = true ->
  SpecFloat.valid_binary prec emax y = true ->
  match SFcompare x y with
  | Some Lt => SFpositive (SFsub prec emax y x) = true
  | Some Gt => SFnegative (SFsub prec emax y x) = true
  | Some Eq => SFpositive (SFsub prec emax y x) = false /\
               SFnegative (SFsub prec emax y x) = false
  | None => True
  end.
Proof.
  destruct x as [sx|sx| |sx mx ex], y as [sy|sy| |sy my ey];
    try (intros _ _; try destruct sx; try destruct sy; simpl; auto; fail).
  intros Hx Hy. pose proof (SFsub_finite_sign sx sy mx my ex ey Hx Hy) as H.
  cbv zeta in H.
  destruct (SFcompare (S754_finite sx mx ex) (S754_finite sy my ey)) as [[| |]|];
    try exact H.
  rewrite H. split; reflexivity.
Qed.

Lemma SFltb_zero_r (d : spec_float) : SFltb d (S754_zero false) = SFnegative d.
Proof. destruct d as [s|[|]| |[|] m e]; reflexivity. Qed.

Lemma SFltb_zero_l (d : spec_float) : SFltb (S754_zero false) d = SFpositive d.
Proof. destruct d as [s|[|]| |[|] m e]; reflexivity. Qed.

Lemma SFpositive_not_negative (d : spec_float) :
  SFpositive d = true -> SFnegative d = false.
Proof. destruct d as [s|[|]| |[|] m e]; simpl; congruence. Qed.

(** The sign of [y - x] tells how [x] and [y] compare, for numbers that are
    not NaN: the difference of two different numbers is never rounded to
    zero. *)
Lemma float_sub_sign (x y : float) :
  is_nan x = false -> is_nan y = false ->
  match (x ?= y)%float with
  | FLt => (y - x <? 0)%float = false /\ (0 <? y - x)%float = true
  | FGt => (y - x <? 0)%float = true
  | FEq => (y - x <? 0)%float = false /\ (0 <? y - x)%float = false
  | FNotComparable => False
  end.
Proof.
  unfold is_nan. rewrite !negb_false_iff, !FloatAxioms.eqb_spec.
  rewrite FloatAxioms.compare_spec, !FloatAxioms.ltb_spec, FloatAxioms.sub_spec.
  change (Prim2SF 0) with (S754_zero false).
  rewrite SFltb_zero_r, SFltb_zero_l.
  pose proof (SFsub_sign _ _ (Prim2SF_valid x) (Prim2SF_valid y)) as H.
  intros Hx Hy.
  destruct (SFcompare (Prim2SF x) (Prim2SF y)) as [[| |]|] eqn:Hc; simpl.
  - exact (conj (proj2 H) (proj1 H)).
  - split; [now apply SFpositive_not_negative|exact H].
  - exact H.
  - destruct (Prim2SF x) as [sx|sx| |sx mx ex], (Prim2SF y) as [sy|sy| |sy my ey];
      simpl in *; try discriminate.
Qed.

End Rounding.

(** ** The cosine similarity *)

Section Cosine.

Import Tokenize.

Lemma cosine_loop_split (n i : nat) (vecA vecB : list float) (d na nb : float) :
  cosine_loop n i vecA vecB d na nb =
  (dot_from n i vecA vecB d, squared_norm_from n i vecA na, squared_norm_from n i vecB nb).
Proof.
  revert i d na nb. induction n as [|n IH]; intros; simpl; [reflexivity|apply IH].
Qed.







End Cosine.



(** ** The ranking of a query *)

Section Ranking.

Import Tokenize.

(** The comparator of the handler orders two files the way their scores
    compare, when neither score is NaN. *)
Lemma by_score_desc_orders (a b : ScoredFile) :
  is_nan (score a) = false -> is_nan (score b) = false -> orders_pair a b = true.
Proof.
  intros Ha Hb. unfold orders_pair, sort_compare, by_score_desc.
  pose proof (float_sub_sign (score a) (score b) Ha Hb) as H.
  destruct (score a ?= score b)%float.
  - destruct H as [-> ->]. reflexivity.
  - destruct H as [-> ->]. reflexivity.
  - rewrite H. reflexivity.
  - destruct H.
Qed.

Lemma orders_before (a b : ScoredFile) :
  orders_pair a b = true -> sort_compare by_score_desc a b = Gt -> score_ge b a.
Proof.
  unfold orders_pair, score_ge. intros Ho Hc. rewrite Hc in Ho.
  destruct (score a ?= score b)%float eqn:Hcmp; try discriminate.
  rewrite FloatAxioms.leb_spec. unfold SFleb.
  now rewrite (float_compare_Lt _ _ Hcmp).
Qed.

Lemma orders_after (a b : ScoredFile) :
  orders_pair a b = true -> sort_compare by_score_desc a b <> Gt -> score_ge a b.
Proof.
  unfold orders_pair, score_ge. intros Ho Hc.
  rewrite FloatAxioms.leb_spec. unfold SFleb.
  destruct (score a ?= score b)%float eqn:Hcmp;
    destruct (sort_compare by_score_desc a b); try discriminate; try congruence.
  - now rewrite (SFcompare_Eq_sym _ _ (float_compare_Eq _ _ Hcmp)).
  - now rewrite (SFcompare_Gt_Lt _ _ (float_compare_Gt _ _ Hcmp)).
Qed.

Lemma orders_not_tied (a b : ScoredFile) (s : float) :
  orders_pair a b = true -> sort_compare by_score_desc a b = Gt ->
  (score a =? s)%float = true -> (score b =? s)%float = true -> False.
Proof.
  unfold orders_pair. intros Ho Hc. rewrite Hc in Ho.
  destruct (score a ?= score b)%float eqn:Hcmp; try discriminate.
  rewrite !FloatAxioms.eqb_spec. unfold SFeqb.
  destruct (SFcompare (Prim2SF (score a)) (Prim2SF s)) as [[| |]|] eqn:Ha; try discriminate.
  destruct (SFcompare (Prim2SF (score b)) (Prim2SF s)) as [[| |]|] eqn:Hb; try discriminate.
  intros _ _. exact (SFcompare_tie _ _ _ Ha Hb (float_compare_Lt _ _ Hcmp)).
Qed.

Lemma sort_insert_perm {A} (f : A -> A -> float) (x : A) (l : list A) :
  Permutation (sort_insert f x l) (x :: l).
Proof.
  induction l as [|y l IH]; simpl; [reflexivity|].
  destruct (sort_compare f x y); try reflexivity.
  rewrite IH. apply perm_swap.
Qed.

Lemma Array_sort_perm {A} (f : A -> A -> float) (l : list A) :
  Permutation (Array_sort f l) l.
Proof.
  induction l as [|x l IH]; simpl; [reflexivity|].
  rewrite sort_insert_perm. now constructor.
Qed.

Lemma sort_insert_sorted (x : ScoredFile) (l : list ScoredFile) :
  (forall a b, In a (x :: l) -> In b (x :: l) -> orders_pair a b = true) ->
  StronglySorted score_ge l ->
  StronglySorted score_ge (sort_insert by_score_desc x l).
Proof.
  intros Hord Hs. induction Hs as [|y l Hs IH Hy]; simpl.
  - repeat constructor.
  - assert (Hstay : sort_compare by_score_desc x y <> Gt ->
                    StronglySorted score_ge (x :: y :: l)).
    { intros Hc. constructor; [now constructor|].
      assert (Hxy : score_ge x y) by (apply orders_after; [apply Hord; simpl; auto|exact Hc]).
      constructor; [exact Hxy|].
      rewrite Forall_forall in *. intros z Hz. specialize (Hy z Hz).
      unfold score_ge in *. eapply float_leb_trans; eassumption. }
    destruct (sort_compare by_score_desc x y) eqn:Hc; try (apply Hstay; congruence).
    constructor.
    + apply IH. intros a b Ha Hb. apply Hord; simpl in *; tauto.
    + rewrite Forall_forall. intros z Hz. apply list_elem_of_In in Hz.
      apply (Permutation_in _ (sort_insert_perm by_score_desc x l)) in Hz.
      destruct Hz as [<-|Hz].
      * apply orders_before; [apply Hord; simpl; auto|exact Hc].
      * rewrite Forall_forall in Hy. apply Hy. now apply list_elem_of_In.
Qed.

Lemma Array_sort_sorted (l : list ScoredFile) :
  (forall a b, In a l -> In b l -> orders_pair a b = true) ->
  StronglySorted score_ge (Array_sort by_score_desc l).
Proof.
  induction l as [|x l IH]; intros Hord; simpl; [constructor|].
  apply sort_insert_sorted.
  - intros a b Ha Hb. apply Hord.
    + destruct Ha as [<-|Ha]; [now left|right].
      exact (Permutation_in _ (Array_sort_perm by_score_desc l) Ha).
    + destruct Hb as [<-|Hb]; [now left|right].
      exact (Permutation_in _ (Array_sort_perm by_score_desc l) Hb).
  - apply IH. intros a b Ha Hb. apply Hord; now right.
Qed.

Lemma tied_at_insert (s : float) (x : ScoredFile) (l : list ScoredFile) :
  (forall b, In b l -> orders_pair x b = true) ->
  tied_at s (sort_insert by_score_desc x l) = tied_at s (x :: l).
Proof.
  induction l as [|y l IH]; intros Hord; simpl; [reflexivity|].
  destruct (sort_compare by_score_desc x y) eqn:Hc; try reflexivity.
  unfold tied_at in *. simpl. rewrite IH by (intros b Hb; apply Hord; now right).
  simpl.
  destruct (score y =? s)%float eqn:Hy, (score x =? s)%float eqn:Hx; try reflexivity.
  exfalso. eapply orders_not_tied; [apply Hord; now left| |exact Hx|exact Hy]. exact Hc.
Qed.

Lemma tied_at_sort (s : float) (l : list ScoredFile) :
  (forall a b, In a l -> In b l -> orders_pair a b = true) ->
  tied_at s (Array_sort by_score_desc l) = tied_at s l.
Proof.
  induction l as [|x l IH]; intros Hord; simpl; [reflexivity|].
  rewrite tied_at_insert.
  - unfold tied_at in *. simpl. rewrite IH; [reflexivity|].
    intros a b Ha Hb. apply Hord; now right.
  - intros b Hb. apply Hord; [now left|right].
    exact (Permutation_in _ (Array_sort_perm by_score_desc l) Hb).
Qed.

(** C6, as the code has it: on a non-empty index, when no score is NaN, the
    handler answers with the first three entries (all of them when there
    are fewer) of the scored files sorted by descending score, entries of
    equal score keeping the order of the index; every entry carries all the
    fields of its record, the embedding included, and the score. *)
Theorem query_ranking (encoder : Encoder) (service : Service)
    (codeIndex : list CodeIndexRecord) (q : string) (queryEmbedding : list float) :
  codeIndex <> [] ->
  getEmbedding encoder service q = Returned queryEmbedding ->
  Forall (fun file => is_nan (cosineSimilarity queryEmbedding (embedding file)) = false)
         codeIndex ->
  exists sorted : list ScoredFile,
    POST encoder service (query_request q) codeIndex =
      (Some (json (Results (take topK sorted))), codeIndex) /\
    length (take topK sorted) = Nat.min topK (length codeIndex) /\
    Permutation sorted (map (score_file queryEmbedding) codeIndex) /\
    StronglySorted score_ge sorted /\
    (forall s : float,
       tied_at s sorted = tied_at s (map (score_file queryEmbedding) codeIndex)) /\
    Forall (fun r => exists file, In file codeIndex /\
                       sf_filePath r = rec_filePath file /\
                       sf_content r = rec_content file /\
                       sf_embedding r = embedding file /\
                       score r = cosineSimilarity queryEmbedding (embedding file))
           (take topK sorted).
Proof.
  intros Hne Hq Hnan.
  assert (Hpairs : forall a b,
            In a (map (score_file queryEmbedding) codeIndex) ->
            In b (map (score_file queryEmbedding) codeIndex) ->
            orders_pair a b = true).
  { rewrite Forall_forall in Hnan.
    intros a b Ha Hb. apply in_map_iff in Ha, Hb.
    destruct Ha as (fa & <- & Ha), Hb as (fb & <- & Hb).
    apply by_score_desc_orders; cbn [score score_file];
      apply Hnan; now apply list_elem_of_In. }
  exists (Array_sort by_score_desc (map (score_file queryEmbedding) codeIndex)).
  assert (Hperm := Array_sort_perm by_score_desc (map (score_file queryEmbedding) codeIndex)).
  repeat split.
  - unfold POST, query_request; simpl. rewrite Hq.
    destruct codeIndex; [congruence|]. reflexivity.
  - rewrite length_take, (Permutation_length Hperm), length_map. reflexivity.
  - exact Hperm.
  - now apply Array_sort_sorted.
  - intros s. now apply tied_at_sort.
  - rewrite Forall_forall. intros r Hr.
    assert (Hin : In r (map (score_file queryEmbedding) codeIndex)).
    { apply (Permutation_in _ Hperm).
      apply list_elem_of_In. exact (subseteq_take _ _ r Hr). }
    apply in_map_iff in Hin. destruct Hin as [file [<- Hfile]].
    exists file. repeat split; auto.
Qed.

End Ranking.

Lemma query_ranking_witness :
  exists sorted : list Tokenize.ScoredFile,
    Tokenize.POST Samples.char_encoder Samples.toy_service
        (Tokenize.query_request "a question") Samples.toy_index =
      (Some (Tokenize.json (Tokenize.Results (take 3 sorted))), Samples.toy_index) /\
    map Tokenize.sf_filePath (take 3 sorted) = ["one.py"; "three.py"; "four.py"] /\
    map Tokenize.score (take 3 sorted) = [1; 1; 0x1.3333333333333p-1]%float.
Proof.
  destruct (query_ranking Samples.char_encoder Samples.toy_service Samples.toy_index
              "a question" [1; 0]%float) as [sorted [Hpost _]].
  - discriminate.
  - reflexivity.
  - repeat constructor.
  - exists sorted. split; [exact Hpost|].
    assert (H : Tokenize.POST Samples.char_encoder Samples.toy_service
                  (Tokenize.query_request "a question") Samples.toy_index =
                (Some (Tokenize.json (Tokenize.Results
                   (take 3 (Tokenize.Array_sort Tokenize.by_score_desc
                      (map (Tokenize.score_file [1; 0]%float) Samples.toy_index))))),
                 Samples.toy_index)) by reflexivity.
    rewrite Hpost in H. injection H as H. unfold Tokenize.topK in H. rewrite H.
    split; reflexivity.
Defined.

(** Two indexes whose record differs in the embedding only answer the same
    query with entries that agree on the path, the content and the score and
    still differ: the entry carries the embedding.  And a record whose
    embedding is shorter than the embedding of the query has the score NaN:
    the two entries of the answer are then in descending order in neither
    order. *)
Lemma query_results_carry_embedding :
  (exists r1 r2 : Tokenize.ScoredFile,
     Tokenize.POST Samples.char_encoder Samples.toy_service
         (Tokenize.query_request "a question") [Samples.record "one.py" [1; 0]%float] =
       (Some (Tokenize.json (Tokenize.Results [r1])), [Samples.record "one.py" [1; 0]%float]) /\
     Tokenize.POST Samples.char_encoder Samples.toy_service
         (Tokenize.query_request "a question") [Samples.record "one.py" [2; 0]%float] =
       (Some (Tokenize.json (Tokenize.Results [r2])), [Samples.record "one.py" [2; 0]%float]) /\
     Tokenize.sf_filePath r1 = Tokenize.sf_filePath r2 /\
     Tokenize.sf_content r1 = Tokenize.sf_content r2 /\
     Tokenize.score r1 = Tokenize.score r2 /\
     Tokenize.sf_embedding r1 = [1; 0]%float /\
     Tokenize.sf_embedding r2 = [2; 0]%float /\
     r1 <> r2) /\
  (exists r1 r2 : Tokenize.ScoredFile,
     Tokenize.POST Samples.char_encoder Samples.toy_service
         (Tokenize.query_request "a question")
         [Samples.record "short.py" [1]%float; Samples.record "two.py" [0; 1]%float] =
       (Some (Tokenize.json (Tokenize.Results [r1; r2])),
        [Samples.record "short.py" [1]%float; Samples.record "two.py" [0; 1]%float]) /\
     is_nan (Tokenize.score r1) = true /\
     Tokenize.score r2 = 0%float /\
     ~ Tokenize.score_ge r1 r2 /\
     ~ Tokenize.score_ge r2 r1).
Proof.
  split.
  - eexists. eexists. repeat split; try reflexivity.
    intros H.
    apply (f_equal (fun r => match Tokenize.sf_embedding r with
                             | x :: _ => (x =? 1)%float
                             | [] => false
                             end)) in H.
    vm_compute in H. discriminate.
  - eexists. eexists. split; [reflexivity|].
    repeat split; try reflexivity; unfold Tokenize.score_ge; vm_compute; discriminate.
Qed.

(** ** Queries against an empty index *)

Section EmptyIndex.

Import Tokenize.

Variable encoder : Encoder.
Variable service : Service.

Lemma index_not_filled (resp : option Response) :
  index_succeeded resp = false -> index_filled resp = false.
Proof.
  destruct resp as [[st [e|m [|n]|r]]|]; simpl; congruence.
Qed.

(** A request changes [codeIndex] only by building an index; a build that
    reports no file leaves it empty. *)
Lemma POST_keeps_empty (request : Request) (resp : option Response)
    (codeIndex' : list CodeIndexRecord) :
  POST encoder service request [] = (resp, codeIndex') ->
  index_filled resp = false ->
  codeIndex' = [].
Proof.
  unfold POST.
  destruct (String.eqb (action request) "index").
  - destruct (files request) as [fs|]; [|now intros [= <- <-]].
    destruct (promise_all (map (index_file encoder service) fs)) as [newIndex|m|];
      intros [= <- <-]; try reflexivity.
    simpl. destruct newIndex; [reflexivity|discriminate].
  - destruct (String.eqb (action request) "query"); [|now intros [= <- <-]].
    destruct (query request); now intros [= <- <-].
Qed.

Lemma serve_keeps_empty (requests : list Request)
    (responses : list (option Response)) (final : list CodeIndexRecord) :
  serve encoder service requests [] = (responses, final) ->
  Forall (fun resp => index_filled resp = false) responses ->
  final = [].
Proof.
  revert responses final.
  induction requests as [|r rs IH]; intros responses final; simpl.
  - now intros [= <- <-].
  - destruct (POST encoder service r []) as [resp codeIndex'] eqn:Hpost.
    destruct (serve encoder service rs codeIndex') as [resps final'] eqn:Hserve.
    intros [= <- <-] Hall. inversion Hall as [|? ? Hresp Hrest]; subst.
    pose proof (POST_keeps_empty _ _ _ Hpost Hresp) as ->.
    eapply IH; eassumption.
Qed.

(** C7: as long as no index request has been answered with success, a query
    with a query string is answered with the NotIndexed error (status 400)
    and the index stays as it is. *)
Theorem query_before_index (requests : list Request)
    (responses : list (option Response)) (codeIndex : list CodeIndexRecord)
    (q : string) :
  serve encoder service requests initial_codeIndex = (responses, codeIndex) ->
  Forall (fun resp => index_succeeded resp = false) responses ->
  POST encoder service (query_request q) codeIndex = (Some NotIndexed, codeIndex).
Proof.
  intros Hserve Hnone.
  assert (Hempty : codeIndex = []).
  { eapply serve_keeps_empty; [exact Hserve|].
    eapply Forall_impl; [exact Hnone|]. intros resp. apply index_not_filled. }
  subst codeIndex. reflexivity.
Qed.

(** C10: an index request with an empty list of files is answered with the
    success message and a file count of 0 and leaves the index empty; from
    then on, until an index request is answered with a positive file count,
    every query with a query string is answered with the NotIndexed error. *)
Theorem empty_index_then_queries (codeIndex : list CodeIndexRecord) :
  POST encoder service (index_request []) codeIndex =
    (Some (json (IndexBuilt "Embedding index built successfully." 0)), []) /\
  index_succeeded (fst (POST encoder service (index_request []) codeIndex)) = true /\
  forall (requests : list Request) (responses : list (option Response))
         (final : list CodeIndexRecord) (q : string),
    serve encoder service requests (snd (POST encoder service (index_request []) codeIndex))
      = (responses, final) ->
    Forall (fun resp => index_filled resp = false) responses ->
    POST encoder service (query_request q) final = (Some NotIndexed, final).
Proof.
  split; [reflexivity|]. split; [reflexivity|].
  intros requests responses final q Hserve Hall.
  change (snd (POST encoder service (index_request []) codeIndex)) with (@nil CodeIndexRecord)
    in Hserve.
  pose proof (serve_keeps_empty _ _ _ Hserve Hall) as ->.
  reflexivity.
Qed.

End EmptyIndex.

Lemma query_before_index_witness :
  Tokenize.POST Samples.char_encoder Samples.toy_service
    (Tokenize.query_request "where is main") [] = (Some Tokenize.NotIndexed, []).
Proof.
  apply (query_before_index Samples.char_encoder Samples.toy_service
           [ Tokenize.query_request "first";
             {| Tokenize.action := "index"; Tokenize.files := None; Tokenize.query := None |};
             {| Tokenize.action := "reset"; Tokenize.files := None; Tokenize.query := None |} ]
           [ Some Tokenize.NotIndexed;
             Some (Tokenize.json_status
                     (Tokenize.ErrorBody "Files array is required for indexing.") 400);
             Some (Tokenize.json_status
                     (Tokenize.ErrorBody "Invalid action. Use 'index' or 'query'.") 400) ]).
  - reflexivity.
  - repeat constructor.
Defined.

Lemma empty_index_then_queries_witness :
  Tokenize.POST Samples.char_encoder Samples.toy_service
    (Tokenize.query_request "where is main") [] = (Some Tokenize.NotIndexed, []).
Proof.
  apply (proj2 (proj2 (empty_index_then_queries Samples.char_encoder Samples.toy_service
                         Samples.toy_index))
           [ Tokenize.query_request "first"; Tokenize.index_request [] ]
           [ Some Tokenize.NotIndexed;
             Some (Tokenize.json
                     (Tokenize.IndexBuilt "Embedding index built successfully." 0)) ]).
  - reflexivity.
  - repeat constructor.
Defined.

(** ** The sandbox runner *)

Section Sandbox.

Import CodeFix.


End Sandbox.



(** ** The repair loop *)

Section RepairLoop.

Import CodeFix.

Variables prompt reasoningEffort : string.

(** Case analysis over the branches of the loop body. *)
Ltac branches :=
  repeat match goal with
         | |- context [match ?x with _ => _ end] =>
             lazymatch x with
             | context [match _ with _ => _ end] => fail
             | _ => destruct x eqn:?
             end
         end.

Ltac open_body :=
  unfold loop_body, download_branch, run_branch, after_failure, caught, push_tool.

Lemma chatMessages_push_tool (c : Content) (i : string) (st : State) :
  chatMessages (push_tool c i st) = chatMessages st ++ result_turn c i.
Proof.
  destruct i; simpl; [now rewrite app_nil_r|reflexivity].
Qed.

(** An iteration leaves the counter alone or adds one to it, and only a
    passing test run sets [successfulCode]. *)
Lemma loop_body_attempt (w : Iteration) (st : State) :
  let '(ctl, st') := loop_body prompt reasoningEffort w st in
  attempt st <= attempt st' <= S (attempt st) /\
  (ctl = Break -> attempt st' = attempt st) /\
  (ctl = Continue -> successfulCode st' = successfulCode st).
Proof.
  open_body. branches; simpl; repeat split; try lia; congruence.
Qed.

(** C2: when the tests fail and the output names a missing module [d], the
    iteration calls the installer for [d] right after the test run, with no
    request to the reasoning service in between, and goes back to the head
    of the loop.  After a successful installation the counter is what it
    was and the retry prompt is the last turn; after a failed one the
    counter is one more. *)
Theorem missing_dependency_recovery (w : Iteration) (st : State)
    (toolCall : ToolCall) (params : Params) (tests : list string) (d : string) :
  completion w = ApiMessage (Some toolCall) ->
  name toolCall = "run_python_code" ->
  arguments toolCall = Object params ->
  testCases params = inr tests ->
  success (sandbox w) = false ->
  missingDepMatch (output (sandbox w)) = Some d ->
  exists st' : State,
    loop_body prompt reasoningEffort w st = (Continue, st') /\
    calls st' = calls st ++ [sent reasoningEffort st; RunTests (code params) tests; Install d] /\
    successfulCode st' = successfulCode st /\
    (forall world : list Iteration,
       guard st = true ->
       loop prompt reasoningEffort (w :: world) st = loop prompt reasoningEffort world st') /\
    (success (install w) = true ->
       attempt st' = attempt st /\
       chatMessages st' =
         chatMessages st ++ result_turn (JsonResult (sandbox w)) (id toolCall) ++
         [user_message ("Dependency " +:+ d +:+
            " installed successfully. Please retry generating the code fix.")]) /\
    (success (install w) = false ->
       attempt st' = S (attempt st) /\
       chatMessages st' =
         chatMessages st ++ result_turn (JsonResult (sandbox w)) (id toolCall) ++
         [user_message ("Failed to install dependency " +:+ d +:+ ": " +:+
            output (install w) +:+ ". Please check the installation.")]).
Proof.
  intros Hc Hn Ha Ht Hs Hd.
  assert (Hbody : loop_body prompt reasoningEffort w st =
            after_failure prompt w (code params) (sandbox w)
              (push_tool (JsonResult (sandbox w)) (id toolCall)
                 (call (RunTests (code params) tests)
                    (yield RunningTests
                       (call (sent reasoningEffort st) (yield (AttemptStarted (attempt st + 1)) st)))))).
  { unfold loop_body, run_branch. rewrite Hc, Hn, Ha, Ht, Hs. reflexivity. }
  unfold after_failure in Hbody. rewrite Hd in Hbody.
  destruct (success (install w)) eqn:Hi; eexists; (split; [exact Hbody|]);
    (split; [destruct (id toolCall); simpl; rewrite <- ?app_assoc; reflexivity|]);
    (split; [destruct (id toolCall); reflexivity|]);
    (split; [intros world Hg; cbn [loop]; rewrite Hg, Hbody; reflexivity|]);
    split; intros Hi'; try discriminate;
    (split; [destruct (id toolCall); reflexivity|]);
    simpl; rewrite chatMessages_push_tool; simpl; now rewrite <- app_assoc.
Qed.

(** *** The attempt counter *)

Lemma guard_true (st : State) :
  guard st = true -> attempt st < maxAttempts /\ truthy (successfulCode st) = false.
Proof.
  unfold guard. rewrite andb_true_iff, negb_true_iff.
  intros [H1 H2]. apply Nat.ltb_lt in H1. auto.
Qed.

Lemma guard_ceiling (st : State) :
  attempt st = maxAttempts -> guard st = false.
Proof.
  unfold guard. intros ->. reflexivity.
Qed.

Lemma loop_stopped (world : list Iteration) (st : State) :
  guard st = false -> loop prompt reasoningEffort world st = Finished st world.
Proof.
  intros Hg. destruct world; simpl; now rewrite Hg.
Qed.

Lemma loop_in_budget (world : list Iteration) (st : State) :
  attempt st <= maxAttempts -> successfulCode st = None ->
  in_budget (loop prompt reasoningEffort world st).
Proof.
  revert st. induction world as [|w world IH]; intros st Hle Hnone; simpl.
  - destruct (guard st) eqn:Hg; simpl.
    + apply guard_true in Hg. tauto.
    + auto.
  - destruct (guard st) eqn:Hg; simpl; [|auto].
    apply guard_true in Hg. destruct Hg as [Hlt _].
    pose proof (loop_body_attempt w st) as Hbody.
    destruct (loop_body prompt reasoningEffort w st) as [[|] st'].
    + destruct Hbody as (Hatt & _ & Hcode). apply IH; [lia|].
      rewrite Hcode by reflexivity. exact Hnone.
    + destruct Hbody as (_ & Hatt & _). simpl.
      rewrite Hatt by reflexivity. split; lia.
Qed.

(** A finished run ignores whatever else the world would have answered. *)
Lemma loop_finished_app (world more : list Iteration) (st st' : State)
    (unused : list Iteration) :
  loop prompt reasoningEffort world st = Finished st' unused ->
  loop prompt reasoningEffort (world ++ more) st = Finished st' (unused ++ more).
Proof.
  revert st. induction world as [|w world IH]; intros st; simpl.
  - destruct (guard st) eqn:Hg; [discriminate|].
    intros [= <- <-]. now apply loop_stopped.
  - destruct (guard st); [|now intros [= <- <-]].
    destruct (loop_body prompt reasoningEffort w st) as [[|] st1].
    + apply IH.
    + now intros [= <- <-].
Qed.

Lemma outcome_of_failed (st : State) :
  outcome_of (yield (FailedAfter maxAttempts) st) = Some Failure.
Proof.
  unfold outcome_of. simpl. now rewrite last_snoc.
Qed.

Lemma completions_call (c : Call) (st : State) :
  completions (call c st) = completions st + (if is_completion c then 1 else 0).
Proof.
  unfold completions. simpl. rewrite List.filter_app, length_app. simpl.
  destruct (is_completion c); reflexivity.
Qed.

(** A plain test failure costs one attempt and one request to the service. *)
Lemma plain_failure_step (w : Iteration) (st : State) :
  plain_test_failure w = true ->
  exists st' : State,
    loop_body prompt reasoningEffort w st = (Continue, st') /\
    attempt st' = S (attempt st) /\
    successfulCode st' = successfulCode st /\
    completions st' = S (completions st).
Proof.
  unfold plain_test_failure.
  destruct (completion w) as [|[toolCall|]] eqn:Hc; try discriminate.
  rewrite andb_true_iff. intros [Hn Hrest].
  apply String.eqb_eq in Hn.
  destruct (arguments toolCall) as [| |params] eqn:Ha; try discriminate.
  destruct (testCases params) as [m|tests] eqn:Ht; try discriminate.
  apply andb_true_iff in Hrest. destruct Hrest as [Hs Hd].
  apply negb_true_iff in Hs.
  destruct (missingDepMatch (output (sandbox w))) eqn:Hm; try discriminate.
  eexists. split.
  - unfold loop_body, run_branch, after_failure.
    rewrite Hc, Hn, Ha, Ht, Hs, Hm. reflexivity.
  - repeat split; try (destruct (id toolCall); reflexivity).
    unfold completions. destruct (id toolCall); simpl;
      rewrite !List.filter_app, !length_app; simpl; lia.
Qed.

Lemma plain_failures (world : list Iteration) (st : State) :
  forallb plain_test_failure world = true ->
  attempt st + length world <= maxAttempts ->
  successfulCode st = None ->
  exists st' : State,
    (forall more, loop prompt reasoningEffort (world ++ more) st =
                  loop prompt reasoningEffort more st') /\
    attempt st' = attempt st + length world /\
    successfulCode st' = None /\
    completions st' = completions st + length world.
Proof.
  revert st. induction world as [|w world IH]; intros st Hall Hle Hnone.
  - exists st. simpl. repeat split; auto.
  - simpl in Hall, Hle. apply andb_true_iff in Hall. destruct Hall as [Hw Hall].
    destruct (plain_failure_step w st Hw) as (st1 & Hbody & Hatt & Hcode & Hcomp).
    destruct (IH st1 Hall) as (st' & Hloop & Hatt' & Hcode' & Hcomp');
      [lia|congruence|].
    exists st'. repeat split; simpl; try lia; auto.
    intros more.
    assert (Hg : guard st = true).
    { unfold guard. rewrite Hnone. simpl. rewrite andb_true_r. apply Nat.ltb_lt. lia. }
    rewrite Hg, Hbody. apply Hloop.
Qed.

(** C1: the counter never leaves [0, 5]; a run whose counter has reached 5
    has finished with the exhaustion message as its last event, whatever
    else the world would have answered, so it sends nothing more to the
    reasoning service; and five plain test failures in a row end the run
    with Failure after five increments and five requests. *)
Theorem attempt_budget (world : list Iteration) :
  let r := streamFixProcess prompt reasoningEffort world in
  0 <= attempt (state_of r) <= maxAttempts /\
  (attempt (state_of r) = maxAttempts ->
     exists (st : State) (unused : list Iteration),
       r = Finished st unused /\
       successfulCode st = None /\
       last (yielded st) = Some (FailedAfter maxAttempts) /\
       outcome_of st = Some Failure /\
       forall more : list Iteration,
         streamFixProcess prompt reasoningEffort (world ++ more) =
           Finished st (unused ++ more)) /\
  (forall (st : State) (more : list Iteration),
     attempt st = maxAttempts -> truthy (successfulCode st) = false ->
     streamFixProcess_from prompt reasoningEffort more st =
       Finished (yield (FailedAfter maxAttempts) st) more) /\
  (length world = maxAttempts -> forallb plain_test_failure world = true ->
     forall more : list Iteration,
       exists st : State,
         streamFixProcess prompt reasoningEffort (world ++ more) = Finished st more /\
         attempt st = maxAttempts /\
         outcome_of st = Some Failure /\
         completions st = maxAttempts).
Proof.
  cbv zeta. unfold streamFixProcess, streamFixProcess_from.
  pose proof (loop_in_budget world (initial prompt)) as Hbudget.
  specialize (Hbudget ltac:(simpl; unfold maxAttempts; lia) eq_refl).
  split; [|split; [|split]].
  - destruct (loop prompt reasoningEffort world (initial prompt)) as [st unused|st];
      simpl in *; [|lia].
    unfold conclude. destruct (negb (truthy (successfulCode st))); simpl; lia.
  - destruct (loop prompt reasoningEffort world (initial prompt)) as [st unused|st] eqn:Hloop;
      simpl in *; [|lia].
    intros Hatt.
    assert (Hatt' : attempt st = maxAttempts).
    { revert Hatt. unfold conclude.
      destruct (negb (truthy (successfulCode st))); simpl; auto. }
    destruct Hbudget as [_ Hnone]. specialize (Hnone Hatt').
    assert (Hconc : conclude st = yield (FailedAfter maxAttempts) st).
    { unfold conclude. now rewrite Hnone. }
    exists (conclude st), unused. rewrite Hconc.
    repeat split; auto.
    + simpl. apply last_snoc.
    + apply outcome_of_failed.
    + intros more. rewrite (loop_finished_app _ more _ _ _ Hloop). simpl.
      now rewrite Hconc.
  - intros st more Hatt Hfalsy.
    rewrite loop_stopped by now apply guard_ceiling.
    simpl. unfold conclude. now rewrite Hfalsy.
  - intros Hlen Hall more.
    destruct (plain_failures world (initial prompt) Hall) as (st & Hloop & Hatt & Hcode & Hcomp);
      [simpl; lia|reflexivity|].
    simpl in Hatt, Hcomp. rewrite Hlen in Hatt, Hcomp.
    exists (yield (FailedAfter maxAttempts) st).
    rewrite Hloop, loop_stopped by now apply guard_ceiling.
    simpl. unfold conclude. rewrite Hcode. simpl.
    repeat split; auto. apply outcome_of_failed.
Qed.

(** *** The turns of the conversation *)

Ltac solve_added :=
  first [ reflexivity
        | rewrite <- !app_assoc; reflexivity
        | symmetry; apply app_nil_r ].

(** What one iteration adds: turns that are not assistant turns, among them
    one tool turn with the id of the request when [gets_result] holds and
    none otherwise, and calls that start with the one request to the
    service. *)
Lemma loop_body_turns (w : Iteration) (st : State) :
  exists (added : list Message) (rest : list Call),
    chatMessages (snd (loop_body prompt reasoningEffort w st)) = chatMessages st ++ added /\
    calls (snd (loop_body prompt reasoningEffort w st)) = calls st ++ sent reasoningEffort st :: rest /\
    Forall (fun m => is_assistant m = false) added /\
    Forall (fun c => is_completion c = false) rest /\
    match completion w with
    | ApiMessage (Some toolCall) =>
        if gets_result toolCall
        then exists c : Content, List.filter is_tool added = [tool_message c (id toolCall)]
        else List.filter is_tool added = []
    | _ => List.filter is_tool added = []
    end.
Proof.
  open_body. unfold gets_result. branches; simpl;
    eexists; eexists;
    (split; [solve_added|]);
    (split; [solve_added|]);
    (split; [repeat constructor|]);
    (split; [repeat constructor|]);
    try discriminate; try reflexivity; try (eexists; reflexivity).
Qed.

Lemma filter_not_tool_users (msgs : list Message) :
  Forall (fun m => is_assistant m = false) msgs ->
  Forall (fun m => role m = user)
    (List.filter (fun msg => negb (Role_eqb (role msg) tool)) msgs).
Proof.
  induction 1 as [|m msgs Hm _ IH]; simpl; [constructor|].
  destruct m as [[| |] c i tc]; simpl in *; try discriminate; auto.
Qed.

Lemma loop_body_threaded (w : Iteration) (st : State) :
  threaded st -> threaded (snd (loop_body prompt reasoningEffort w st)).
Proof.
  intros [Hmsgs Hcalls]. unfold threaded.
  destruct (loop_body_turns w st) as (added & rest & Hm & Hc & Hadded & Hrest & _).
  rewrite Hm, Hc. split.
  - apply Forall_app. auto.
  - apply Forall_app. split; [exact Hcalls|].
    constructor; [now apply filter_not_tool_users|].
    eapply Forall_impl; [exact Hrest|].
    intros [eff msgs| |]; simpl; auto; discriminate.
Qed.

Lemma loop_threaded (world : list Iteration) (st : State) :
  threaded st -> threaded (state_of (loop prompt reasoningEffort world st)).
Proof.
  revert st. induction world as [|w world IH]; intros st Hst; simpl.
  - destruct (guard st); exact Hst.
  - destruct (guard st); [|exact Hst].
    pose proof (loop_body_threaded w st Hst) as Hnext.
    destruct (loop_body prompt reasoningEffort w st) as [[|] st']; simpl in *; auto.
Qed.

(** C3, as the code has it: the conversation of a run never holds an
    assistant turn, and what is sent to the reasoning service holds user
    turns only (tool turns are filtered out).  Within one iteration the
    request to the service is the first call and the only one of its kind;
    the turns the iteration appends hold exactly one tool turn, carrying the
    id of the request that the service returned, when that request has an
    id, names [run_python_code] or [download_dependency] and its arguments
    fail to parse or parse to a value the call goes through with, and no
    tool turn in every other case. *)
Theorem result_turns :
  (forall world : list Iteration,
     let st := state_of (streamFixProcess prompt reasoningEffort world) in
     Forall (fun m => is_assistant m = false) (chatMessages st) /\
     Forall users_only (calls st)) /\
  (forall (w : Iteration) (st : State),
     exists (added : list Message) (rest : list Call),
       chatMessages (snd (loop_body prompt reasoningEffort w st)) = chatMessages st ++ added /\
       calls (snd (loop_body prompt reasoningEffort w st)) = calls st ++ sent reasoningEffort st :: rest /\
       Forall (fun m => is_assistant m = false) added /\
       Forall (fun c => is_completion c = false) rest /\
       match completion w with
       | ApiMessage (Some toolCall) =>
           if gets_result toolCall
           then exists c : Content,
                  List.filter is_tool added = [tool_message c (id toolCall)]
           else List.filter is_tool added = []
       | _ => List.filter is_tool added = []
       end).
Proof.
  split; [|exact loop_body_turns].
  intros world. cbv zeta. unfold streamFixProcess, streamFixProcess_from.
  assert (Hinit : threaded (initial prompt)).
  { split; simpl; repeat constructor. }
  pose proof (loop_threaded world _ Hinit) as Hrun.
  destruct (loop prompt reasoningEffort world (initial prompt)) as [st unused|st];
    simpl in *; [|exact Hrun].
  unfold conclude. destruct (negb (truthy (successfulCode st))); exact Hrun.
Qed.

End RepairLoop.

Example missingDepMatch_sample :
  CodeFix.missingDepMatch
    ("Traceback (most recent call last):" +:+ newline +:+
     "ModuleNotFoundError: No module named 'foo'" +:+ newline) = Some "foo" /\
  CodeFix.missingDepMatch "ModuleNotFoundError: No module named 'foo" = None /\
  CodeFix.missingDepMatch "ModuleNotFoundError: No module named ''" = None /\
  CodeFix.missingDepMatch "TEST_FAILED division by zero" = None.
Proof. repeat split; reflexivity. Qed.

Lemma missing_dependency_recovery_witness :
  exists st' : CodeFix.State,
    CodeFix.loop_body "fix it" "high" (Samples.missing_foo true) (CodeFix.initial "fix it")
      = (CodeFix.Continue, st') /\
    CodeFix.attempt st' = 0 /\
    last (CodeFix.chatMessages st') =
      Some (CodeFix.user_message
              "Dependency foo installed successfully. Please retry generating the code fix.") /\
    last (CodeFix.calls st') = Some (CodeFix.Install "foo").
Proof.
  destruct (missing_dependency_recovery "fix it" "high" (Samples.missing_foo true)
              (CodeFix.initial "fix it") _ Samples.fix_params ["assert x == 2"] "foo"
              eq_refl eq_refl eq_refl eq_refl eq_refl eq_refl)
    as (st' & Hbody & Hcalls & _ & _ & Hok & _).
  destruct (Hok eq_refl) as [Hatt Hmsgs].
  exists st'. split; [exact Hbody|]. split; [exact Hatt|].
  rewrite Hmsgs, Hcalls. split; reflexivity.
Defined.

Lemma attempt_budget_witness :
  exists st : CodeFix.State,
    CodeFix.streamFixProcess "fix it" "high"
        (repeat Samples.failing_tests 5 ++ [Samples.asks_install]) =
      CodeFix.Finished st [Samples.asks_install] /\
    CodeFix.attempt st = 5 /\
    CodeFix.outcome_of st = Some CodeFix.Failure /\
    CodeFix.completions st = 5.
Proof.
  apply (proj2 (proj2 (proj2
    (attempt_budget "fix it" "high" (repeat Samples.failing_tests 5))))).
  - reflexivity.
  - reflexivity.
Defined.

(** After the service asked for an installation, the conversation holds a
    tool turn and no assistant turn before it; and a request for a tool that
    does not exist is followed by no result turn at all. *)
Lemma tool_turn_without_request :
  let st := CodeFix.state_of
              (CodeFix.streamFixProcess "fix it" "high" [Samples.asks_install]) in
  let st2 := CodeFix.state_of
               (CodeFix.streamFixProcess "fix it" "high" [Samples.asks_unknown]) in
  CodeFix.chatMessages st =
    [ CodeFix.user_message "fix it";
      CodeFix.tool_message (CodeFix.JsonResult Samples.ok_result) "call_3";
      CodeFix.user_message
        "Successfully installed dependency requests. Please regenerate the code fix if necessary." ] /\
  CodeFix.answers_requests [] (CodeFix.chatMessages st) = false /\
  CodeFix.results_for "call_4" (CodeFix.chatMessages st2) = [] /\
  CodeFix.completions st2 = 1.
Proof. repeat split; reflexivity. Qed.

(* ===================================================================== *)
(** * Part III: further properties of the two routes                       *)
(* ===================================================================== *)

(** ** NaN *)

Section NotANumber.

Lemma nan_spec : Prim2SF nan = S754_nan.
Proof. reflexivity. Qed.

Lemma float_add_nan_r (x : float) : (x + nan)%float = nan.
Proof.
  apply Prim2SF_inj. rewrite FloatAxioms.add_spec, nan_spec.
  destruct (Prim2SF x); reflexivity.
Qed.

Lemma float_add_nan_l (x : float) : (nan + x)%float = nan.
Proof.
  apply Prim2SF_inj. rewrite FloatAxioms.add_spec, nan_spec. reflexivity.
Qed.

Lemma float_mul_nan_r (x : float) : (x * nan)%float = nan.
Proof.
  apply Prim2SF_inj. rewrite FloatAxioms.mul_spec, nan_spec.
  destruct (Prim2SF x); reflexivity.
Qed.

Lemma float_div_nan_l (x : float) : (nan / x)%float = nan.
Proof.
  apply Prim2SF_inj. rewrite FloatAxioms.div_spec, nan_spec. reflexivity.
Qed.

End NotANumber.

(** ** Vectors of different lengths *)

Section LengthMismatch.

Import Tokenize.

Lemma at_index_take (v : list float) (n i : nat) :
  i < n -> at_index (take n v) i = at_index v i.
Proof.
  unfold at_index. revert n i. induction v as [|x v IH]; intros [|n] [|i] Hi; simpl;
    try lia; try reflexivity.
  apply IH. lia.
Qed.

Lemma at_index_beyond (v : list float) (i : nat) :
  length v <= i -> at_index v i = nan.
Proof. intros Hi. unfold at_index. now apply nth_overflow. Qed.

(** The loop reads the second vector at the indices of the first only. *)
Lemma cosine_loop_ext (n i : nat) (vecA vecB vecB' : list float) (d na nb : float) :
  (forall j, i <= j < i + n -> at_index vecB j = at_index vecB' j) ->
  cosine_loop n i vecA vecB d na nb = cosine_loop n i vecA vecB' d na nb.
Proof.
  revert i d na nb. induction n as [|n IH]; intros i d na nb Hext; simpl; [reflexivity|].
  rewrite (Hext i) by lia. apply IH. intros j Hj. apply Hext. lia.
Qed.

(** Once an accumulator is NaN it stays NaN. *)
Lemma squared_norm_from_nan (n i : nat) (v : list float) :
  squared_norm_from n i v nan = nan.
Proof.
  revert i. induction n as [|n IH]; intros i; simpl; [reflexivity|].
  rewrite float_add_nan_l. apply IH.
Qed.

Lemma dot_from_nan (n i : nat) (vecA vecB : list float) :
  dot_from n i vecA vecB nan = nan.
Proof.
  revert i. induction n as [|n IH]; intros i; simpl; [reflexivity|].
  rewrite float_add_nan_l. apply IH.
Qed.

(** Reading past the end of the vector turns the accumulator into NaN. *)
Lemma squared_norm_from_short (n i : nat) (v : list float) (acc : float) :
  i <= length v < i + n -> squared_norm_from n i v acc = nan.
Proof.
  revert i acc. induction n as [|n IH]; intros i acc Hi; simpl; [lia|].
  destruct (Nat.eq_dec i (length v)) as [->|Hne].
  - rewrite at_index_beyond by lia.
    rewrite float_mul_nan_r, float_add_nan_r. apply squared_norm_from_nan.
  - apply IH. lia.
Qed.

Lemma dot_from_short (n i : nat) (vecA vecB : list float) (acc : float) :
  i <= length vecB < i + n -> dot_from n i vecA vecB acc = nan.
Proof.
  revert i acc. induction n as [|n IH]; intros i acc Hi; simpl; [lia|].
  destruct (Nat.eq_dec i (length vecB)) as [->|Hne].
  - rewrite (at_index_beyond vecB) by lia.
    rewrite float_mul_nan_r, float_add_nan_r. apply dot_from_nan.
  - apply IH. lia.
Qed.

(** X1: [cosineSimilarity] walks the indices of its first argument.  What
    the second vector holds beyond them is ignored; when the second vector
    is the shorter one, the entries it lacks read as [undefined], and the
    result is NaN unless the squared norm of the first vector is zero, in
    which case it is 0. *)
Theorem cosineSimilarity_length_mismatch (vecA vecB : list float) :
  (length vecA <= length vecB ->
     cosineSimilarity vecA vecB = cosineSimilarity vecA (take (length vecA) vecB)) /\
  (length vecB < length vecA ->
     cosineSimilarity vecA vecB =
       if is_zero (squared_norm vecA) then 0%float else nan).
Proof.
  split.
  - intros _. unfold cosineSimilarity.
    rewrite (cosine_loop_ext _ _ vecA vecB (take (length vecA) vecB)); [reflexivity|].
    intros j Hj. symmetry. apply at_index_take. lia.
  - intros Hlt. unfold cosineSimilarity.
    rewrite cosine_loop_split.
    rewrite (squared_norm_from_short _ _ vecB) by lia.
    rewrite (dot_from_short _ _ vecA vecB) by lia.
    fold (squared_norm vecA). unfold is_zero.
    destruct (squared_norm vecA =? 0)%float; [reflexivity|].
    simpl. apply float_div_nan_l.
Qed.

End LengthMismatch.

Lemma cosineSimilarity_length_mismatch_witness :
  Tokenize.cosineSimilarity [3; 4]%float [3; 4; 100]%float =
    Tokenize.cosineSimilarity [3; 4]%float [3; 4]%float /\
  Tokenize.cosineSimilarity [3; 4]%float [3]%float = nan.
Proof.
  split.
  - apply (proj1 (cosineSimilarity_length_mismatch [3; 4]%float [3; 4; 100]%float)).
    simpl. lia.
  - rewrite (proj2 (cosineSimilarity_length_mismatch [3; 4]%float [3]%float))
      by (simpl; lia).
    reflexivity.
Defined.

(** ** The average of the chunk embeddings *)

Section Average.

Import Tokenize.

Lemma length_add_into (result e : list float) :
  length (add_into result e) = length result.
Proof. unfold add_into. apply length_imap. Qed.

Lemma length_fold_add_into (es : list (list float)) (result : list float) :
  length (fold_left add_into es result) = length result.
Proof.
  revert result. induction es as [|e es IH]; intros result; simpl; [reflexivity|].
  now rewrite IH, length_add_into.
Qed.

Lemma at_index_lookup (v : list float) (i : nat) :
  at_index v i = default nan (v !! i).
Proof. unfold at_index. apply nth_lookup. Qed.

Lemma at_index_add_into (result e : list float) (i : nat) :
  i < length result ->
  at_index (add_into result e) i = (at_index result i + at_index e i)%float.
Proof.
  intros Hi. rewrite !at_index_lookup. unfold add_into.
  rewrite list_lookup_imap.
  destruct (lookup_lt_is_Some_2 result i Hi) as [r Hr]. rewrite Hr. simpl.
  now rewrite <- at_index_lookup.
Qed.

(** Entry [i] of the running sums is the running sum of the entries [i]. *)
Lemma at_index_fold_add_into (es : list (list float)) (result : list float) (i : nat) :
  i < length result ->
  at_index (fold_left add_into es result) i =
  fold_left (fun acc e => (acc + at_index e i)%float) es (at_index result i).
Proof.
  revert result. induction es as [|e es IH]; intros result Hi; simpl; [reflexivity|].
  rewrite IH by now rewrite length_add_into.
  now rewrite at_index_add_into.
Qed.

Lemma fold_add_nan (es : list (list float)) (i : nat) :
  fold_left (fun acc e => (acc + at_index e i)%float) es nan = nan.
Proof.
  induction es as [|e es IH]; simpl; [reflexivity|].
  now rewrite float_add_nan_l.
Qed.

Lemma fold_add_short (es : list (list float)) (e : list float) (i : nat) (acc : float) :
  In e es -> length e <= i ->
  fold_left (fun acc e => (acc + at_index e i)%float) es acc = nan.
Proof.
  revert acc. induction es as [|e' es IH]; intros acc Hin Hlen; simpl; [destruct Hin|].
  destruct Hin as [->|Hin].
  - rewrite (at_index_beyond e) by exact Hlen.
    rewrite float_add_nan_r. apply fold_add_nan.
  - now apply IH.
Qed.

Lemma at_index_map (f : float -> float) (v : list float) (i : nat) :
  i < length v -> at_index (map f v) i = f (at_index v i).
Proof.
  intros Hi. rewrite !at_index_lookup, list_lookup_fmap.
  destruct (lookup_lt_is_Some_2 v i Hi) as [r Hr]. now rewrite Hr.
Qed.

Lemma at_index_repeat_zero (n i : nat) :
  i < n -> at_index (repeat 0%float n) i = 0%float.
Proof.
  intros Hi. unfold at_index. revert i Hi.
  induction n as [|n IH]; intros [|i] Hi; simpl; try lia; try reflexivity.
  apply IH. lia.
Qed.

(** X2: [averageEmbeddings] returns a vector as long as the first embedding,
    whatever the lengths of the others (and the empty vector for no
    embedding).  Its entry [i] is the sum of the entries [i], taken in
    order from 0, divided by the number of embeddings, every embedding
    weighing the same; an embedding too short to have an entry [i] makes
    that entry NaN. *)
Theorem averageEmbeddings_entries (es : list (list float)) :
  length (averageEmbeddings es) = length (default [] (head es)) /\
  (forall i : nat, i < length (default [] (head es)) ->
     at_index (averageEmbeddings es) i =
       (fold_left (fun acc e => (acc + at_index e i)%float) es 0 /
        number_of_nat (length es))%float) /\
  (forall (i : nat) (e : list float),
     i < length (default [] (head es)) -> In e es -> length e <= i ->
     at_index (averageEmbeddings es) i = nan).
Proof.
  destruct es as [|first es]; [repeat split; simpl; intros; lia|].
  assert (Hentry : forall i, i < length first ->
            at_index (averageEmbeddings (first :: es)) i =
            (fold_left (fun acc e => (acc + at_index e i)%float) (first :: es) 0 /
             number_of_nat (length (first :: es)))%float).
  { intros i Hi. unfold averageEmbeddings.
    rewrite at_index_map by (rewrite length_fold_add_into, repeat_length; exact Hi).
    rewrite at_index_fold_add_into by (rewrite repeat_length; exact Hi).
    now rewrite at_index_repeat_zero. }
  split; [|split].
  - unfold averageEmbeddings. simpl head. simpl default.
    now rewrite length_map, length_fold_add_into, repeat_length.
  - exact Hentry.
  - intros i e Hi Hin Hlen. simpl in Hi. rewrite Hentry by exact Hi.
    rewrite (fold_add_short _ e) by assumption.
    apply float_div_nan_l.
Qed.

End Average.

Lemma averageEmbeddings_entries_witness :
  Tokenize.at_index (Tokenize.averageEmbeddings [[1; 2]; [3]; [5; 6]]%float) 0 = 3%float /\
  Tokenize.at_index (Tokenize.averageEmbeddings [[1; 2]; [3]; [5; 6]]%float) 1 = nan.
Proof.
  split.
  - rewrite (proj1 (proj2 (averageEmbeddings_entries [[1; 2]; [3]; [5; 6]]%float)) 0)
      by (simpl; lia).
    reflexivity.
  - apply (proj2 (proj2 (averageEmbeddings_entries [[1; 2]; [3]; [5; 6]]%float))
             1 [3]%float).
    + simpl. lia.
    + simpl. auto.
    + simpl. lia.
Defined.

(** ** The effort of the embedding client *)

Section ClientEffort.

Import Tokenize.

(** X3: whatever the service does, a call of [fetchEmbedding] sends at most
    six requests, sleeps once between two consecutive requests, and sleeps
    15.5 seconds at most in total; a call that returns after [k] retries has
    slept the first [k] delays of the schedule. *)
Theorem fetchEmbedding_effort (service : nat -> FetchOutcome) :
  let tr := snd (fetchEmbedding service) in
  requests tr = S (length (waits tr)) /\
  1 <= requests tr <= S maxRetries /\
  waits tr = take (length (waits tr)) backoff_schedule /\
  (0 <= total_wait tr <= 15500)%Z.
Proof.
  cbv zeta.
  change (fetchEmbedding service)
    with (fetch_loop (6 + 0) service 0 initialWaitTime (trace [] 0)).
  rewrite fetch_loop_six.
  repeat match goal with
         | |- context [failed_request ?o] => destruct (failed_request o)
         end;
    simpl; unfold total_wait, maxRetries; simpl; repeat split; lia.
Qed.

End ClientEffort.

(** ** More on the chunker *)

Section ChunkerMore.

Import Tokenize.

Variable encoder : Encoder.

Lemma windows_length (tokens : list nat) (maxTokens fuel i : nat) :
  0 < maxTokens ->
  length tokens <= i + fuel * maxTokens ->
  length (windows fuel tokens maxTokens i) =
  (length tokens - i + maxTokens - 1) / maxTokens.
Proof.
  intros Hmax. revert i.
  induction fuel as [|fuel IH]; intros i Hfuel; simpl;
    destruct (Nat.ltb_spec i (length tokens)) as [Hlt|Hge]; try lia;
    try (replace (length tokens - i + maxTokens - 1) with (maxTokens - 1) by lia;
         now rewrite Nat.div_small by lia).
  simpl. rewrite IH by lia.
  destruct (Nat.le_gt_cases (length tokens - i) maxTokens) as [Hle|Hgt].
  - replace (length tokens - (i + maxTokens) + maxTokens - 1) with (maxTokens - 1) by lia.
    rewrite Nat.div_small by lia.
    replace (length tokens - i + maxTokens - 1)
      with ((length tokens - i - 1) + 1 * maxTokens) by lia.
    rewrite Nat.div_add by lia. rewrite Nat.div_small by lia. reflexivity.
  - replace (length tokens - i + maxTokens - 1)
      with ((length tokens - (i + maxTokens) + maxTokens - 1) + 1 * maxTokens) by lia.
    rewrite Nat.div_add by lia. lia.
Qed.

(** X4: a text of more than [maxTokens] tokens is cut into as many segments
    as windows of [maxTokens] tokens are needed to cover its tokens, the
    quotient rounded up; there are at least two. *)
Theorem chunkText_count (text : string) (tokens : list nat) (maxTokens : nat) :
  0 < maxTokens ->
  encode encoder text = inr tokens ->
  maxTokens < length tokens ->
  exists chunks : list string,
    chunkText encoder text maxTokens = Returned chunks /\
    length chunks = (length tokens + maxTokens - 1) / maxTokens /\
    2 <= length chunks.
Proof.
  intros Hmax Henc Hgt.
  exists (map (decode encoder) (windows (length tokens) tokens maxTokens 0)).
  assert (Hlen : length (map (decode encoder) (windows (length tokens) tokens maxTokens 0))
                 = (length tokens + maxTokens - 1) / maxTokens).
  { rewrite length_map, windows_length by nia. f_equal. lia. }
  split; [|split].
  - unfold chunkText. rewrite Henc.
    destruct (Nat.leb_spec (length tokens) maxTokens); [lia|].
    now rewrite chunk_loop_windows by nia.
  - exact Hlen.
  - rewrite Hlen.
    replace (length tokens + maxTokens - 1)
      with ((length tokens - 1 - maxTokens) + 2 * maxTokens) by lia.
    rewrite Nat.div_add by lia. lia.
Qed.

Lemma append_self_empty (s : string) : s = s +:+ s -> s = EmptyString.
Proof.
  intros H. apply (f_equal String.length) in H.
  rewrite string_length_append in H.
  destruct s; [reflexivity|simpl in H; lia].
Qed.

Lemma join_decoded (ws : list (list nat)) :
  tokenwise encoder ->
  join_chunks (map (decode encoder) ws) = decode encoder (concat ws).
Proof.
  intros [Happ _].
  assert (Hnil : decode encoder [] = EmptyString).
  { apply append_self_empty. rewrite <- Happ. reflexivity. }
  induction ws as [|w ws IH]; simpl; [now rewrite Hnil|].
  now rewrite IH, Happ.
Qed.

Lemma append_empty_r (s : string) : s +:+ EmptyString = s.
Proof.
  induction s as [|c s IH]; [reflexivity|].
  change (String c (s +:+ EmptyString) = String c s). now rewrite IH.
Qed.

(** X5: with a tokenizer whose decoder works token by token and undoes the
    encoder, chunking a text that the tokenizer accepts loses nothing: the
    segments put end to end are the text. *)
Theorem chunkText_lossless (text : string) (tokens : list nat) (maxTokens : nat) :
  tokenwise encoder ->
  0 < maxTokens ->
  encode encoder text = inr tokens ->
  exists chunks : list string,
    chunkText encoder text maxTokens = Returned chunks /\
    join_chunks chunks = text.
Proof.
  intros Htok Hmax Henc. unfold chunkText. rewrite Henc.
  destruct (Nat.leb_spec (length tokens) maxTokens) as [Hle|Hgt].
  - exists [text]. split; [reflexivity|]. simpl. apply append_empty_r.
  - rewrite chunk_loop_windows by nia. eexists. split; [reflexivity|].
    simpl. rewrite join_decoded by exact Htok.
    rewrite windows_concat by nia. rewrite drop_0.
    destruct Htok as [_ Hinv]. now apply Hinv.
Qed.

End ChunkerMore.

Lemma string_of_list_ascii_append (l1 l2 : list ascii) :
  string_of_list_ascii (l1 ++ l2) = string_of_list_ascii l1 +:+ string_of_list_ascii l2.
Proof.
  induction l1 as [|c l1 IH]; [reflexivity|].
  change (String c (string_of_list_ascii (l1 ++ l2)) =
          String c (string_of_list_ascii l1 +:+ string_of_list_ascii l2)).
  now rewrite IH.
Qed.

Lemma char_encoder_tokenwise : Tokenize.tokenwise Samples.char_encoder.
Proof.
  split; simpl.
  - intros ts1 ts2. rewrite map_app. apply string_of_list_ascii_append.
  - intros text tokens. destruct (Samples.special_match text); [discriminate|].
    intros [= <-]. rewrite map_map.
    rewrite (map_ext _ (fun c => c)) by (intros c; apply ascii_nat_embedding).
    rewrite map_id. apply string_of_list_ascii_of_string.
Qed.

Lemma chunkText_count_witness :
  exists chunks : list string,
    Tokenize.chunkText Samples.char_encoder "abcdefg" 3 = Returned chunks /\
    length chunks = 3 /\ 2 <= length chunks.
Proof.
  apply (chunkText_count Samples.char_encoder "abcdefg" [97; 98; 99; 100; 101; 102; 103] 3);
    [lia|reflexivity|simpl; lia].
Defined.

Lemma chunkText_lossless_witness :
  exists chunks : list string,
    Tokenize.chunkText Samples.char_encoder "def f(): pass" 4 = Returned chunks /\
    Tokenize.join_chunks chunks = "def f(): pass".
Proof.
  apply (chunkText_lossless Samples.char_encoder "def f(): pass"
           (map nat_of_ascii (list_ascii_of_string "def f(): pass")) 4).
  - exact char_encoder_tokenwise.
  - lia.
  - reflexivity.
Defined.

(** ** Sentinel stripping *)

Section Sentinel.

Import Tokenize.

Lemma remove_all_length (pat : string) (skip : nat) (s : string) :
  String.length (remove_all pat skip s) <= String.length s.
Proof.
  revert skip. induction s as [|c s IH]; intros skip; [simpl; lia|].
  cbn [remove_all]. destruct skip as [|k].
  - destruct (String.prefix pat (String c s)).
    + specialize (IH (String.length pat - 1)). simpl. lia.
    + specialize (IH 0). simpl. lia.
  - specialize (IH k). simpl. lia.
Qed.

(** X6: [stripSentinel] leaves a text without the sentinel as it is, never
    makes a text longer, and drops a sentinel at the head of the text.  It
    is a single pass: what it removes can bring the two halves of another
    occurrence together, so its result is not always free of the sentinel. *)
Theorem stripSentinel_single_pass (text : string) :
  (includes sentinel text = false -> stripSentinel text = text) /\
  String.length (stripSentinel text) <= String.length text /\
  stripSentinel (sentinel +:+ text) = stripSentinel text /\
  includes sentinel (stripSentinel ("<|endo" +:+ sentinel +:+ "ftext|>")) = true.
Proof.
  split; [|split; [|split]].
  - apply remove_all_no_occurrence.
  - apply remove_all_length.
  - destruct text; reflexivity.
  - reflexivity.
Qed.

End Sentinel.

Lemma stripSentinel_single_pass_witness :
  Tokenize.stripSentinel "print('<|end|>')" = "print('<|end|>')".
Proof.
  apply (proj1 (stripSentinel_single_pass "print('<|end|>')")). reflexivity.
Defined.

(** ** The embedding of a text *)

Section Embedding.

Import Tokenize.

Variable encoder : Encoder.
Variable service : Service.

Lemma fetchEmbedding_comes_back (s : nat -> FetchOutcome) :
  fst (fetchEmbedding s) <> Diverged.
Proof.
  change (fetchEmbedding s) with (fetch_loop (6 + 0) s 0 initialWaitTime (trace [] 0)).
  rewrite fetch_loop_six.
  repeat match goal with
         | |- context [failed_request ?o] => destruct (failed_request o)
         end; discriminate.
Qed.

Lemma promise_all_Returned {A B} (f : A -> Outcome B) (l : list A) (l' : list B) :
  promise_all (map f l) = Returned l' -> Forall2 (fun x y => f x = Returned y) l l'.
Proof.
  revert l'. induction l as [|x l IH]; intros l'; simpl.
  - intros [= <-]. constructor.
  - destruct (f x) as [y| |] eqn:Hx; try discriminate.
    destruct (promise_all (map f l)) as [ys| |]; try discriminate.
    intros [= <-]. constructor; auto.
Qed.

Lemma promise_all_Thrown {A B} (f : A -> Outcome B) (l : list A) (m : string) :
  promise_all (map f l) = Thrown m -> exists x, In x l /\ f x = Thrown m.
Proof.
  induction l as [|x l IH]; simpl; [discriminate|].
  destruct (f x) as [y|m'|] eqn:Hx; try discriminate.
  - destruct (promise_all (map f l)) as [ys|m'|]; try discriminate.
    intros [= <-]. destruct (IH eq_refl) as (x' & Hin & Hx'). eauto.
  - intros [= <-]. eauto.
Qed.

Lemma promise_all_Diverged {A B} (f : A -> Outcome B) (l : list A) :
  promise_all (map f l) = Diverged -> exists x, In x l /\ f x = Diverged.
Proof.
  induction l as [|x l IH]; simpl; [discriminate|].
  destruct (f x) as [y|m'|] eqn:Hx; try discriminate.
  - destruct (promise_all (map f l)) as [ys|m'|]; try discriminate.
    intros _. destruct (IH eq_refl) as (x' & Hin & Hx'). eauto.
  - eauto.
Qed.


(** With a budget of 2048 tokens the chunker always comes back: with the
    error of the tokenizer, or with at least one segment. *)
Lemma chunkText_budget (text : string) :
  match encode encoder text with
  | inl m => chunkText encoder text MAX_TOKENS_PER_CHUNK = Thrown m
  | inr _ => exists chunk chunks,
      chunkText encoder text MAX_TOKENS_PER_CHUNK = Returned (chunk :: chunks)
  end.
Proof.
  unfold chunkText.
  destruct (encode encoder text) as [m|tokens]; [reflexivity|].
  destruct (Nat.leb_spec (length tokens) MAX_TOKENS_PER_CHUNK) as [Hle|Hgt].
  - eauto.
  - rewrite chunk_loop_windows by (unfold MAX_TOKENS_PER_CHUNK in *; nia).
    destruct tokens as [|t tokens]; [simpl in Hgt; lia|].
    cbn [windows length].
    destruct (Nat.ltb_spec 0 (S (length tokens))); [|lia]. simpl. eauto.
Qed.

Lemma getEmbedding_comes_back (text : string) :
  getEmbedding encoder service text <> Diverged.
Proof.
  unfold getEmbedding. cbv zeta.
  pose proof (chunkText_budget (stripSentinel text)) as Hb.
  destruct (encode encoder (stripSentinel text)) as [m|tokens].
  - rewrite Hb. discriminate.
  - destruct Hb as (chunk & chunks & ->).
    destruct chunks as [|chunk2 chunks]; [apply fetchEmbedding_comes_back|].
    destruct (promise_all _) as [es|m|] eqn:Hall; try discriminate.
    apply promise_all_Diverged in Hall. destruct Hall as (c & _ & Hc).
    exfalso. exact (fetchEmbedding_comes_back _ Hc).
Qed.


End Embedding.


(** ** The handler of the index *)

Section Handler.

Import Tokenize.

Variable encoder : Encoder.
Variable service : Service.

Lemma index_file_Returned (file : SourceFile) (r : CodeIndexRecord) :
  index_file encoder service file = Returned r ->
  rec_filePath r = filePath file /\ rec_content r = content file /\
  getEmbedding encoder service (content file) = Returned (embedding r).
Proof.
  unfold index_file.
  destruct (getEmbedding encoder service (content file)); try discriminate.
  intros [= <-]. auto.
Qed.

Lemma index_file_comes_back (file : SourceFile) :
  index_file encoder service file <> Diverged.
Proof.
  unfold index_file.
  pose proof (getEmbedding_comes_back encoder service (content file)) as H.
  destruct (getEmbedding encoder service (content file)); congruence.
Qed.

Lemma Forall2_index_files (fs : list SourceFile) (rs : list CodeIndexRecord) :
  Forall2 (fun f r => index_file encoder service f = Returned r) fs rs ->
  map rec_filePath rs = map filePath fs /\
  map rec_content rs = map content fs /\
  Forall2 (fun f r => getEmbedding encoder service (content f) = Returned (embedding r)) fs rs.
Proof.
  induction 1 as [|f r fs rs Hfr _ IH]; simpl; [repeat split; constructor|].
  destruct (index_file_Returned _ _ Hfr) as (Hp & Hc & He).
  destruct IH as (IHp & IHc & IHe).
  rewrite Hp, Hc, IHp, IHc. repeat split; auto.
Qed.

(** X8: an index request replaces the whole index or leaves it alone.  When
    the embedding of every file is obtained, the answer is the success
    message with the number of files, and the new index holds one record
    per file, in the order of the request, with the path, the content and
    the embedding of that file, whatever the index held before.  When the
    embedding of some file throws, the answer has status 500 and the index
    is what it was. *)
Theorem index_replaces_or_keeps (fs : list SourceFile) (codeIndex : list CodeIndexRecord) :
  (exists newIndex : list CodeIndexRecord,
     POST encoder service (index_request fs) codeIndex =
       (Some (json (IndexBuilt "Embedding index built successfully." (length fs))), newIndex) /\
     map rec_filePath newIndex = map filePath fs /\
     map rec_content newIndex = map content fs /\
     Forall2 (fun f r => getEmbedding encoder service (content f) = Returned (embedding r))
       fs newIndex) \/
  (exists (file : SourceFile) (m : string),
     In file fs /\
     getEmbedding encoder service (content file) = Thrown m /\
     POST encoder service (index_request fs) codeIndex =
       (Some (json_status (ErrorBody m) 500), codeIndex)).
Proof.
  unfold POST, index_request. simpl.
  destruct (promise_all (map (index_file encoder service) fs)) as [newIndex|m|] eqn:Hall.
  - left. exists newIndex.
    apply promise_all_Returned in Hall.
    pose proof (Forall2_length _ _ _ Hall) as Hlen.
    destruct (Forall2_index_files _ _ Hall) as (Hp & Hc & He).
    rewrite <- Hlen. repeat split; assumption.
  - right. apply promise_all_Thrown in Hall. destruct Hall as (file & Hin & Hf).
    exists file, m. repeat split; [exact Hin|].
    unfold index_file in Hf.
    destruct (getEmbedding encoder service (content file)); congruence.
  - exfalso. apply promise_all_Diverged in Hall. destruct Hall as (file & _ & Hf).
    exact (index_file_comes_back _ Hf).
Qed.

(** X9: the handler always answers, with status 200, 400 or 500, and only
    an index request answered with the success message changes the index:
    queries, malformed requests and failed index requests leave it as it
    was. *)
Theorem POST_answers (request : Request) (codeIndex : list CodeIndexRecord) :
  exists resp : Response,
    fst (POST encoder service request codeIndex) = Some resp /\
    (status resp = 200 \/ status resp = 400 \/ status resp = 500) /\
    (index_succeeded (Some resp) = false ->
     snd (POST encoder service request codeIndex) = codeIndex).
Proof.
  unfold POST.
  destruct (String.eqb (action request) "index").
  - destruct (files request) as [fs|]; [|eexists; simpl; eauto].
    destruct (promise_all (map (index_file encoder service) fs)) as [newIndex|m|] eqn:Hall.
    + eexists. simpl. repeat split; eauto. discriminate.
    + eexists. simpl. eauto.
    + exfalso. apply promise_all_Diverged in Hall. destruct Hall as (file & _ & Hf).
      exact (index_file_comes_back _ Hf).
  - destruct (String.eqb (action request) "query"); [|eexists; simpl; eauto].
    destruct (query request) as [q|]; [|eexists; simpl; eauto].
    destruct (length codeIndex =? 0); [eexists; simpl; eauto|].
    pose proof (getEmbedding_comes_back encoder service q) as Hq.
    destruct (getEmbedding encoder service q); [| |congruence];
      eexists; simpl; eauto.
Qed.

Lemma take_app_drop_perm {A} (n : nat) (l l' : list A) :
  Permutation l l' -> Permutation (take n l ++ drop n l) l'.
Proof. now rewrite take_drop. Qed.

(** X10: whatever the scores are, NaN included, a query against a
    non-empty index whose embedding is obtained is answered with status 200
    and with as many entries as the index has records, up to three; the
    entries are scored records of the index, none invented and none
    repeated more often than the index holds it. *)
Theorem query_returns_index_records (codeIndex : list CodeIndexRecord) (q : string)
    (queryEmbedding : list float) :
  codeIndex <> [] ->
  getEmbedding encoder service q = Returned queryEmbedding ->
  exists results rest : list ScoredFile,
    POST encoder service (query_request q) codeIndex =
      (Some (json (Results results)), codeIndex) /\
    length results = Nat.min topK (length codeIndex) /\
    Permutation (results ++ rest) (map (score_file queryEmbedding) codeIndex).
Proof.
  intros Hne Hq.
  set (sorted := Array_sort by_score_desc (map (score_file queryEmbedding) codeIndex)).
  exists (take topK sorted), (drop topK sorted).
  assert (Hperm : Permutation sorted (map (score_file queryEmbedding) codeIndex))
    by apply Array_sort_perm.
  split; [|split].
  - unfold POST, query_request; simpl. rewrite Hq.
    destruct codeIndex; [congruence|]. reflexivity.
  - rewrite length_take, (Permutation_length Hperm), length_map. reflexivity.
  - now apply take_app_drop_perm.
Qed.

End Handler.

Lemma query_returns_index_records_witness :
  exists results rest : list Tokenize.ScoredFile,
    Tokenize.POST Samples.char_encoder Samples.toy_service
        (Tokenize.query_request "a question")
        [Samples.record "short.py" [1]%float; Samples.record "two.py" [0; 1]%float] =
      (Some (Tokenize.json (Tokenize.Results results)),
       [Samples.record "short.py" [1]%float; Samples.record "two.py" [0; 1]%float]) /\
    length results = 2 /\
    Permutation (results ++ rest)
      (map (Tokenize.score_file [1; 0]%float)
         [Samples.record "short.py" [1]%float; Samples.record "two.py" [0; 1]%float]).
Proof.
  apply (query_returns_index_records Samples.char_encoder Samples.toy_service
           [Samples.record "short.py" [1]%float; Samples.record "two.py" [0; 1]%float]
           "a question" [1; 0]%float).
  - discriminate.
  - reflexivity.
Defined.

(** ** Indexing, then querying *)

Section IndexThenQuery.

Import Tokenize.

Variable encoder : Encoder.
Variable service : Service.

Lemma promise_all_all_returned {A B} (f : A -> Outcome B) (l : list A) :
  Forall (fun x => exists y, f x = Returned y) l ->
  exists l', promise_all (map f l) = Returned l'.
Proof.
  induction 1 as [|x l [y Hy] _ [l' IH]]; simpl; [eauto|].
  rewrite Hy, IH. eauto.
Qed.

Lemma Forall2_paths (fs : list SourceFile) (rs : list CodeIndexRecord) (r : CodeIndexRecord) :
  Forall2 (fun f r => index_file encoder service f = Returned r) fs rs ->
  In r rs ->
  exists f, In f fs /\ rec_filePath r = filePath f /\ rec_content r = content f.
Proof.
  induction 1 as [|f r' fs rs Hfr _ IH]; simpl; [tauto|].
  intros [<-|Hin].
  - destruct (index_file_Returned _ _ _ _ Hfr) as (Hp & Hc & _). eauto.
  - destruct (IH Hin) as (f' & Hf' & Hp & Hc). eauto.
Qed.

(** X11: after an index request for a non-empty list of files whose
    embeddings are all obtained, whatever the index held before, a query
    whose embedding is obtained is answered with as many entries as there
    are files, up to three, and every entry has the path and the content of
    one of these files. *)
Theorem index_then_query (fs : list SourceFile) (codeIndex : list CodeIndexRecord)
    (q : string) (queryEmbedding : list float) :
  fs <> [] ->
  Forall (fun f => exists e, getEmbedding encoder service (content f) = Returned e) fs ->
  getEmbedding encoder service q = Returned queryEmbedding ->
  exists results : list ScoredFile,
    fst (serve encoder service [index_request fs; query_request q] codeIndex) =
      [ Some (json (IndexBuilt "Embedding index built successfully." (length fs)));
        Some (json (Results results)) ] /\
    length results = Nat.min topK (length fs) /\
    Forall (fun r => exists f, In f fs /\
                       sf_filePath r = filePath f /\ sf_content r = content f) results.
Proof.
  intros Hne Hall Hq.
  assert (Hfiles : Forall (fun f => exists r, index_file encoder service f = Returned r) fs).
  { eapply Forall_impl; [exact Hall|]. intros f [e He]. unfold index_file.
    rewrite He. eauto. }
  destruct (promise_all_all_returned _ _ Hfiles) as [newIndex Hnew].
  pose proof (promise_all_Returned _ _ _ Hnew) as Hpairs.
  pose proof (Forall2_length _ _ _ Hpairs) as Hlen.
  set (sorted := Array_sort by_score_desc (map (score_file queryEmbedding) newIndex)).
  assert (Hperm : Permutation sorted (map (score_file queryEmbedding) newIndex))
    by apply Array_sort_perm.
  exists (take topK sorted).
  split; [|split].
  - cbn [serve]. unfold POST at 1. unfold index_request at 1. simpl.
    rewrite Hnew. unfold POST, query_request. simpl. rewrite Hq.
    destruct newIndex as [|r rs]; [destruct fs; [congruence|discriminate]|].
    simpl. now rewrite Hlen.
  - rewrite length_take, (Permutation_length Hperm), length_map, Hlen. reflexivity.
  - rewrite Forall_forall. intros r Hr.
    assert (Hin : In r (map (score_file queryEmbedding) newIndex)).
    { apply (Permutation_in _ Hperm). apply list_elem_of_In.
      exact (subseteq_take _ _ r Hr). }
    apply in_map_iff in Hin. destruct Hin as (rec & <- & Hrec).
    destruct (Forall2_paths _ _ _ Hpairs Hrec) as (f & Hf & Hp & Hc).
    exists f. simpl. auto.
Qed.

End IndexThenQuery.

Lemma index_then_query_witness :
  exists results : list Tokenize.ScoredFile,
    fst (Tokenize.serve Samples.char_encoder Samples.toy_service
           [ Tokenize.index_request
               [ {| Tokenize.filePath := "a.py"; Tokenize.content := "a = 1" |};
                 {| Tokenize.filePath := "b.py"; Tokenize.content := "b = 2" |} ];
             Tokenize.query_request "a question" ]
           Samples.toy_index) =
      [ Some (Tokenize.json (Tokenize.IndexBuilt "Embedding index built successfully." 2));
        Some (Tokenize.json (Tokenize.Results results)) ] /\
    length results = 2 /\
    Forall (fun r => exists f,
              In f [ {| Tokenize.filePath := "a.py"; Tokenize.content := "a = 1" |};
                     {| Tokenize.filePath := "b.py"; Tokenize.content := "b = 2" |} ] /\
              Tokenize.sf_filePath r = Tokenize.filePath f /\
              Tokenize.sf_content r = Tokenize.content f) results.
Proof.
  apply (index_then_query Samples.char_encoder Samples.toy_service
           [ {| Tokenize.filePath := "a.py"; Tokenize.content := "a = 1" |};
             {| Tokenize.filePath := "b.py"; Tokenize.content := "b = 2" |} ]
           Samples.toy_index "a question" [1; 0]%float).
  - discriminate.
  - repeat constructor; eexists; reflexivity.
  - reflexivity.
Defined.

(** ** The verdicts of the sandbox *)

Section Verdicts.

Import CodeFix.

(** X12: a test run is a success exactly when the file was written, the
    process exited with code 0 and its standard output holds the marker
    [TEST_PASSED]; the output is then the standard output.  A failed run
    reports the standard output if there is any and the standard error
    otherwise; a process that did not exit with code 0 reports its standard
    error if there is any and the message of the error otherwise. *)
Theorem runPythonCode_verdict (world : RunWorld) (filePath code : string)
    (testCases : list string) (disk0 : Disk) :
  let r := result (runPythonCode world filePath code testCases disk0) in
  (success r = true <->
     write world = Written /\
     exists stdout stderr,
       python world = Exited stdout stderr /\ includes "TEST_PASSED" stdout = true) /\
  (forall stdout stderr,
     write world = Written -> python world = Exited stdout stderr ->
     output r = if includes "TEST_PASSED" stdout then stdout else str_or stdout stderr) /\
  (forall stderr message,
     write world = Written -> python world = ExecFailed stderr message ->
     success r = false /\ output r = str_or stderr message) /\
  (forall message leftover,
     write world = WriteFailed message leftover -> success r = false /\ output r = message).
Proof.
  cbv zeta.
  assert (Hres : result (runPythonCode world filePath code testCases disk0) =
                 match write world with
                 | WriteFailed message _ => {| success := false; output := message |}
                 | Written =>
                     match python world with
                     | Exited stdout stderr =>
                         if includes "TEST_PASSED" stdout
                         then {| success := true; output := stdout |}
                         else {| success := false; output := str_or stdout stderr |}
                     | ExecFailed stderr message =>
                         {| success := false; output := str_or stderr message |}
                     end
                 end).
  { unfold runPythonCode.
    destruct (removal world), (write world) as [|m leftover]; try reflexivity;
      destruct (python world) as [out err|err m]; try reflexivity;
      destruct (includes "TEST_PASSED" out); reflexivity. }
  rewrite Hres. clear Hres.
  destruct (write world) as [|m leftover] eqn:Hw;
    [destruct (python world) as [out err|err m] eqn:Hp|]; simpl.
  - destruct (includes "TEST_PASSED" out) eqn:Hi; simpl.
    + split; [|split; [|split]]; try congruence.
      * split; [|reflexivity]. intros _. split; [reflexivity|]. exists out, err. auto.
      * intros stdout stderr _ [= <- <-]. now rewrite Hi.
    + split; [|split; [|split]]; try congruence.
      * split; [discriminate|]. intros (_ & o & e & [= <- <-] & H). congruence.
      * intros stdout stderr _ [= <- <-]. now rewrite Hi.
  - split; [|split; [|split]]; try congruence.
    + split; [discriminate|]. intros (_ & o & e & H & _). discriminate.
    + intros stderr message _ [= <- <-]. auto.
  - split; [|split; [|split]]; try congruence.
    + split; [discriminate|]. intros (H & _). discriminate.
    + intros message leftover' [= <- _]. auto.
Qed.

Lemma skip_space_Some (ws : list string) (s rest : string) :
  skip_space ws s = Some rest -> exists w, In w ws /\ s = w +:+ rest.
Proof.
  induction ws as [|w ws IH]; simpl; [discriminate|].
  destruct (strip w s) as [r|] eqn:Hw.
  - intros [= <-]. exists w. split; [now left|now apply strip_Some].
  - intros H. destruct (IH H) as (w' & Hin & Hs). exists w'. split; [now right|exact Hs].
Qed.

(** No white space character is the beginning of another one, so the one at
    the head of a string is the one that is skipped, and it takes at least
    one byte. *)
Lemma blank_loop_step (w rest : string) (fuel : nat) :
  In w white_space ->
  blank_loop (S fuel) (w +:+ rest) = blank_loop fuel rest /\
  0 < String.length w.
Proof.
  intros Hin. cbv in Hin.
  repeat (destruct Hin as [<-|Hin]; [split; [reflexivity|simpl; lia]|]).
  destruct Hin.
Qed.

Lemma blank_loop_spelled (ws : list string) (fuel : nat) :
  Forall (fun w => In w white_space) ws ->
  String.length (spelled ws) <= fuel ->
  blank_loop fuel (spelled ws) = true.
Proof.
  intros Hall. revert fuel.
  induction Hall as [|w ws Hw _ IH]; intros fuel Hfuel; [now destruct fuel|].
  change (spelled (w :: ws)) with (w +:+ spelled ws) in *.
  rewrite string_length_append in Hfuel.
  destruct (blank_loop_step w (spelled ws) (pred fuel) Hw) as [Hstep Hlen].
  destruct fuel as [|fuel]; [lia|].
  simpl pred in Hstep. rewrite Hstep. apply IH. lia.
Qed.

Lemma blank_loop_sound (fuel : nat) (s : string) :
  blank_loop fuel s = true ->
  exists ws, Forall (fun w => In w white_space) ws /\ s = spelled ws.
Proof.
  revert s. induction fuel as [|fuel IH]; intros s.
  - destruct s; [|discriminate]. intros _. now exists [].
  - destruct s as [|c s]; [intros _; now exists []|].
    cbn [blank_loop].
    destruct (skip_space white_space (String c s)) as [rest|] eqn:Hskip; [|discriminate].
    intros H. destruct (IH rest H) as (ws & Hall & ->).
    destruct (skip_space_Some _ _ _ Hskip) as (w & Hin & Hs).
    exists (w :: ws). split; [now constructor|exact Hs].
Qed.

Lemma blank_spec (s : string) :
  blank s = true <->
  exists ws, Forall (fun w => In w white_space) ws /\ s = spelled ws.
Proof.
  split; [apply blank_loop_sound|].
  intros (ws & Hall & ->). now apply blank_loop_spelled.
Qed.

Lemma white_space_not_visible (w : string) (c : ascii) :
  In w white_space -> has_char c w = true -> visible c = false.
Proof.
  intros Hin. cbv in Hin.
  repeat (destruct Hin as [<-|Hin];
          [cbn [has_char]; rewrite ?orb_true_iff;
           intros H; repeat destruct H as [H|H];
           try discriminate H; apply Ascii.eqb_eq in H; now subst c|]).
  destruct Hin.
Qed.

Lemma blank_not_visible (s : string) (c : ascii) :
  blank s = true -> has_char c s = true -> visible c = false.
Proof.
  rewrite blank_spec. intros (ws & Hall & ->).
  induction Hall as [|w ws Hw _ IH]; [discriminate|].
  change (spelled (w :: ws)) with (w +:+ spelled ws).
  rewrite has_char_append, orb_true_iff. intros [H|H]; [|now apply IH].
  now apply (white_space_not_visible w).
Qed.

(** X13: an installation is a success exactly when pip exited with code 0
    and wrote nothing but white space on its standard error, the white space
    that [trim] removes; a single visible character there, a warning for
    instance, makes it a failure whose output is the standard error. *)
Theorem downloadDependency_verdict (pip : ExecOutcome) :
  (success (downloadDependency pip) = true <->
     exists (stdout stderr : string) (spaces : list string),
       pip = Exited stdout stderr /\
       Forall (fun w => In w white_space) spaces /\
       stderr = spelled spaces) /\
  (forall stdout stderr c,
     pip = Exited stdout stderr -> has_char c stderr = true -> visible c = true ->
     downloadDependency pip = {| success := false; output := stderr |}) /\
  (forall stdout stderr,
     pip = Exited stdout stderr -> success (downloadDependency pip) = true ->
     output (downloadDependency pip) = stdout).
Proof.
  destruct pip as [out err|err m]; simpl.
  - destruct (blank err) eqn:Hb; simpl; (split; [|split]).
    + split; [|reflexivity].
      intros _. apply blank_spec in Hb. destruct Hb as (ws & Hall & ->).
      now exists out, (spelled ws), ws.
    + intros stdout stderr c [= <- <-] Hc Hv.
      rewrite (blank_not_visible _ _ Hb Hc) in Hv. discriminate.
    + now intros stdout stderr [= <- <-] _.
    + split; [discriminate|].
      intros (o & e & ws & [= <- <-] & Hall & He).
      assert (blank err = true) by (apply blank_spec; eauto). congruence.
    + now intros stdout stderr c [= <- <-] _ _.
    + discriminate.
  - split; [|split]; try discriminate.
    split; [discriminate|]. intros (o & e & ws & H & _). discriminate.
Qed.

End Verdicts.

Lemma runPythonCode_verdict_witness :
  CodeFix.output (CodeFix.result
    (CodeFix.runPythonCode Samples.timeout_world "/tmp/fix_1.py" "x = 1" [] ∅)) =
  "Command failed: python /tmp/fix_1.py".
Proof.
  apply (proj1 (proj2 (proj2
    (runPythonCode_verdict Samples.timeout_world "/tmp/fix_1.py" "x = 1" [] ∅)))
      EmptyString "Command failed: python /tmp/fix_1.py"); reflexivity.
Defined.

Lemma downloadDependency_verdict_witness :
  CodeFix.downloadDependency (CodeFix.Exited "Successfully installed foo" "WARNING: old pip") =
  {| CodeFix.success := false; CodeFix.output := "WARNING: old pip" |} /\
  CodeFix.success
    (CodeFix.downloadDependency
       (CodeFix.Exited "Successfully installed foo" (CodeFix.utf8 0xA0 +:+ newline))) = true.
Proof.
  split.
  - apply (proj1 (proj2
      (downloadDependency_verdict
         (CodeFix.Exited "Successfully installed foo" "WARNING: old pip")))
      "Successfully installed foo" "WARNING: old pip" "W"%char); reflexivity.
  - apply (proj1 (downloadDependency_verdict
             (CodeFix.Exited "Successfully installed foo" (CodeFix.utf8 0xA0 +:+ newline)))).
    exists "Successfully installed foo", (CodeFix.utf8 0xA0 +:+ newline),
      [CodeFix.utf8 0xA0; newline].
    split; [reflexivity|]. split; [|reflexivity].
    repeat constructor; cbv; tauto.
Defined.

(** ** Lines *)

Section Lines.

Import CodeFix.

Lemma split_on_pieces (sep : ascii) (s : string) :
  exists l ls, split_on sep s = l :: ls /\
               Forall (fun piece => has_char sep piece = false) (l :: ls).
Proof.
  induction s as [|c s (l & ls & Hs & Hall)]; simpl.
  - exists EmptyString, []. split; [reflexivity|]. repeat constructor.
  - destruct (Ascii.eqb c sep) eqn:Hc.
    + exists EmptyString, (l :: ls). rewrite Hs. split; [reflexivity|].
      constructor; [reflexivity|exact Hall].
    + rewrite Hs. exists (String c l), ls. split; [reflexivity|].
      inversion Hall as [|? ? Hl Hls]; subst.
      constructor; [simpl; now rewrite Hc, Hl|exact Hls].
Qed.

(** Joining what was split gives the string back. *)
Lemma concat_split_on (sep : ascii) (s : string) :
  String.concat (String sep EmptyString) (split_on sep s) = s.
Proof.
  induction s as [|c s IH]; [reflexivity|].
  cbn [split_on].
  destruct (split_on_pieces sep s) as (l & ls & Hs & _). rewrite Hs in *.
  destruct (Ascii.eqb c sep) eqn:Hc.
  - apply Ascii.eqb_eq in Hc. subst c.
    change (String.concat (String sep EmptyString) (EmptyString :: l :: ls))
      with (String sep (String.concat (String sep EmptyString) (l :: ls))).
    now rewrite IH.
  - destruct ls as [|l2 ls].
    + simpl in *. now rewrite IH.
    + change (String.concat (String sep EmptyString) (String c l :: l2 :: ls))
        with (String c (String.concat (String sep EmptyString) (l :: l2 :: ls))).
      now rewrite IH.
Qed.

Lemma split_on_whole (sep : ascii) (l : string) :
  has_char sep l = false -> split_on sep l = [l].
Proof.
  induction l as [|c l IH]; simpl; [reflexivity|].
  intros H. apply orb_false_iff in H. destruct H as [Hc Hl].
  rewrite Hc, (IH Hl). reflexivity.
Qed.

Lemma split_on_append (sep : ascii) (l rest : string) :
  has_char sep l = false ->
  split_on sep (l +:+ String sep rest) = l :: split_on sep rest.
Proof.
  induction l as [|c l IH]; intros H.
  - change (EmptyString +:+ String sep rest) with (String sep rest).
    simpl. now rewrite Ascii.eqb_refl.
  - simpl in H. apply orb_false_iff in H. destruct H as [Hc Hl].
    rewrite append_cons. cbn [split_on]. rewrite Hc, (IH Hl). reflexivity.
Qed.

(** Splitting what was joined gives the pieces back, when no piece holds
    the separator. *)
Lemma split_on_concat (sep : ascii) (lines : list string) :
  lines <> [] ->
  Forall (fun l => has_char sep l = false) lines ->
  split_on sep (String.concat (String sep EmptyString) lines) = lines.
Proof.
  induction lines as [|l lines IH]; [congruence|].
  intros _ Hall. inversion Hall as [|? ? Hl Hrest]; subst.
  destruct lines as [|l2 lines].
  - simpl. now apply split_on_whole.
  - change (String.concat (String sep EmptyString) (l :: l2 :: lines))
      with (l +:+ String sep (String.concat (String sep EmptyString) (l2 :: lines))).
    rewrite split_on_append by exact Hl.
    rewrite IH; [reflexivity|discriminate|exact Hrest].
Qed.

Lemma has_char_indented (l : string) :
  has_char (ascii_of_nat 10) (indentation +:+ l) = has_char (ascii_of_nat 10) l.
Proof. reflexivity. Qed.

(** X14: the lines of a test case, joined again, are the test case; and
    indenting a test case keeps the number of its lines and puts the same
    eight spaces in front of each of them, empty lines included. *)
Theorem indent_test_case_lines (tc : string) :
  String.concat newline (split_on (ascii_of_nat 10) tc) = tc /\
  split_on (ascii_of_nat 10) (indent_test_case tc) =
    map (fun line => indentation +:+ line) (split_on (ascii_of_nat 10) tc) /\
  length (split_on (ascii_of_nat 10) (indent_test_case tc)) =
    length (split_on (ascii_of_nat 10) tc).
Proof.
  assert (Hsplit : split_on (ascii_of_nat 10) (indent_test_case tc) =
            map (fun line => indentation +:+ line) (split_on (ascii_of_nat 10) tc)).
  { unfold indent_test_case.
    destruct (split_on_pieces (ascii_of_nat 10) tc) as (l & ls & Hs & Hall).
    rewrite Hs. apply split_on_concat; [discriminate|].
    apply Forall_map. eapply Forall_impl; [exact Hall|].
    intros piece Hp. cbv beta. rewrite <- Hp. apply has_char_indented. }
  split; [apply concat_split_on|]. split; [exact Hsplit|].
  now rewrite Hsplit, length_map.
Qed.

End Lines.

(** ** The missing-dependency pattern *)

Section Diagnostic.

Import CodeFix.

Lemma strip_append (p r : string) : strip p (p +:+ r) = Some r.
Proof.
  induction p as [|c p IH]; [reflexivity|].
  rewrite append_cons. simpl. now rewrite Ascii.eqb_refl.
Qed.

Lemma span_name_spec (s : string) :
  s = fst (span_name s) +:+ snd (span_name s) /\
  quote_free (fst (span_name s)) = true /\
  match snd (span_name s) with
  | String q _ => is_quote q = true
  | EmptyString => True
  end.
Proof.
  induction s as [|c s (IHs & IHq & IHr)]; simpl; [auto|].
  destruct (is_quote c) eqn:Hc; simpl.
  - rewrite Hc. auto.
  - destruct (span_name s) as [name rest]; simpl in *.
    rewrite Hc, IHq. split; [|auto].
    rewrite append_cons. now f_equal.
Qed.

Lemma span_name_append (d post : string) (q : ascii) :
  quote_free d = true -> is_quote q = true ->
  span_name (d +:+ String q post) = (d, String q post).
Proof.
  intros Hd Hq. induction d as [|c d IH].
  - change (EmptyString +:+ String q post) with (String q post). simpl. now rewrite Hq.
  - simpl in Hd. apply andb_true_iff in Hd. destruct Hd as [Hc Hd].
    apply negb_true_iff in Hc.
    rewrite append_cons. simpl. rewrite Hc, (IH Hd). reflexivity.
Qed.

Lemma match_here_sound (s d : string) :
  match_here s = Some d ->
  d <> EmptyString /\ quote_free d = true /\
  exists q1 q2 post,
    is_quote q1 = true /\ is_quote q2 = true /\
    s = diagnostic_prefix +:+ String q1 (d +:+ String q2 post).
Proof.
  unfold match_here.
  destruct (strip diagnostic_prefix s) as [[|q after]|] eqn:Hs; try discriminate.
  destruct (is_quote q) eqn:Hq; [|discriminate].
  apply strip_Some in Hs.
  pose proof (span_name_spec after) as (Hafter & Hfree & Hrest).
  destruct (span_name after) as [[|c name] [|q2 post]]; try discriminate.
  cbn [fst snd] in Hafter, Hfree, Hrest. intros [= <-].
  split; [discriminate|]. split; [exact Hfree|].
  exists q, q2, post. repeat split; auto.
  now rewrite Hs, Hafter.
Qed.

Lemma match_here_complete (d post : string) (q1 q2 : ascii) :
  d <> EmptyString -> quote_free d = true ->
  is_quote q1 = true -> is_quote q2 = true ->
  match_here (diagnostic_prefix +:+ String q1 (d +:+ String q2 post)) = Some d.
Proof.
  intros Hne Hfree Hq1 Hq2. unfold match_here.
  rewrite strip_append, Hq1, span_name_append by assumption.
  destruct d; [congruence|reflexivity].
Qed.

Lemma missingDepMatch_unfold (s : string) :
  missingDepMatch s =
  match match_here s with
  | Some dep => Some dep
  | None => match s with
            | EmptyString => None
            | String _ s' => missingDepMatch s'
            end
  end.
Proof. destruct s; reflexivity. Qed.

(** X15: what the pattern captures is a name in the output: the group is
    not empty, holds no quote, and stands in the output between two quotes
    right after the words of the diagnostic. *)
Theorem missingDepMatch_sound (out d : string) :
  missingDepMatch out = Some d ->
  d <> EmptyString /\ quote_free d = true /\
  exists (pre post : string) (q1 q2 : ascii),
    is_quote q1 = true /\ is_quote q2 = true /\
    out = pre +:+ diagnostic_prefix +:+ String q1 (d +:+ String q2 post).
Proof.
  induction out as [|c out IH]; rewrite missingDepMatch_unfold.
  - destruct (match_here EmptyString) eqn:Hm; [|discriminate].
    intros [= <-]. destruct (match_here_sound _ _ Hm) as (Hne & Hfree & q1 & q2 & post & H1 & H2 & Hs).
    split; [exact Hne|]. split; [exact Hfree|].
    exists EmptyString, post, q1, q2. auto.
  - destruct (match_here (String c out)) eqn:Hm.
    + intros [= <-].
      destruct (match_here_sound _ _ Hm) as (Hne & Hfree & q1 & q2 & post & H1 & H2 & Hs).
      split; [exact Hne|]. split; [exact Hfree|].
      exists EmptyString, post, q1, q2. auto.
    + intros H. destruct (IH H) as (Hne & Hfree & pre & post & q1 & q2 & H1 & H2 & Hs).
      split; [exact Hne|]. split; [exact Hfree|].
      exists (String c pre), post, q1, q2. repeat split; auto.
      rewrite append_cons. now f_equal.
Qed.

Lemma missingDepMatch_skips (pre s : string) :
  is_Some (missingDepMatch s) -> is_Some (missingDepMatch (pre +:+ s)).
Proof.
  intros Hs. induction pre as [|c pre IH]; [exact Hs|].
  rewrite append_cons, missingDepMatch_unfold.
  destruct (match_here (String c (pre +:+ s))); [eauto|exact IH].
Qed.

(** X16: an output that holds the diagnostic, with a name without quotes
    between two quotes, is always recognized, wherever the diagnostic
    stands; when the output starts with it, the name captured is that
    name. *)
Theorem missingDepMatch_complete (pre d post : string) (q1 q2 : ascii) :
  d <> EmptyString -> quote_free d = true ->
  is_quote q1 = true -> is_quote q2 = true ->
  missingDepMatch (diagnostic_prefix +:+ String q1 (d +:+ String q2 post)) = Some d /\
  is_Some (missingDepMatch
             (pre +:+ diagnostic_prefix +:+ String q1 (d +:+ String q2 post))).
Proof.
  intros Hne Hfree Hq1 Hq2.
  assert (Hhead : missingDepMatch (diagnostic_prefix +:+ String q1 (d +:+ String q2 post))
                  = Some d).
  { rewrite missingDepMatch_unfold.
    now rewrite match_here_complete by assumption. }
  split; [exact Hhead|].
  apply missingDepMatch_skips. rewrite Hhead. eauto.
Qed.

End Diagnostic.

Lemma missingDepMatch_sound_witness :
  exists (pre post : string) (q1 q2 : ascii),
    CodeFix.is_quote q1 = true /\ CodeFix.is_quote q2 = true /\
    "Traceback: ModuleNotFoundError: No module named 'numpy.linalg'; exit" =
    pre +:+ CodeFix.diagnostic_prefix +:+ String q1 ("numpy.linalg" +:+ String q2 post).
Proof.
  apply (missingDepMatch_sound
           "Traceback: ModuleNotFoundError: No module named 'numpy.linalg'; exit"
           "numpy.linalg").
  reflexivity.
Defined.

Lemma missingDepMatch_complete_witness :
  is_Some (CodeFix.missingDepMatch
             ("TEST_FAILED " +:+ CodeFix.diagnostic_prefix +:+
              String squote ("yaml" +:+ String squote EmptyString))).
Proof.
  apply (missingDepMatch_complete "TEST_FAILED " "yaml" EmptyString
           squote squote); try reflexivity.
  discriminate.
Defined.

(** ** Accounting in the repair loop *)

Section Accounting.

Import CodeFix.

Variables prompt reasoningEffort : string.

Ltac cases :=
  repeat match goal with
         | |- context [match ?x with _ => _ end] =>
             lazymatch x with
             | context [match _ with _ => _ end] => fail
             | _ => destruct x eqn:?
             end
         end.

Ltac count_filters :=
  unfold completions, attempts_started; simpl;
  rewrite ?List.filter_app, ?length_app; simpl; try lia.

(** What one iteration does to the counters. *)
Lemma loop_body_accounting (w : Iteration) (st : State) :
  attempt (snd (loop_body prompt reasoningEffort w st)) =
    attempt st + (if costs w then 1 else 0) /\
  (fst (loop_body prompt reasoningEffort w st) = Break <-> passes w = true) /\
  completions (snd (loop_body prompt reasoningEffort w st)) = S (completions st) /\
  attempts_started (snd (loop_body prompt reasoningEffort w st)) = S (attempts_started st).
Proof.
  unfold costs, passes, recovers.
  unfold loop_body, download_branch, run_branch, after_failure, caught, push_tool.
  cases; simpl in *; try congruence;
    (split; [lia|]); (split; [split; congruence|]); split; count_filters.
Qed.

Lemma conclude_counters (st : State) :
  attempt (conclude st) = attempt st /\
  completions (conclude st) = completions st /\
  attempts_started (conclude st) = attempts_started st.
Proof.
  unfold conclude. destruct (negb (truthy (successfulCode st)));
    repeat split; count_filters.
Qed.

Lemma loop_accounting (world : list Iteration) (st : State) :
  exists consumed : list Iteration,
    world = consumed ++ unused_of (loop prompt reasoningEffort world st) /\
    attempt (state_of (loop prompt reasoningEffort world st)) =
      attempt st + length (List.filter costs consumed) /\
    completions (state_of (loop prompt reasoningEffort world st)) =
      completions st + length consumed /\
    attempts_started (state_of (loop prompt reasoningEffort world st)) =
      attempts_started st + length consumed.
Proof.
  revert st. induction world as [|w world IH]; intros st; simpl.
  - exists []. destruct (guard st); simpl; repeat split; lia.
  - destruct (guard st); [|exists []; simpl; repeat split; lia].
    pose proof (loop_body_accounting w st) as (Hatt & _ & Hcomp & Hstart).
    destruct (loop_body prompt reasoningEffort w st) as [[|] st1]; simpl in *.
    + destruct (IH st1) as (consumed & Hworld & Ha & Hc & Hs).
      exists (w :: consumed). simpl. rewrite <- Hworld.
      rewrite Ha, Hc, Hs, Hatt, Hcomp, Hstart.
      destruct (costs w); simpl; repeat split; lia.
    + exists [w]. simpl. rewrite Hatt, Hcomp, Hstart.
      destruct (costs w); simpl; repeat split; lia.
Qed.

(** X17: at every point of a run, the counter is the number of iterations
    so far that ended neither with passing tests nor with a successful
    installation, and the number of requests sent to the reasoning service
    is the number of iterations, as is the number of attempt announcements
    in the progress stream. *)
Theorem run_accounting (world : list Iteration) :
  let r := streamFixProcess prompt reasoningEffort world in
  exists consumed : list Iteration,
    world = consumed ++ unused_of r /\
    attempt (state_of r) = length (List.filter costs consumed) /\
    completions (state_of r) = length consumed /\
    attempts_started (state_of r) = length consumed.
Proof.
  cbv zeta. unfold streamFixProcess, streamFixProcess_from.
  destruct (loop_accounting world (initial prompt)) as (consumed & Hworld & Ha & Hc & Hs).
  exists consumed.
  destruct (loop prompt reasoningEffort world (initial prompt)) as [st unused|st];
    simpl in *; [|auto].
  destruct (conclude_counters st) as (Ha' & Hc' & Hs').
  rewrite Ha', Hc', Hs'. auto.
Qed.

End Accounting.

(** ** How runs end and go on *)

Section Runs.

Import CodeFix.

Variables prompt reasoningEffort : string.

(** X18: an iteration whose tests pass ends the run at once: nothing more is
    asked of the service and the counter stays where it was.  The run
    reports the fix, with its code and its tests, when the code is not
    empty; when the code is the empty string the run reports the failure
    message instead, although the tests passed and the budget is not
    spent. *)
Theorem passing_iteration_ends_run (w : Iteration) (world : list Iteration) (st : State)
    (toolCall : ToolCall) (params : Params) (tests : list string) :
  guard st = true ->
  completion w = ApiMessage (Some toolCall) ->
  name toolCall = "run_python_code" ->
  arguments toolCall = Object params ->
  testCases params = inr tests ->
  success (sandbox w) = true ->
  exists st' : State,
    streamFixProcess_from prompt reasoningEffort (w :: world) st = Finished st' world /\
    attempt st' = attempt st /\
    completions st' = S (completions st) /\
    successfulCode st' = Some (code params) /\
    successfulTestCases st' = Some tests /\
    last (calls st') = Some (RunTests (code params) tests) /\
    match code params with
    | EmptyString =>
        last (yielded st') = Some (FailedAfter maxAttempts) /\
        outcome_of st' = Some Failure
    | String _ _ =>
        last (yielded st') =
          Some (FinalFix (code params) (String.concat newline tests)) /\
        outcome_of st' = Some (Success (code params) tests)
    end.
Proof.
  intros Hg Hc Hn Ha Ht Hs.
  unfold streamFixProcess_from. cbn [loop]. rewrite Hg.
  unfold loop_body, run_branch. rewrite Hc, Hn, Ha, Ht, Hs. simpl.
  unfold conclude. cbn [successfulCode succeed yield].
  destruct (code params) as [|c rest] eqn:Hcode; simpl; eexists;
    (split; [reflexivity|]);
    unfold completions, outcome_of; destruct (id toolCall); simpl;
    rewrite ?last_snoc, ?List.filter_app, ?length_app; simpl;
    repeat split; try reflexivity; try lia.
Qed.

Lemma recovers_not_passes (w : Iteration) : recovers w = true -> passes w = false.
Proof.
  unfold recovers, passes.
  destruct (completion w) as [|[tc|]]; try discriminate.
  destruct (String.eqb (name tc) "download_dependency"); [reflexivity|]. simpl.
  destruct (String.eqb (name tc) "run_python_code"); [|reflexivity]. simpl.
  destruct (arguments tc) as [| |p]; try reflexivity.
  destruct (testCases p); try reflexivity.
  destruct (success (sandbox w)); [discriminate|reflexivity].
Qed.

Lemma recovering_step (w : Iteration) (st : State) :
  recovers w = true ->
  exists st' : State,
    loop_body prompt reasoningEffort w st = (Continue, st') /\
    attempt st' = attempt st /\
    successfulCode st' = successfulCode st /\
    completions st' = S (completions st).
Proof.
  intros Hr.
  pose proof (loop_body_accounting prompt reasoningEffort w st) as (Hatt & Hbreak & Hcomp & _).
  pose proof (loop_body_attempt prompt reasoningEffort w st) as Hcode.
  unfold costs in Hatt. rewrite Hr, orb_true_r in Hatt. simpl in Hatt.
  destruct (loop_body prompt reasoningEffort w st) as [[|] st'] eqn:Hbody; simpl in *.
  - exists st'. destruct Hcode as (_ & _ & Hcode).
    repeat split; auto. lia.
  - exfalso. rewrite (recovers_not_passes w Hr) in Hbreak.
    destruct Hbreak as [Hbreak _]. specialize (Hbreak eq_refl). discriminate.
Qed.

(** X19: the budget bounds the failures, not the requests: as long as every
    iteration ends with a successful installation, the loop goes on, the
    counter stays at 0 and one request per iteration is sent to the
    service, however many iterations there are. *)
Theorem recovering_run_goes_on (world : list Iteration) :
  forallb recovers world = true ->
  exists st : State,
    streamFixProcess prompt reasoningEffort world = Waiting st /\
    attempt st = 0 /\
    successfulCode st = None /\
    completions st = length world.
Proof.
  unfold streamFixProcess, streamFixProcess_from.
  assert (Hgen : forall st, forallb recovers world = true ->
            attempt st = 0 -> successfulCode st = None ->
            exists st', loop prompt reasoningEffort world st = Waiting st' /\
                        attempt st' = 0 /\ successfulCode st' = None /\
                        completions st' = completions st + length world).
  { induction world as [|w world IH]; intros st Hall Hatt Hnone.
    - exists st. simpl. unfold guard. rewrite Hatt, Hnone. simpl.
      repeat split; auto.
    - simpl in Hall. apply andb_true_iff in Hall. destruct Hall as [Hw Hall].
      destruct (recovering_step w st Hw) as (st1 & Hbody & Ha & Hc & Hn).
      destruct (IH st1 Hall) as (st' & Hloop & Ha' & Hc' & Hn'); [lia|congruence|].
      exists st'. cbn [loop]. unfold guard. rewrite Hatt, Hnone. simpl.
      rewrite Hbody, Hloop. repeat split; auto. simpl. lia. }
  intros Hall. destruct (Hgen (initial prompt) Hall eq_refl eq_refl)
    as (st & Hloop & Ha & Hc & Hn).
  exists st. rewrite Hloop. simpl. auto.
Qed.

End Runs.

(** ** What a run keeps *)

Section Growth.

Import CodeFix.

Variables prompt reasoningEffort : string.

Ltac walk :=
  repeat match goal with
         | |- context [match ?x with _ => _ end] =>
             lazymatch x with
             | context [match _ with _ => _ end] => fail
             | _ => destruct x eqn:?
             end
         end.

Lemma loop_body_yields (w : Iteration) (st : State) :
  exists events : list Event,
    yielded (snd (loop_body prompt reasoningEffort w st)) = yielded st ++ events.
Proof.
  unfold loop_body, download_branch, run_branch, after_failure, caught, push_tool.
  walk; simpl; eexists;
    first [ reflexivity | rewrite <- !app_assoc; reflexivity ].
Qed.

Lemma grows_refl (st : State) : grows st st.
Proof. repeat split; reflexivity. Qed.

Lemma grows_trans (st1 st2 st3 : State) : grows st1 st2 -> grows st2 st3 -> grows st1 st3.
Proof.
  intros (H1 & H2 & H3) (H1' & H2' & H3').
  repeat split; etransitivity; eassumption.
Qed.

Lemma loop_body_grows (w : Iteration) (st : State) :
  grows st (snd (loop_body prompt reasoningEffort w st)).
Proof.
  destruct (loop_body_turns prompt reasoningEffort w st)
    as (added & rest & Hm & Hc & _).
  destruct (loop_body_yields w st) as (events & Hy).
  unfold grows. rewrite Hm, Hc, Hy.
  repeat split; apply prefix_app_r; reflexivity.
Qed.

Lemma conclude_grows (st : State) : grows st (conclude st).
Proof.
  unfold conclude. destruct (negb (truthy (successfulCode st)));
    repeat split; simpl; try reflexivity; apply prefix_app_r; reflexivity.
Qed.

Lemma loop_grows (world : list Iteration) (st : State) :
  grows st (state_of (loop prompt reasoningEffort world st)).
Proof.
  revert st. induction world as [|w world IH]; intros st; simpl.
  - destruct (guard st); apply grows_refl.
  - destruct (guard st); [|apply grows_refl].
    pose proof (loop_body_grows w st) as Hstep.
    destruct (loop_body prompt reasoningEffort w st) as [[|] st1]; simpl in *.
    + eapply grows_trans; [exact Hstep|apply IH].
    + exact Hstep.
Qed.

Lemma loop_waiting_app (world more : list Iteration) (st st1 : State) :
  loop prompt reasoningEffort world st = Waiting st1 ->
  loop prompt reasoningEffort (world ++ more) st = loop prompt reasoningEffort more st1.
Proof.
  revert st. induction world as [|w world IH]; intros st; simpl.
  - destruct (guard st) eqn:Hg; [|discriminate]. intros [= <-].
    destruct more; simpl; now rewrite ?Hg.
  - destruct (guard st); [|discriminate].
    destruct (loop_body prompt reasoningEffort w st) as [[|] st']; [|discriminate].
    apply IH.
Qed.

Lemma loop_body_opened (w : Iteration) (st : State) :
  opened prompt reasoningEffort st ->
  opened prompt reasoningEffort (snd (loop_body prompt reasoningEffort w st)).
Proof.
  intros [[turns Hturns] Hcalls].
  destruct (loop_body_turns prompt reasoningEffort w st)
    as (added & rest & Hm & Hc & _ & Hrest & _).
  unfold opened. rewrite Hm, Hc. split.
  - exists (turns ++ added). now rewrite Hturns.
  - apply Forall_app. split; [exact Hcalls|]. constructor.
    + unfold sent. simpl. split; [reflexivity|].
      rewrite Hturns. simpl. eauto.
    + eapply Forall_impl; [exact Hrest|].
      intros [e m| |]; simpl; auto; discriminate.
Qed.

Lemma loop_opened (world : list Iteration) (st : State) :
  opened prompt reasoningEffort st ->
  opened prompt reasoningEffort (state_of (loop prompt reasoningEffort world st)).
Proof.
  revert st. induction world as [|w world IH]; intros st Hst; simpl.
  - destruct (guard st); exact Hst.
  - destruct (guard st); [|exact Hst].
    pose proof (loop_body_opened w st Hst) as Hnext.
    destruct (loop_body prompt reasoningEffort w st) as [[|] st']; simpl in *; auto.
Qed.

(** X20: the conversation of a run always opens with the prompt, and every
    request to the reasoning service opens with it and carries the effort
    the generator was given ([medium] when it was given none); and as the
    world answers more, the conversation, the calls made and the progress
    stream only grow: nothing said, done or announced is taken back. *)
Theorem run_only_grows (world more : list Iteration) :
  let st := state_of (streamFixProcess prompt reasoningEffort world) in
  let st' := state_of (streamFixProcess prompt reasoningEffort (world ++ more)) in
  (exists turns, chatMessages st = user_message prompt :: turns) /\
  Forall (opens_with prompt reasoningEffort) (calls st) /\
  chatMessages st `prefix_of` chatMessages st' /\
  calls st `prefix_of` calls st' /\
  yielded st `prefix_of` yielded st'.
Proof.
  cbv zeta. unfold streamFixProcess, streamFixProcess_from.
  assert (Hinit : opened prompt reasoningEffort (initial prompt)).
  { split; simpl; [eauto|constructor]. }
  pose proof (loop_opened world _ Hinit) as Hopen.
  destruct (loop prompt reasoningEffort world (initial prompt)) as [st unused|st] eqn:Hloop.
  - rewrite (loop_finished_app _ _ _ more _ _ _ Hloop). simpl in *.
    assert (Hopen' : opened prompt reasoningEffort (conclude st)).
    { unfold conclude. destruct (negb (truthy (successfulCode st))); exact Hopen. }
    destruct Hopen' as [Hturns Hcalls].
    repeat split; auto.
  - rewrite (loop_waiting_app _ more _ _ Hloop). simpl in *.
    destruct Hopen as [Hturns Hcalls].
    split; [exact Hturns|]. split; [exact Hcalls|].
    assert (Hgrow : grows st
              (state_of (conclude_run (loop prompt reasoningEffort more st)))).
    { pose proof (loop_grows more st) as Hg.
      destruct (loop prompt reasoningEffort more st) as [st2 u|st2]; simpl in *; [|exact Hg].
      eapply grows_trans; [exact Hg|apply conclude_grows]. }
    exact Hgrow.
Qed.

End Growth.

Lemma passing_iteration_ends_run_witness :
  exists st' : CodeFix.State,
    CodeFix.streamFixProcess_from "fix it" "high"
      [ {| CodeFix.completion :=
             Samples.request "call_9" "run_python_code"
               (CodeFix.Object {| CodeFix.code := EmptyString;
                                  CodeFix.testCases := inr ["assert True"];
                                  CodeFix.dependency := EmptyString |});
           CodeFix.sandbox := Samples.ok_result;
           CodeFix.install := Samples.ok_result |};
        Samples.failing_tests ]
      (CodeFix.initial "fix it") = CodeFix.Finished st' [Samples.failing_tests] /\
    CodeFix.attempt st' = 0 /\
    CodeFix.outcome_of st' = Some CodeFix.Failure.
Proof.
  destruct (passing_iteration_ends_run "fix it" "high"
              {| CodeFix.completion :=
                   Samples.request "call_9" "run_python_code"
                     (CodeFix.Object {| CodeFix.code := EmptyString;
                                        CodeFix.testCases := inr ["assert True"];
                                        CodeFix.dependency := EmptyString |});
                 CodeFix.sandbox := Samples.ok_result;
                 CodeFix.install := Samples.ok_result |}
              [Samples.failing_tests] (CodeFix.initial "fix it") _ _ ["assert True"]
              eq_refl eq_refl eq_refl eq_refl eq_refl eq_refl)
    as (st' & Hrun & Hatt & _ & _ & _ & _ & _ & Hout).
  exists st'. auto.
Defined.

Lemma recovering_run_goes_on_witness :
  exists st : CodeFix.State,
    CodeFix.streamFixProcess "fix it" "high"
      (repeat Samples.asks_install 7 ++ repeat (Samples.missing_foo true) 5) =
      CodeFix.Waiting st /\
    CodeFix.attempt st = 0 /\
    CodeFix.completions st = 12.
Proof.
  destruct (recovering_run_goes_on "fix it" "high"
              (repeat Samples.asks_install 7 ++ repeat (Samples.missing_foo true) 5)
              eq_refl)
    as (st & Hrun & Hatt & _ & Hcomp).
  exists st. auto.
Defined.

(** ** Substrings *)

Section Substrings.

Lemma includes_append_l (p a s : string) :
  includes p s = true -> includes p (a +:+ s) = true.
Proof.
  intros H. induction a as [|c a IH]; [exact H|].
  rewrite append_cons, includes_unfold.
  destruct (String.prefix p (String c (a +:+ s))); [reflexivity|exact IH].
Qed.

Lemma includes_append_r (p s t : string) :
  includes p s = true -> includes p (s +:+ t) = true.
Proof.
  induction s as [|c s IH]; rewrite (includes_unfold p).
  - destruct (String.prefix p EmptyString) eqn:Hp; [|discriminate].
    intros _. rewrite includes_unfold.
    now rewrite (prefix_append_r p EmptyString t Hp).
  - destruct (String.prefix p (String c s)) eqn:Hp.
    + intros _. rewrite includes_unfold.
      now rewrite (prefix_append_r p (String c s) t Hp).
    + intros H. rewrite append_cons, includes_unfold.
      destruct (String.prefix p (String c (s +:+ t))); [reflexivity|].
      now apply IH.
Qed.

Lemma includes_self (p : string) : includes p p = true.
Proof.
  rewrite includes_unfold.
  replace (String.prefix p p) with true; [reflexivity|].
  symmetry. rewrite <- (append_empty_r p) at 2. apply prefix_append.
Qed.

(** A piece of a joined list is a substring of the whole. *)
Lemma includes_concat (sep x : string) (l : list string) :
  In x l -> includes x (String.concat sep l) = true.
Proof.
  induction l as [|y l IH]; [intros []|].
  intros Hin. destruct l as [|z l].
  - destruct Hin as [->|[]]. apply includes_self.
  - change (String.concat sep (y :: z :: l))
      with (y +:+ sep +:+ String.concat sep (z :: l)).
    destruct Hin as [->|Hin].
    + apply includes_append_r, includes_self.
    + apply includes_append_l, includes_append_l, IH, Hin.
Qed.

End Substrings.

(** ** The code-fix route *)

Section Route.

Import CodeFix FixRoute.

Variable encoder : Tokenize.Encoder.
Variable service : Tokenize.Service.
Variable reason : nat -> string.

(** X21: a fix request starts a run of the repair loop only when the
    tokenize route answers the query with results.  Against an empty index,
    and when the embedding of the query throws, the handler answers with
    status 500 and the status text of the tokenize answer, and the
    generator is not run; otherwise it streams the run of the generator on
    the prompt built from the request and the returned documents. *)
Theorem fix_needs_query_results (req : FixRequest) (world : list Iteration)
    (codeIndex : list Tokenize.CodeIndexRecord) :
  exists resp : Tokenize.Response,
    Tokenize.POST encoder service (tokenize_query req) codeIndex = (Some resp, codeIndex) /\
    (codeIndex = [] ->
       POST (answer_of reason resp) req world =
         Refused 500 ("Tokenize endpoint error: " +:+ reason 400)) /\
    (forall m, codeIndex <> [] ->
       Tokenize.getEmbedding encoder service
         (interpolate (issueName req) +:+ newline +:+ interpolate (issueDescription req))
         = Thrown m ->
       POST (answer_of reason resp) req world =
         Refused 500 ("Tokenize endpoint error: " +:+ reason 500)) /\
    (forall queryEmbedding, codeIndex <> [] ->
       Tokenize.getEmbedding encoder service
         (interpolate (issueName req) +:+ newline +:+ interpolate (issueDescription req))
         = Returned queryEmbedding ->
       exists docs : list Tokenize.ScoredFile,
         resp = Tokenize.json (Tokenize.Results docs) /\
         length docs = Nat.min Tokenize.topK (length codeIndex) /\
         POST (answer_of reason resp) req world =
           Streamed (streamFixProcess (prompt_for req docs) (effort_of req) world)).
Proof.
  set (q := interpolate (issueName req) +:+ newline +:+ interpolate (issueDescription req)).
  change (tokenize_query req) with (Tokenize.query_request q).
  destruct codeIndex as [|r rs].
  - exists Tokenize.NotIndexed. split; [reflexivity|].
    repeat split; try congruence.
  - pose proof (getEmbedding_comes_back encoder service q) as Hback.
    assert (Hpost : Tokenize.POST encoder service (Tokenize.query_request q) (r :: rs) =
              match Tokenize.getEmbedding encoder service q with
              | Returned qe =>
                  (Some (Tokenize.json (Tokenize.Results
                     (take Tokenize.topK
                        (Tokenize.Array_sort Tokenize.by_score_desc
                           (map (Tokenize.score_file qe) (r :: rs)))))), r :: rs)
              | Thrown m => (Some (Tokenize.json_status (Tokenize.ErrorBody m) 500), r :: rs)
              | Diverged => (None, r :: rs)
              end).
    { unfold Tokenize.POST, Tokenize.query_request. simpl.
      destruct (Tokenize.getEmbedding encoder service q); reflexivity. }
    rewrite Hpost.
    destruct (Tokenize.getEmbedding encoder service q) as [qe|m|]; [| |congruence].
    + eexists. split; [reflexivity|].
      split; [congruence|]. split; [congruence|].
      intros queryEmbedding _ [= <-]. eexists. split; [reflexivity|]. split; [|reflexivity].
      rewrite length_take.
      rewrite (Permutation_length (Array_sort_perm _ _)). now rewrite length_map.
    + eexists. split; [reflexivity|].
      split; [congruence|]. split; [reflexivity|]. congruence.
Qed.

(** X22: the prompt that the handler gives the generator holds the title
    and the description of the issue, the current code, and the content of
    every document that the query returned; a property that the caller did
    not send stands in it as the text [undefined]. *)
Theorem prompt_holds_context (req : FixRequest) (docs : list Tokenize.ScoredFile) :
  includes (interpolate (issueName req)) (prompt_for req docs) = true /\
  includes (interpolate (issueDescription req)) (prompt_for req docs) = true /\
  includes (interpolate (currentCode req)) (prompt_for req docs) = true /\
  (forall doc, In doc docs ->
     includes (Tokenize.sf_content doc) (prompt_for req docs) = true) /\
  (currentCode req = None -> includes "undefined" (prompt_for req docs) = true).
Proof.
  assert (Hline : forall x line,
            includes x line = true ->
            In line [ "Issue Title: " +:+ interpolate (issueName req);
                      "Issue Description: " +:+ interpolate (issueDescription req);
                      full_context (currentCode req) (additional_context docs) ] ->
            includes x (prompt_for req docs) = true).
  { intros x line Hx Hin. unfold prompt_for, build_prompt.
    set (lines := cons EmptyString _).
    assert (Hl : In line lines) by (unfold lines; simpl in *; tauto).
    clearbody lines. induction lines as [|y l IH]; [destruct Hl|].
    destruct l as [|z l].
    - destruct Hl as [->|[]]. exact Hx.
    - change (String.concat newline (y :: z :: l))
        with (y +:+ newline +:+ String.concat newline (z :: l)).
      destruct Hl as [->|Hl].
      + now apply includes_append_r.
      + apply includes_append_l, includes_append_l, IH, Hl. }
  assert (Hcode : includes (interpolate (currentCode req)) (prompt_for req docs) = true).
  { eapply Hline; [|right; right; left; reflexivity].
    unfold full_context. apply includes_append_r, includes_self. }
  split; [|split; [|split; [|split]]].
  - eapply Hline; [|left; reflexivity]. apply includes_append_l, includes_self.
  - eapply Hline; [|right; left; reflexivity]. apply includes_append_l, includes_self.
  - exact Hcode.
  - intros doc Hdoc. eapply Hline; [|right; right; left; reflexivity].
    unfold full_context. do 5 apply includes_append_l.
    unfold additional_context. apply includes_concat. now apply in_map.
  - intros Hnone. rewrite Hnone in Hcode. exact Hcode.
Qed.

End Route.

(** ** The status shown by the agent box *)

Section Status.

Import CodeFix AgentBox.

Lemma prefix_first (k c : ascii) (kw s : string) :
  Ascii.eqb c k = false -> String.prefix (String k kw) (String c s) = false.
Proof.
  intros H. simpl. destruct (ascii_dec k c) as [->|]; [|reflexivity].
  now rewrite Ascii.eqb_refl in H.
Qed.

(** No occurrence starts inside a stretch that lacks the first character. *)
Lemma includes_skip (k : ascii) (kw v rest : string) :
  has_char k v = false ->
  includes (String k kw) (v +:+ rest) = includes (String k kw) rest.
Proof.
  induction v as [|c v IH]; intros H; [reflexivity|].
  simpl in H. apply orb_false_iff in H. destruct H as [Hc Hv].
  rewrite append_cons, includes_unfold, prefix_first by exact Hc.
  now apply IH.
Qed.

Lemma includes_absent (k : ascii) (kw s : string) :
  has_char k s = false -> includes (String k kw) s = false.
Proof.
  intros H. rewrite <- (append_empty_r s), includes_skip by exact H. reflexivity.
Qed.

Lemma includes_cons (p : string) (c : ascii) (s : string) :
  String.prefix p (String c s) = false -> includes p (String c s) = includes p s.
Proof. intros H. rewrite includes_unfold, H. reflexivity. Qed.

Lemma has_char_uint (c : ascii) (d : Decimal.uint) :
  is_digit c = false -> has_char c (NilEmpty.string_of_uint d) = false.
Proof.
  intros Hc. induction d; cbn [NilEmpty.string_of_uint has_char]; try reflexivity;
    rewrite IHd, orb_false_r;
    match goal with
    | |- Ascii.eqb ?a c = false =>
        destruct (Ascii.eqb a c) eqn:He; [|reflexivity];
        apply Ascii.eqb_eq in He; subst c; discriminate
    end.
Qed.

Lemma has_char_decimal (c : ascii) (n : nat) :
  is_digit c = false -> has_char c (decimal n) = false.
Proof. intros H. now apply has_char_uint. Qed.

Ltac absent :=
  rewrite ?has_char_append, ?has_char_decimal by reflexivity;
  repeat match goal with
         | H : has_char _ _ = false |- _ => rewrite H
         end;
  reflexivity.

Lemma status_attempt n status : status_after (render (AttemptStarted n)) status = status.
Proof.
  unfold status_after, render.
  rewrite (includes_skip "G" _ "Attempt ") by reflexivity.
  rewrite (includes_skip "G" _ (decimal n)) by now apply has_char_decimal.
  replace (includes "Generated code fix" (": Generating Python code fix and test cases..." +:+ paragraph)) with false by reflexivity.
  rewrite !(includes_absent "T"), !(includes_absent "F") by absent. reflexivity.
Qed.

Lemma status_running status :
  status_after (render RunningTests) status = "Code generated. Running test cases...".
Proof. reflexivity. Qed.

Lemma status_passed n status :
  status_after (render (TestsPassed n)) status = "Test cases passed! Fix successful.".
Proof.
  unfold status_after, render.
  rewrite (includes_absent "G") by absent.
  replace (includes "Test cases passed!" _) with true; [reflexivity|].
  symmetry. apply (includes_append_r _ "Test cases passed!"). reflexivity.
Qed.

Lemma status_exhausted n status :
  status_after (render (FailedAfter n)) status = status.
Proof.
  unfold status_after, render.
  rewrite (includes_absent "G"), !(includes_absent "T") by absent.
  change ("Failed to generate a working fix after " +:+ decimal n +:+ " attempts." +:+ paragraph)
    with (String "F" ("ailed to generate a working fix after " +:+ decimal n +:+ " attempts." +:+ paragraph)).
  rewrite includes_cons by reflexivity.
  rewrite (includes_absent "F") by absent. reflexivity.
Qed.

Lemma status_failed n out status :
  has_char "G" out = false -> has_char "T" out = false ->
  status_after (render (TestsFailed n out)) status = "Test cases failed. Retrying...".
Proof.
  intros HG HT. unfold status_after, render.
  rewrite (includes_absent "G") by absent.
  change ("Test cases failed on attempt " +:+ decimal n +:+ ": " +:+ out +:+ paragraph)
    with (String "T" ("est cases failed on attempt " +:+ decimal n +:+ ": " +:+ out +:+ paragraph)).
  rewrite includes_cons by reflexivity.
  rewrite (includes_absent "T") by absent.
  replace (includes "Test cases failed" _) with true; [reflexivity|].
  symmetry. 
  change (String "T" ("est cases failed on attempt " +:+ decimal n +:+ ": " +:+ out +:+ paragraph))
    with ("Test cases failed" +:+ (" on attempt " +:+ decimal n +:+ ": " +:+ out +:+ paragraph)).
  apply includes_append_r. reflexivity.
Qed.

Lemma status_final code tests status :
  has_char "G" code = false -> has_char "T" code = false ->
  has_char "G" tests = false -> has_char "T" tests = false ->
  status_after (render (FinalFix code tests)) status = "Final fix generated.".
Proof.
  intros HGc HTc HGt HTt. unfold status_after, render.
  rewrite (includes_absent "G") by absent.
  assert (Hscan : forall kw, 
     String.prefix (String "T" kw) ("Test Cases:" +:+ newline +:+ tests +:+ paragraph) = false ->
     includes (String "T" kw) ("Final working fix:" +:+ paragraph +:+ "Code Fix:" +:+ newline +:+ code +:+ paragraph +:+
      "Test Cases:" +:+ newline +:+ tests +:+ paragraph) = false).
  { intros kw Hp.
    rewrite (includes_skip "T" _ "Final working fix:") by reflexivity.
    rewrite (includes_skip "T" _ paragraph) by reflexivity.
    rewrite (includes_skip "T" _ "Code Fix:") by reflexivity.
    rewrite (includes_skip "T" _ newline) by reflexivity.
    rewrite (includes_skip "T" _ code) by assumption.
    rewrite (includes_skip "T" _ paragraph) by reflexivity.
    change ("Test Cases:" +:+ newline +:+ tests +:+ paragraph)
      with (String "T" ("est Cases:" +:+ newline +:+ tests +:+ paragraph)) in *.
    rewrite includes_cons by exact Hp.
    apply includes_absent. absent. }
  rewrite !Hscan by reflexivity.
  replace (includes "Final working fix" _) with true; [reflexivity|].
  symmetry. apply (includes_append_r _ "Final working fix:"). reflexivity.
Qed.
(** X23: when a chunk of the stream is the text of one event, the status
    shown follows the run: the announcement of an attempt leaves it as it
    was, the start of a test run sets it to the running status, passed
    tests to the success status, failed tests (with an output free of the
    letters G and T) to the retry status, and the final fix (with code and
    tests free of these letters) to the final status.  The message of the
    exhausted budget holds none of the keywords: after it the status is
    what it was before. *)
Theorem status_follows_events (n : nat) (status : string) :
  status_after (render (AttemptStarted n)) status = status /\
  status_after (render RunningTests) status = "Code generated. Running test cases..." /\
  status_after (render (TestsPassed n)) status = "Test cases passed! Fix successful." /\
  (forall out, has_char "G" out = false -> has_char "T" out = false ->
     status_after (render (TestsFailed n out)) status = "Test cases failed. Retrying...") /\
  (forall code tests,
     has_char "G" code = false -> has_char "T" code = false ->
     has_char "G" tests = false -> has_char "T" tests = false ->
     status_after (render (FinalFix code tests)) status = "Final fix generated.") /\
  status_after (render (FailedAfter n)) status = status.
Proof.
  split; [apply status_attempt|].
  split; [apply status_running|].
  split; [apply status_passed|].
  split; [intros out; apply status_failed|].
  split; [intros code tests; apply status_final|].
  apply status_exhausted.
Qed.

(** X24: the status is read off the text, not off the event: when the
    output of failed tests holds the words of the success message, the
    chunk that announces the failure sets the success status. *)
Theorem status_misled_by_output (n : nat) (out status : string) :
  has_char "G" out = false ->
  includes "Test cases passed!" out = true ->
  status_after (render (TestsFailed n out)) status = "Test cases passed! Fix successful.".
Proof.
  intros HG HT. unfold status_after, render.
  rewrite (includes_absent "G") by absent.
  replace (includes "Test cases passed!" _) with true; [reflexivity|].
  symmetry. do 3 apply includes_append_l. now apply includes_append_r.
Qed.

End Status.

Lemma status_follows_events_witness :
  AgentBox.status_after
    (AgentBox.render (CodeFix.TestsFailed 2 "assertion error: 1 != 2")) "Starting" =
    "Test cases failed. Retrying..." /\
  AgentBox.status_after
    (AgentBox.render (CodeFix.FinalFix "x = 1" "assert x == 1")) "Starting" =
    "Final fix generated.".
Proof.
  split.
  - apply (proj1 (proj2 (proj2 (proj2 (status_follows_events 2 "Starting")))));
      reflexivity.
  - apply (proj1 (proj2 (proj2 (proj2 (proj2 (status_follows_events 2 "Starting"))))));
      reflexivity.
Defined.

Lemma status_misled_by_output_witness :
  AgentBox.status_after
    (AgentBox.render (CodeFix.TestsFailed 1 "expected: Test cases passed! but got 3"))
    "Starting" = "Test cases passed! Fix successful.".
Proof.
  apply (status_misled_by_output 1 "expected: Test cases passed! but got 3" "Starting");
    reflexivity.
Defined.

Lemma fix_needs_query_results_witness :
  FixRoute.POST (FixRoute.answer_of (fun _ => "Bad Request") Tokenize.NotIndexed)
    {| FixRoute.issueName := Some "crash on start";
       FixRoute.issueDescription := Some "main() raises";
       FixRoute.currentCode := None;
       FixRoute.reasoningEffort := None |}
    [Samples.failing_tests] =
  FixRoute.Refused 500 "Tokenize endpoint error: Bad Request".
Proof.
  destruct (fix_needs_query_results Samples.char_encoder Samples.toy_service
              (fun _ => "Bad Request")
              {| FixRoute.issueName := Some "crash on start";
                 FixRoute.issueDescription := Some "main() raises";
                 FixRoute.currentCode := None;
                 FixRoute.reasoningEffort := None |}
              [Samples.failing_tests] [])
    as (resp & Hpost & Hempty & _).
  injection Hpost as <-. exact (Hempty eq_refl).
Defined.

Lemma prompt_holds_context_witness :
  includes "undefined"
    (FixRoute.prompt_for
       {| FixRoute.issueName := Some "crash on start";
          FixRoute.issueDescription := Some "main() raises";
          FixRoute.currentCode := None;
          FixRoute.reasoningEffort := None |}
       []) = true.
Proof.
  apply (proj2 (proj2 (proj2 (proj2
    (prompt_holds_context
       {| FixRoute.issueName := Some "crash on start";
          FixRoute.issueDescription := Some "main() raises";
          FixRoute.currentCode := None;
          FixRoute.reasoningEffort := None |}
       []))))).
  reflexivity.
Defined.

Lemma POST_answers_witness :
  snd (Tokenize.POST Samples.char_encoder Samples.toy_service
         {| Tokenize.action := "delete"; Tokenize.files := None; Tokenize.query := None |}
         Samples.toy_index) = Samples.toy_index.
Proof.
  destruct (POST_answers Samples.char_encoder Samples.toy_service
              {| Tokenize.action := "delete"; Tokenize.files := None; Tokenize.query := None |}
              Samples.toy_index)
    as (resp & Hresp & _ & Hkeep).
  apply Hkeep. injection Hresp as <-. reflexivity.
Defined.
